(** * YAML intelligence engine: a shallow embedding

    The development follows the browser bundle embedded in
    [src/format/html/format-html-notebook-preview.ts]: the validator
    queue, the annotated-tree builder and cursor locator, the line-wise
    reparse search, the indentation fallback, the schema navigator, the
    completion generator and the dispatchers in front of them; and the
    splitting of a code cell into options and source of
    [src/core/lib/partition-cell-options.ts].

    JavaScript conventions used throughout:
    - a string is a [string] of code units (one [ascii] each);
    - an array is a [list]; a nested array is an inductive tree so that
      [flat(Infinity)] can be written out;
    - an object used as a dictionary is the [gmap string _] of its own
      properties; a read [obj[name]] of a name that is not among them
      finds the members every object inherits from [Object.prototype]
      ([inherited]: "constructor", "toString", ...), and an assignment
      to the name "__proto__" stores no property;
    - a function that may throw returns an [outcome]. *)

From Stdlib Require Import ZArith String Ascii List Lia Permutation Sorted.
From stdpp Require Import base option list gmap strings pretty sorting.
Import ListNotations.

Set Warnings "-register-all".
Local Open Scope Z_scope.

(** ** JavaScript values, exceptions and string helpers *)

Module Js.

(** Exceptions the modelled code can raise: its own [throw new Error(msg)],
    the runtime's [TypeError] for a property read on [undefined] or
    [null], and its [RangeError] for an invalid count. *)
Inductive Exn : Type :=
  | InternalError (msg : string)
  | TypeError
  | RangeError.

(** Outcome of a call: a value, an exception, or the model's recursion
    budget exhausted ([Diverge], which no claim counts as a result). *)
Inductive outcome (A : Type) : Type :=
  | Ret (a : A)
  | Throw (e : Exn)
  | Diverge.

Arguments Ret {A} a.
Arguments Throw {A} e.
Arguments Diverge {A}.

Definition bind {A B : Type} (m : outcome A) (k : A -> outcome B) : outcome B :=
  match m with
  | Ret a => k a
  | Throw e => Throw e
  | Diverge => Diverge
  end.

Notation "x <- m ;;; k" := (bind m (fun x => k))
  (at level 100, m at next level, right associativity).

(** The values that end up in paths and in annotated nodes.  Numbers are
    the integers (offsets and indices are the only numbers the code
    computes with). *)
Unset Elimination Schemes.
Inductive JsVal : Type :=
  | JNull
  | JBool (b : bool)
  | JNum (n : Z)
  | JStr (s : string)
  | JArr (l : list JsVal)
  | JObj (l : list (string * JsVal)).
Set Elimination Schemes.

(** [Array.prototype.flat(Infinity)] on the elements of an array. *)
Fixpoint flatVal (v : JsVal) : list JsVal :=
  match v with
  | JArr l => concat (map flatVal l)
  | _ => [v]
  end.

Definition flatInfinity (l : list JsVal) : list JsVal := concat (map flatVal l).

(** Nested arrays over an element type that is not itself an array. *)
Unset Elimination Schemes.
Inductive Nested (A : Type) : Type :=
  | NLeaf (a : A)
  | NArr (l : list (Nested A)).
Set Elimination Schemes.

Arguments NLeaf {A} a.
Arguments NArr {A} l.

Fixpoint flatNested {A : Type} (n : Nested A) : list A :=
  match n with
  | NLeaf a => [a]
  | NArr l => concat (map flatNested l)
  end.

Definition flatInf {A : Type} (l : list (Nested A)) : list A :=
  concat (map flatNested l).

(** Truthiness of a string: only the empty string is falsy. *)
Definition truthy (s : string) : bool :=
  match s with
  | EmptyString => false
  | _ => true
  end.

(** [String.prototype.startsWith]. *)
Definition startsWith (s w : string) : bool := String.prefix w s.

Fixpoint joinWith (sep : string) (l : list string) : string :=
  match l with
  | [] => ""
  | [x] => x
  | x :: rest => x +:+ sep +:+ joinWith sep rest
  end.

(** [ToString] on the modelled values (the conversion applied when a
    value is used as a property key or passed to [startsWith]). *)
Fixpoint toString (v : JsVal) : string :=
  match v with
  | JNull => "null"
  | JBool true => "true"
  | JBool false => "false"
  | JNum n => pretty n
  | JStr s => s
  | JArr l =>
      joinWith "," (map (fun x => match x with JNull => "" | _ => toString x end) l)
  | JObj _ => "[object Object]"
  end.

(** The names every plain object inherits from [Object.prototype]: the
    read [obj[name]] of one of them, on an object that has no own
    property of that name, gives the member of the prototype and not
    [undefined]. *)
Definition inheritedNames : list string :=
  ["constructor"; "__defineGetter__"; "__defineSetter__"; "hasOwnProperty";
   "__lookupGetter__"; "__lookupSetter__"; "isPrototypeOf";
   "propertyIsEnumerable"; "toString"; "valueOf"; "__proto__";
   "toLocaleString"].

Definition inherited (name : string) : bool :=
  existsb (String.eqb name) inheritedNames.

(** The text of the member [name] of [Object.prototype] where it is
    used as a string: the accessor [__proto__] reads as the prototype
    itself, an object; the others are built-in functions, with the text
    V8 gives them (the standard leaves its spacing to the engine). *)
Definition memberText (name : string) : string :=
  if String.eqb name "__proto__" then "[object Object]"
  else "function "
       +:+ (if String.eqb name "constructor" then "Object" else name)
       +:+ "() { [native code] }".

End Js.

Import Js.

(** ** Schema navigation ([navigateSchema], schemas.js) *)

Module SchemaNav.

(** A schema node, with the fields the navigator reads: [$id], [$ref],
    [properties], [items], [anyOf], [oneOf], [allOf], and the [type]
    discriminant of the data model. *)
Unset Elimination Schemes.
Inductive Schema : Type := MkSchema {
  id_ : option string;
  ref_ : option string;
  type_ : option string;
  properties : option (gmap string Schema);
  items : option Schema;
  anyOf : option (list Schema);
  oneOf : option (list Schema);
  allOf : option (list Schema);
}.
Set Elimination Schemes.

(** The registry [refs] of identities seen so far. *)
Abbreviation Refs := (gmap string Schema).

(** Result of [inner]: a possibly nested array of schema nodes, and the
    registry as the call leaves it. *)
Abbreviation Found := (list (Nested Schema) * Refs)%type.

(** What the navigator reads of a member of [Object.prototype] that an
    inherited name gave it in place of a schema: none of the fields. *)
Definition inheritedMember : Schema :=
  MkSchema None None None None None None None None.

(** [if (subSchema.$id) refs[subSchema.$id] = subSchema].  The identity
    "__proto__" names no property: the assignment makes the schema the
    prototype of the registry, and the read of that name gives it back,
    as the entry kept here does; the names the registry then inherits
    from that schema are not modelled. *)
Definition register (subSchema : Schema) (refs : Refs) : Refs :=
  match id_ subSchema with
  | Some i => if truthy i then <[i := subSchema]> refs else refs
  | None => refs
  end.

(** [if (subSchema.$ref) { ... subSchema = refs[subSchema.$ref] }]: the
    registry is a plain object, so that a reference that is the name of
    a member of [Object.prototype] is not [undefined] and the navigation
    goes on with that member. *)
Definition resolve (subSchema : Schema) (refs : Refs) : outcome Schema :=
  match ref_ subSchema with
  | Some r =>
      if truthy r then
        match refs !! r with
        | None =>
            if inherited r then Ret inheritedMember
            else
              Throw (InternalError
                       ("Internal error: schema reference " +:+ r +:+ " undefined"))
        | Some target => Ret target
        end
      else Ret subSchema
  | None => Ret subSchema
  end.

(** [branches.map((ss) => inner(ss, index))]: the branches are visited
    left to right and share the registry; the first exception ends the
    whole map. *)
Fixpoint mapBranches (visit : Refs -> Schema -> outcome Found)
    (refs : Refs) (branches : list Schema)
  : outcome (list (list (Nested Schema)) * Refs) :=
  match branches with
  | [] => Ret ([], refs)
  | ss :: rest =>
      found <- visit refs ss ;;;
      let '(r, refs1) := found in
      others <- mapBranches visit refs1 rest ;;;
      let '(rs, refs2) := others in
      Ret (r :: rs, refs2)
  end.

Section Navigate.

(** [core.schemaType] is the library's classifier of a schema node. *)
Variable schemaType : Schema -> string.

(** The path of the enclosing [navigateSchema] call. *)
Variable path : list JsVal.

(** [path[index]] used as a property key ([undefined] reads as the key
    "undefined"). *)
Definition keyAt (index : nat) : string :=
  match path !! index with
  | Some k => toString k
  | None => "undefined"
  end.

Definition ownPropertyNames (props : gmap string Schema) : list string :=
  (map_to_list props).*1.

(** The closure [inner(subSchema, index)].  [subSchema.properties] is a
    plain object: a key that is no own property of it but the name of a
    member of [Object.prototype] is not [undefined], and the navigation
    goes on into that member. *)
Fixpoint inner (fuel : nat) (refs : Refs) (subSchema : Schema) (index : nat)
  : outcome Found :=
  match fuel with
  | O => Diverge
  | S fuel =>
    let refs := register subSchema refs in
    subSchema <- resolve subSchema refs ;;;
    if Nat.eqb index (length path) then Ret ([NLeaf subSchema], refs)
    else
      let st := schemaType subSchema in
      if String.eqb st "object" then
        let key := keyAt index in
        match properties subSchema with
        | None => Throw TypeError
        | Some props =>
            match props !! key with
            | None =>
                if inherited key
                then inner fuel refs inheritedMember (index + 1)
                else if negb (Z.of_nat index =? Z.of_nat (length path) - 1)
                then Ret ([], refs)
                else
                  let completions2 :=
                    List.filter (fun name => startsWith name key)
                                (ownPropertyNames props) in
                  if Nat.eqb (length completions2) 0 then Ret ([], refs)
                  else Ret ([NLeaf subSchema], refs)
            | Some sub => inner fuel refs sub (index + 1)
            end
        end
      else if String.eqb st "array" then
        match items subSchema with
        | None => Ret ([], refs)
        | Some it => inner fuel refs it (index + 1)
        end
      else if String.eqb st "anyOf" then
        match anyOf subSchema with
        | None => Throw TypeError
        | Some branches =>
            mapped <-
               mapBranches (fun r ss => inner fuel r ss index) refs branches ;;;
            let '(rs, refs1) := mapped in
            Ret (map NArr rs, refs1)
        end
      else if String.eqb st "allOf" then
        Throw (InternalError
                 "Internal error: don't know how to navigate allOf schema :(")
      else if String.eqb st "oneOf" then
        match oneOf subSchema with
        | None => Throw TypeError
        | Some branches =>
            mapped <-
               mapBranches (fun r ss => inner fuel r ss index) refs branches ;;;
            let '(rs, refs1) := mapped in
            let result := flatInf (map NArr rs) in
            if negb (Nat.eqb (length result) 1) then Ret ([], refs1)
            else Ret (map NLeaf result, refs1)
        end
      else Ret ([], refs)
  end.

(** [return inner(schema, 0).flat(Infinity)], from an empty registry. *)
Definition navigateSchema (fuel : nat) (schema : Schema)
  : outcome (list Schema) :=
  found <- inner fuel ∅ schema 0 ;;;
  Ret (flatInf found.1).

End Navigate.

(** Modelled from the spec: [core.schemaType] is not part of the bundle;
    the data model gives a schema node "a type discriminant: object,
    array, anyOf/oneOf/allOf".  The classifier below reads the [type]
    field when present and otherwise names the combinator field that is
    present; it is used for the concrete examples only. *)
Definition schemaTypeOf (s : Schema) : string :=
  match type_ s with
  | Some t => t
  | None =>
      if bool_decide (is_Some (anyOf s)) then "anyOf"
      else if bool_decide (is_Some (oneOf s)) then "oneOf"
      else if bool_decide (is_Some (allOf s)) then "allOf"
      else "any"
  end.

(** Builders for the examples. *)
Definition typed (t : string) : Schema :=
  MkSchema None None (Some t) None None None None None.
Definition objectOf (props : list (string * Schema)) : Schema :=
  MkSchema None None (Some "object") (Some (list_to_map props))
           None None None None.
Definition arrayOf (it : Schema) : Schema :=
  MkSchema None None (Some "array") None (Some it) None None None.
Definition anyOfSchema (l : list Schema) : Schema :=
  MkSchema None None None None None (Some l) None None.
Definition oneOfSchema (l : list Schema) : Schema :=
  MkSchema None None None None None None (Some l) None.
Definition allOfSchema (l : list Schema) : Schema :=
  MkSchema None None None None None None None (Some l).
Definition refTo (r : string) : Schema :=
  MkSchema None (Some r) None None None None None None.
Definition withId (i : string) (s : Schema) : Schema :=
  MkSchema (Some i) (ref_ s) (type_ s) (properties s) (items s)
           (anyOf s) (oneOf s) (allOf s).

End SchemaNav.

Import SchemaNav.

(** ** Cursor location in the annotated tree ([locateCursor]) *)

Module Locate.

(** An annotated node: source range, parsed value, node kind and the
    annotated children (for a mapping: key, value, key, value, ...). *)
Unset Elimination Schemes.
Inductive Annotated : Type := MkAnnotated {
  start : Z;
  end_ : Z;
  result : JsVal;
  kind : string;
  components : list Annotated;
}.
Set Elimination Schemes.

Definition isMappingKind (k : string) : bool :=
  String.eqb k "block_mapping" || String.eqb k "flow_mapping".

Definition isSequenceKind (k : string) : bool :=
  String.eqb k "block_sequence" || String.eqb k "flow_sequence".

(** [c.start <= position && position <= c.end]. *)
Definition covers (c : Annotated) (position : Z) : bool :=
  (start c <=? position) && (position <=? end_ c).

Definition outsideBounds : Exn :=
  InternalError "Internal error: cursor outside bounds in sequence locate?".

Section LocateAt.

Variable position : Z.

(** The closure [locate(node, pathSoFar)].  The path is built leaf
    first as the nested array [[element, pathSoFar]]; the flag
    [failedLast] of the enclosing call is passed in and returned. *)
Fixpoint locate (node : Annotated) (pathSoFar : list JsVal) (failedLast : bool)
  : outcome (list JsVal * bool) :=
  match node with
  | MkAnnotated _ _ nodeResult nodeKind nodeComponents =>
    if isMappingKind nodeKind then
      (fix pairs (cs : list Annotated) : outcome (list JsVal * bool) :=
         match cs with
         | [] => Ret (pathSoFar, true)
         | keyC :: afterKey =>
             if covers keyC position
             then Ret ([result keyC; JArr pathSoFar], failedLast)
             else
               match afterKey with
               | [] => Throw TypeError
               | valueC :: rest =>
                   if covers valueC position
                   then locate valueC [result keyC; JArr pathSoFar] failedLast
                   else pairs rest
               end
         end) nodeComponents
    else if isSequenceKind nodeKind then
      (fix items (cs : list Annotated) (i : Z) : outcome (list JsVal * bool) :=
         match cs with
         | [] => Throw outsideBounds
         | valueC :: rest =>
             if covers valueC position
             then locate valueC [JNum i; JArr pathSoFar] failedLast
             else if start valueC >? position
             then
               if i =? 0 then Ret (pathSoFar, failedLast)
               else Ret ([JNum (i - 1); JArr pathSoFar], failedLast)
             else items rest (i + 1)
         end) nodeComponents 0
    else
      if negb (String.eqb nodeKind "<<EMPTY>>")
      then Ret ([nodeResult; JArr pathSoFar], failedLast)
      else Ret (pathSoFar, failedLast)
  end.

(** An item that neither contains the offset nor starts after it. *)
Definition liesBefore (c : Annotated) : Prop :=
  covers c position = false /\ start c <= position.

(** The loop of the sequence case, from item [i] on. *)
Fixpoint locateItems (cs : list Annotated) (i : Z) (pathSoFar : list JsVal)
    (failedLast : bool) : outcome (list JsVal * bool) :=
  match cs with
  | [] => Throw outsideBounds
  | valueC :: rest =>
      if covers valueC position
      then locate valueC [JNum i; JArr pathSoFar] failedLast
      else if start valueC >? position
      then
        if i =? 0 then Ret (pathSoFar, failedLast)
        else Ret ([JNum (i - 1); JArr pathSoFar], failedLast)
      else locateItems rest (i + 1) pathSoFar failedLast
  end.

End LocateAt.

Record Located : Type := MkLocated {
  withError : bool;
  value : list JsVal;
}.

(** [locateCursor(annotation, position)]: the flattened path, reversed
    to read root first. *)
Definition locateCursor (annotation : Annotated) (position : Z) : outcome Located :=
  found <- locate position annotation [] false ;;;
  let '(nested, failedLast) := found in
  Ret {| withError := failedLast; value := rev (flatInfinity nested) |}.

(** Builders for the examples. *)
Definition scalar (s e : Z) (v : JsVal) : Annotated :=
  MkAnnotated s e v "plain_scalar" [].
Definition sequence (s e : Z) (cs : list Annotated) : Annotated :=
  MkAnnotated s e (JArr (map result cs)) "block_sequence" cs.
Definition mapping (s e : Z) (cs : list Annotated) : Annotated :=
  MkAnnotated s e (JObj []) "block_mapping" cs.

End Locate.

Import Locate.

(** ** Strings, lines and position-mapped text *)

Module Text.

Definition strlen (s : string) : Z := Z.of_nat (String.length s).

(** [String.prototype.substring(a, b)]: both bounds are clamped to the
    string and swapped when out of order. *)
Definition clampIndex (s : string) (i : Z) : nat :=
  Z.to_nat (Z.min (Z.max i 0) (strlen s)).

Definition substring (s : string) (a b : Z) : string :=
  let a' := clampIndex s a in
  let b' := clampIndex s b in
  String.substring (Nat.min a' b') (Nat.max a' b' - Nat.min a' b') s.

Definition newline : ascii := "010"%char.

(** Modelled from the spec: [core.lines] and [core.rangedLines] are not
    part of the bundle.  The spec speaks of "the untouched lines before
    and after the cursor's line"; a line ends at a line feed, the
    separator the reparse search itself splices in. *)
Fixpoint lines (s : string) : list string :=
  match s with
  | EmptyString => [""]
  | String c rest =>
      if Ascii.eqb c newline then "" :: lines rest
      else
        match lines rest with
        | l :: ls => String c l :: ls
        | [] => [String c ""]
        end
  end.

Definition LF : string := String newline EmptyString.

Definition joinLines (ls : list string) : string := joinWith LF ls.

(** A string without line feed. *)
Fixpoint lineFree (s : string) : bool :=
  match s with
  | EmptyString => true
  | String c rest => negb (Ascii.eqb c newline) && lineFree rest
  end.

(** Two texts have the same lines except possibly line [row]. *)
Definition sameOutsideLine (a b : string) (row : Z) : Prop :=
  length (lines a) = length (lines b) /\
  forall i : nat, Z.of_nat i <> row -> lines a !! i = lines b !! i.

Fixpoint concatStrings (l : list string) : string :=
  match l with
  | [] => ""
  | x :: rest => x +:+ concatStrings rest
  end.

End Text.

Module Ranged.

Record Range : Type := MkRange { start : Z; end_ : Z }.

Record RangedSubstring : Type := MkRanged { substring : string; range : Range }.

Fixpoint rangesFrom (offset : Z) (ls : list string) : list RangedSubstring :=
  match ls with
  | [] => []
  | l :: rest =>
      MkRanged l (MkRange offset (offset + Text.strlen l))
      :: rangesFrom (offset + Text.strlen l + 1) rest
  end.

(** Offset at which line [i] of [ls] starts. *)
Fixpoint lead (ls : list string) (i : nat) : Z :=
  match i, ls with
  | S i, l :: rest => Text.strlen l + 1 + lead rest i
  | _, _ => 0
  end.

(** Modelled from the spec: [core.rangedLines(text)], each line with the
    half-open range of offsets it occupies in [text]. *)
Definition rangedLines (text : string) : list RangedSubstring :=
  rangesFrom 0 (Text.lines text).

End Ranged.

Module MappedText.

(** A fragment handed to [mappedString], as the call sites write it: a
    literal string, an object [{start, end}], or an object [{begin, end}]
    (the spelling of the fence-stripping calls). *)
Inductive Chunk : Type :=
  | Literal (s : string)
  | StartEnd (start end_ : Z)
  | BeginEnd (begin end_ : Z).

(** Modelled from the spec: the mapped-text library is not part of the
    bundle.  A position-mapped text is "built by concatenating fragments,
    each either a literal string or a [start,end) range into a parent
    mapped text"; it is kept as that construction, from which both its
    [value] and its offset mapping follow. *)
Inductive MappedString : Type :=
  | Original (s : string)
  | Pieces (source : MappedString) (chunks : list Chunk).

(** The text a fragment contributes.  The library reads the fields
    [start] and [end] of a range; an object that has no [start] gives
    [substring(undefined, end)], which starts at 0. *)
Definition chunkValue (source : string) (c : Chunk) : string :=
  match c with
  | Literal s => s
  | StartEnd a b => Text.substring source a b
  | BeginEnd _ b => Text.substring source 0 b
  end.

Fixpoint value (m : MappedString) : string :=
  match m with
  | Original s => s
  | Pieces source chunks =>
      Text.concatStrings (map (chunkValue (value source)) chunks)
  end.

Definition asMappedString (s : string) : MappedString := Original s.
Definition mappedString (source : MappedString) (chunks : list Chunk)
  : MappedString := Pieces source chunks.

(** A [code] argument: a plain string or a mapped string. *)
Inductive Code : Type :=
  | Plain (s : string)
  | Mapped (m : MappedString).

End MappedText.

(** ** Reparse search ([attemptParsesAtLine], parsing.js) *)

Module Reparse.

Import MappedText.

Record Position : Type := MkPosition { row : Z; column : Z }.

(** [array[i]] for a number [i]: [undefined] outside the array. *)
Definition at_ {A : Type} (l : list A) (i : Z) : option A :=
  if i <? 0 then None else l !! Z.to_nat i.

(** How the generator ends once it is run to completion. *)
Inductive Ending : Type :=
  | Done
  | Raised (e : Exn).

Section WithParser.

(** The tree-sitter parser is a black box: [parser.parse(text)] returns
    a tree, of which the search reads [rootNode.type]. *)
Variable Tree : Type.
Variable parse : string -> Tree.
Variable rootType : Tree -> string.

(** A yielded triple [{parse, code, deletions}]. *)
Record Candidate : Type := MkCandidate {
  tree : Tree;
  code : MappedString;
  deletions : Z;
}.

Definition clean (c : Candidate) : bool :=
  negb (String.eqb (rootType (tree c)) "ERROR").

(** A complete run: every parse attempt in order (each with the text
    parsed and the deletion count it would be yielded with), and the
    way the run ends.  The candidates yielded are the clean attempts. *)
Record Run : Type := MkRun {
  attempts : list Candidate;
  ending : Ending;
}.

Definition yielded (r : Run) : list Candidate := List.filter clean (attempts r).

(** The chunks of one iteration of the loop; [None] stands for the
    [TypeError] of reading [.range] of a line that does not exist. *)
Definition spliceChunks (codeLines : list Ranged.RangedSubstring)
    (position : Position) (currentLine : string) (currentColumn : Z)
  : option (list Chunk) :=
  before ←
    (if row position >? 0 then
       prev ← at_ codeLines (row position - 1);
       Some [StartEnd 0 (Ranged.end_ (Ranged.range prev)); Literal Text.LF]
     else Some []);
  after ←
    (if row position + 1 <? Z.of_nat (length codeLines) then
       next ← at_ codeLines (row position + 1);
       last ← at_ codeLines (Z.of_nat (length codeLines) - 1);
       Some [Literal Text.LF;
             StartEnd (Ranged.start (Ranged.range next))
                      (Ranged.end_ (Ranged.range last))]
     else Some []);
  Some (before ++ [Literal (Text.substring currentLine 0 currentColumn)] ++ after).

(** [while (currentColumn > 0) { currentColumn--; deletions++; ... }].
    The recursion is on [budget]; the caller passes the column, which is
    the number of iterations the loop makes, so the loop never stops for
    want of budget. *)
Fixpoint shrink (budget : nat) (code : MappedString)
    (codeLines : list Ranged.RangedSubstring) (position : Position)
    (currentLine : string) (currentColumn deletions : Z) : Run :=
  match budget with
  | O => MkRun [] Done
  | S budget =>
      if currentColumn >? 0 then
        let currentColumn := currentColumn - 1 in
        let deletions := deletions + 1 in
        match spliceChunks codeLines position currentLine currentColumn with
        | Some chunks =>
            let newCode := mappedString code chunks in
            let tree2 := parse (value newCode) in
            let rest := shrink budget code codeLines position currentLine
                               currentColumn deletions in
            MkRun (MkCandidate tree2 newCode deletions :: attempts rest)
                  (ending rest)
        | None => MkRun [] (Raised TypeError)
        end
      else MkRun [] Done
  end.

(** The attempt of the [k]-th iteration of a loop entered at column
    [currentColumn] with [deletions] characters already deleted. *)
Definition attemptAt (code : MappedString)
    (codeLines : list Ranged.RangedSubstring) (position : Position)
    (currentLine : string) (currentColumn deletions k : Z) : Candidate :=
  let chunks :=
    default [] (spliceChunks codeLines position currentLine (currentColumn - k)) in
  let newCode := mappedString code chunks in
  MkCandidate (parse (value newCode)) newCode (deletions + k).

(** The text of the candidate with [k] deletions: the lines of the
    original with the cursor's line cut at column [column - k]. *)
Definition truncatedText (original : string) (position : Position) (k : Z)
  : string :=
  let ls := Text.lines original in
  let r := Z.to_nat (row position) in
  match at_ ls (row position) with
  | Some line =>
      Text.joinLines
        (<[r := Text.substring line 0 (column position - k)]> ls)
  | None => original
  end.

Definition asMapped (code : Code) : MappedString :=
  match code with
  | Plain s => asMappedString s
  | Mapped m => m
  end.

Definition attemptParsesAtLine (code : Code) (position : Position) : Run :=
  let code := asMapped code in
  let first := MkCandidate (parse (value code)) code 0 in
  let codeLines := Ranged.rangedLines (value code) in
  match at_ codeLines (row position) with
  | None => MkRun [first] (Raised TypeError)
  | Some current =>
      let currentLine := Ranged.substring current in
      let rest := shrink (Z.to_nat (column position)) code codeLines position
                         currentLine (column position) 0 in
      MkRun (first :: attempts rest) (ending rest)
  end.

End WithParser.

Arguments tree {Tree} c.
Arguments code {Tree} c.
Arguments deletions {Tree} c.
Arguments MkCandidate {Tree} tree code deletions.
Arguments attempts {Tree} r.
Arguments ending {Tree} r.

End Reparse.

Import Reparse.

(** ** More string helpers *)

Module Str.

(** White space in the sense of [String.prototype.trim], among the code
    units below 256. *)
Definition isWhite (c : ascii) : bool :=
  match Ascii.nat_of_ascii c with
  | 9%nat | 10%nat | 11%nat | 12%nat | 13%nat | 32%nat | 160%nat => true
  | _ => false
  end.

Fixpoint trimStart (s : string) : string :=
  match s with
  | EmptyString => EmptyString
  | String c rest => if isWhite c then trimStart rest else s
  end.

Definition trimEnd (s : string) : string := String.rev (trimStart (String.rev s)).

Definition trim (s : string) : string := trimEnd (trimStart s).

Definition endsWith (s suffix : string) : bool :=
  String.prefix (String.rev suffix) (String.rev s).

(** [s.slice(-1)]: the last code unit, or the empty string. *)
Definition lastChar (s : string) : string :=
  match String.rev s with
  | EmptyString => EmptyString
  | String c _ => String c EmptyString
  end.

(** [s.split(c)[0]]: the text before the first [c]. *)
Fixpoint beforeFirst (c : ascii) (s : string) : string :=
  match s with
  | EmptyString => EmptyString
  | String x rest => if Ascii.eqb x c then EmptyString else String x (beforeFirst c rest)
  end.

(** [s.split(c).slice(-1)[0]]: the text after the last [c]. *)
Definition afterLast (c : ascii) (s : string) : string :=
  String.rev (beforeFirst c (String.rev s)).

(** [s.indexOf(c) !== -1]. *)
Fixpoint contains (c : ascii) (s : string) : bool :=
  match s with
  | EmptyString => false
  | String x rest => Ascii.eqb x c || contains c rest
  end.

(** [" ".repeat(n)] for [n >= 0]. *)
Fixpoint spaces (n : nat) : string :=
  match n with
  | O => EmptyString
  | S n => String " "%char (spaces n)
  end.

End Str.

(** ** Completion generator ([completions], automation.js) *)

Module Completion.

(** A completion item as [core.schemaCompletions] produces it. *)
Record Item : Type := MkItem {
  value : string;
  type : string;
  schema : Schema;
  suggest_on_accept : bool;
}.

(** The object resolved by [completionsPromise]. *)
Module Resolved.
Record t : Type := Mk {
  token : string;
  completions : list Item;
  cacheable : bool;
}.
End Resolved.

Definition withValue (c : Item) (v : string) : Item :=
  MkItem v (type c) (schema c) (suggest_on_accept c).

Section Generator.

(** The library's classifier, its answer on [undefined] (an exception
    or a string), and the library's candidate list for a schema. *)
Variable schemaType : Schema -> string.
Variable schemaTypeOfUndefined : outcome string.
Variable schemaCompletions : Schema -> list Item.

(** [a.value.localeCompare(b.value)], the runtime's collation. *)
Variable localeCompare : string -> string -> Z.

(** [" ".repeat(indent + 2)] raises a [RangeError] on a negative count. *)
Definition indentation (indent : Z) : outcome string :=
  if indent + 2 <? 0 then Throw RangeError
  else Ret (Str.spaces (Z.to_nat (indent + 2))).

(** The rewrite applied to each raw candidate. *)
Definition expand (commentPrefix : string) (indent : Z) (completion : Item)
  : outcome Item :=
  if negb (suggest_on_accept completion)
     || String.eqb (type completion) "value"
     || negb (String.eqb (schemaType (schema completion)) "object")
  then Ret completion
  else
    let key := Str.beforeFirst ":"%char (value completion) in
    match properties (schema completion) with
    | None => Throw TypeError
    | Some props =>
        (* [schemaType(subSchema)] is read twice; it is a pure call *)
        st <- match props !! key with
              | Some subSchema => Ret (schemaType subSchema)
              | None => schemaTypeOfUndefined
              end ;;;
        if String.eqb st "object" then
          pad <- indentation indent ;;;
          Ret (withValue completion
                 (value completion +:+ Text.LF +:+ commentPrefix +:+ pad))
        else if String.eqb st "array" then
          pad <- indentation indent ;;;
          Ret (withValue completion
                 (value completion +:+ Text.LF +:+ commentPrefix +:+ pad +:+ "- "))
        else Ret completion
    end.

(** [list.map(f)] for an [f] that may throw. *)
Fixpoint mapM {A B : Type} (f : A -> outcome B) (l : list A) : outcome (list B) :=
  match l with
  | [] => Ret []
  | a :: rest =>
      b <- f a ;;;
      bs <- mapM f rest ;;;
      Ret (b :: bs)
  end.

(** The candidates of all matching schemas, rewritten and flattened
    one level. *)
Definition candidates (commentPrefix : string) (indent : Z)
    (matchingSchemas : list Schema) : outcome (list Item) :=
  perSchema <-
    mapM (fun schema2 => mapM (expand commentPrefix indent)
                              (schemaCompletions schema2))
         matchingSchemas ;;;
  Ret (concat perSchema).

(** [Array.prototype.sort] is a stable sort; with a consistent
    comparator its result is the one of this insertion sort. *)
Fixpoint insertBy (x : Item) (l : list Item) : list Item :=
  match l with
  | [] => [x]
  | y :: rest =>
      if localeCompare (value x) (value y) <=? 0 then x :: y :: rest
      else y :: insertBy x rest
  end.

(** [a] sorts no later than [b]. *)
Definition before (a b : Item) : Prop :=
  localeCompare (value a) (value b) <= 0.

Fixpoint sortByValue (l : list Item) : list Item :=
  match l with
  | [] => []
  | x :: rest => insertBy x (sortByValue rest)
  end.

Definition completionsPromise (completions2 : list Item) (word : string)
  : Resolved.t :=
  Resolved.Mk word (sortByValue completions2) true.

(** [navigateSchema(schema, path)] when [path] may be [undefined]: the
    root is registered and resolved before [path.length] is read. *)
Definition navigate (fuel : nat) (schema : Schema) (path : option (list JsVal))
  : outcome (list Schema) :=
  match path with
  | Some p => navigateSchema schemaType p fuel schema
  | None =>
      match fuel with
      | O => Diverge
      | S _ =>
          _ <- resolve schema (register schema ∅) ;;;
          Throw TypeError
      end
  end.

(** [completions(obj)]; [None] is the promise resolved with [null]. *)
Definition completions (fuel : nat) (schema : Schema)
    (path : option (list JsVal)) (word : string) (indent : Z)
    (commentPrefix : string) : outcome (option Resolved.t) :=
  matchingSchemas <- navigate fuel schema path ;;;
  expanded <- candidates commentPrefix indent matchingSchemas ;;;
  let completions2 :=
    List.filter (fun c => startsWith (value c) word) expanded in
  if Nat.eqb (length completions2) 0 then Ret None
  else Ret (Some (completionsPromise completions2 word)).

End Generator.

End Completion.

(** Stand-ins for the library and the runtime in the examples: the
    comparison of two strings by code units, and a candidate list that
    offers each property name of an object schema as a key. *)
Module Demo.

Definition codeUnitCompare (a b : string) : Z :=
  match String.compare a b with
  | Lt => -1
  | Eq => 0
  | Gt => 1
  end.

Definition keyItem (s : Schema) (name : string) : Completion.Item :=
  Completion.MkItem name "key" s false.

Definition sizes : Schema :=
  objectOf [("width", typed "number"); ("weight", typed "number");
            ("height", typed "number")].

(** The candidates of [sizes], in the order of the spec's example. *)
Definition sizeCompletions (s : Schema) : list Completion.Item :=
  [keyItem s "width"; keyItem s "weight"; keyItem s "height"].

End Demo.

(** A stand-in for the parser in the examples: the tree is the text
    itself, and its root is an ERROR node exactly when the text holds a
    reserved indicator ([@]) or an opening bracket. *)
Module DemoParser.

Definition parse (text : string) : string := text.

Definition rootType (tree : string) : string :=
  if Str.contains "@"%char tree || Str.contains "["%char tree
  then "ERROR" else "stream".

End DemoParser.

(** ** Indentation fallback ([getYamlIndentTree], [locateFromIndentation]) *)

Module Indent.

Import Reparse.

(** [l.length - l.trimStart().length]. *)
Definition getIndent (l : string) : Z :=
  Text.strlen l - Text.strlen (Str.trimStart l).

Definition isBlank (l : string) : bool :=
  Text.strlen (Str.trim l) =? 0.

(** The two arrays built by [getYamlIndentTree]; an entry of
    [predecessor] is [None] when the source stored [undefined]. *)
Record IndentTree : Type := MkIndentTree {
  predecessor : list (option Z);
  indentation : list Z;
}.

(** [predecessor[v]] for a number [v]. *)
Definition readPredecessor (predecessor : list (option Z)) (v : Z) : option Z :=
  match at_ predecessor v with
  | Some p => p
  | None => None
  end.

(** [while (v >= 0 && indents[v] >= lineIndent) v = predecessor[v]];
    [None] for [v] is [undefined], and the outer [None] an exhausted
    budget. *)
Fixpoint climb (budget : nat) (predecessor : list (option Z)) (indents : list Z)
    (lineIndent : Z) (v : option Z) : option (option Z) :=
  match v with
  | None => Some None
  | Some n =>
      if (n >=? 0)
         && match at_ indents n with
            | Some ind => ind >=? lineIndent
            | None => false
            end
      then
        match budget with
        | O => None
        | S budget =>
            climb budget predecessor indents lineIndent
                  (readPredecessor predecessor n)
        end
      else Some v
  end.

(** The state of the [for] loop of [getYamlIndentTree]. *)
Record Scan : Type := MkScan {
  scanPredecessor : list (option Z);
  scanIndents : list Z;
  scanIndentation : Z;
  scanPrevPredecessor : Z;
}.

(** One iteration, for line [i]. *)
Definition scanLine (st : Scan) (i : Z) (line : string) : option Scan :=
  let lineIndent := getIndent line in
  let indents := scanIndents st ++ [lineIndent] in
  let predecessor := scanPredecessor st in
  let prevPredecessor := scanPrevPredecessor st in
  if isBlank line then
    Some (MkScan (predecessor ++ [readPredecessor predecessor prevPredecessor])
                 indents (scanIndentation st) prevPredecessor)
  else if lineIndent =? scanIndentation st then
    Some (MkScan (predecessor ++ [readPredecessor predecessor prevPredecessor])
                 indents (scanIndentation st) i)
  else if lineIndent <? scanIndentation st then
    v ← climb (length predecessor + 1) predecessor indents lineIndent
              (Some prevPredecessor);
    Some (MkScan (predecessor ++ [v]) indents lineIndent i)
  else
    Some (MkScan (predecessor ++ [Some prevPredecessor]) indents lineIndent i).

Fixpoint scanLines (st : Scan) (i : Z) (ls : list string) : option Scan :=
  match ls with
  | [] => Some st
  | line :: rest =>
      st' ← scanLine st i line;
      scanLines st' (i + 1) rest
  end.

(** [getYamlIndentTree(code)]; [Diverge] only if a budget ran out. *)
Definition getYamlIndentTree (code : string) : outcome IndentTree :=
  match scanLines (MkScan [] [] (-1) (-1)) 0 (Text.lines code) with
  | Some st => Ret (MkIndentTree (scanPredecessor st) (scanIndents st))
  | None => Diverge
  end.

(** [prev = lineNo; while (prev >= 0 && blank(lines[prev])) prev--]. *)
Fixpoint scanBack (lines : list string) (prev : nat) : Z :=
  match lines !! prev with
  | Some l =>
      if isBlank l then
        match prev with
        | O => -1
        | S before => scanBack lines before
        end
      else Z.of_nat prev
  | None => Z.of_nat prev
  end.

(** The path element pushed for a line, or the verdict that the line
    has no recognised shape. *)
Inductive Shape : Type :=
  | Push (element : JsVal)
  | Skip
  | Unrecognised.

Definition shapeOf (trimmed : string) : Shape :=
  if startsWith trimmed "-" then Push (JNum 0)
  else if Str.endsWith trimmed ":"
  then Push (JStr (Text.substring trimmed 0 (Text.strlen trimmed - 1)))
  else if negb (Text.strlen trimmed =? 0) then Unrecognised
  else Skip.

(** The [while (lineNo !== -1)] loop of [locateFromIndentation]; the
    result [None] is the source's [return void 0]. *)
Fixpoint walk (budget : nat) (lines : list string) (tree : IndentTree)
    (lineIndent : Z) (lineNo : option Z) (path : list JsVal)
  : outcome (option (list JsVal)) :=
  match lineNo with
  | Some (-1) => Ret (Some (rev path))
  | None => Throw TypeError
  | Some n =>
      match at_ lines n with
      | None => Throw TypeError
      | Some l =>
          match budget with
          | O => Diverge
          | S budget =>
              let trimmed := Str.trim l in
              let visit :=
                let next := readPredecessor (predecessor tree) n in
                if match at_ (indentation tree) n with
                   | Some ind => lineIndent >=? ind
                   | None => false
                   end
                then
                  match shapeOf trimmed with
                  | Push element =>
                      walk budget lines tree lineIndent next (path ++ [element])
                  | Skip => walk budget lines tree lineIndent next path
                  | Unrecognised => Ret None
                  end
                else walk budget lines tree lineIndent next path in
              if Text.strlen trimmed =? 0 then
                let prev := scanBack lines (Z.to_nat n) in
                if prev =? -1 then Ret (Some (rev path))
                else
                  match at_ lines prev with
                  | None => Throw TypeError
                  | Some p =>
                      if getIndent p <? lineIndent
                      then walk budget lines tree lineIndent (Some prev) path
                      else visit
                  end
              else visit
          end
      end
  end.

(** Every entry of [predecessor] that is a number is below its index. *)
Definition decreasing (predecessor : list (option Z)) : Prop :=
  forall (j : nat) (v : Z), predecessor !! j = Some (Some v) -> v < Z.of_nat j.

(** The state of the scan before line [i]. *)
Definition scanned (st : Scan) (i : nat) : Prop :=
  decreasing (scanPredecessor st) /\
  length (scanPredecessor st) = i /\
  scanPrevPredecessor st < Z.of_nat i.

(** [locateFromIndentation({line, code, position})], [code] being the
    text whether it came as a string or as a mapped string. *)
Definition locateFromIndentation (line : string) (code : string)
    (position : Position) : outcome (option (list JsVal)) :=
  tree <- getYamlIndentTree code ;;;
  let lines := Text.lines code in
  walk (length lines + 1) lines tree (getIndent line) (Some (row position)) [].

End Indent.

(** ** The YAML entry points ([automationFromGoodParseYAML],
       [completionsFromGoodParseYAML], automation.js) *)

Module Yaml.

Import MappedText Reparse Completion.

(** The request context. *)
Record Context : Type := MkContext {
  line : string;
  code : Code;
  position : Position;
  schema : Schema;
  commentPrefix : option string;
}.

(** What the entry point resolves to: [false], [null], or the object
    built by the completion generator. *)
Inductive Answer : Type :=
  | AFalse
  | ANull
  | ACompletions (r : Resolved.t).

(** Modelled from the spec: [core.mappedLines(code)] is not part of the
    bundle; only its length is read, the number of lines of the text. *)
Definition mappedLines (code : MappedString) : list string :=
  Text.lines (MappedText.value code).

(** The front-matter fence handling that opens both entry points.
    [completing] is [kind === "completions"], which
    [automationFromGoodParseYAML] requires before it gives up on a fence
    row.  The result [None] is the source's [return false]. *)
Definition stripLeading (completing : bool) (code : MappedString)
    (position : Position) : option MappedString :=
  if startsWith (MappedText.value code) "---" then
    if completing && (row position =? 0) then None
    else Some (mappedString code [BeginEnd 0 3])
  else Some code.

Definition stripTrailing (completing : bool) (code : MappedString)
    (position : Position) : option MappedString :=
  if Str.endsWith (MappedText.value code) "---" then
    let codeLines := mappedLines code in
    if completing && (row position =? Z.of_nat (length codeLines) - 1) then None
    else Some (mappedString code
                 [BeginEnd 0 (Text.strlen (MappedText.value code) - 3)])
  else Some code.

(** A [code] that is not a mapped string has no [value] to read. *)
Definition stripFences (completing : bool) (code : Code) (position : Position)
  : outcome (option MappedString) :=
  match code with
  | Plain _ => Throw TypeError
  | Mapped m =>
      Ret (m1 ← stripLeading completing m position;
           stripTrailing completing m1 position)
  end.

(** The in-progress word. *)
Definition wordOf (line : string) : string :=
  let last := Str.lastChar line in
  if String.eqb last "-" || String.eqb last ":" then ""
  else Str.afterLast " "%char line.

Definition keepType (t : string) (r : Resolved.t) : Resolved.t :=
  Resolved.Mk (Resolved.token r)
    (List.filter (fun completion => String.eqb (type completion) t)
                 (Resolved.completions r))
    (Resolved.cacheable r).

(** [rawCompletions.completions = rawCompletions.completions.filter(...)]
    on what [completions] resolved to; [null] has no such property. *)
Definition filterType (t : string) (rawCompletions : option Resolved.t)
  : outcome Answer :=
  match rawCompletions with
  | None => Throw TypeError
  | Some r => Ret (ACompletions (keepType t r))
  end.

Section EntryPoints.

(** The parser, the annotated-tree builder applied to its trees
    ([None] is the builder's [null]), and the library's offset of a
    position, are taken as given. *)
Variable Tree : Type.
Variable parse : string -> Tree.
Variable rootType : Tree -> string.
Variable buildAnnotated : Tree -> MappedString -> outcome (option Annotated).
Variable rowColToIndex : string -> Position -> Z.

Variable schemaType : Schema -> string.
Variable schemaTypeOfUndefined : outcome string.
Variable schemaCompletions : Schema -> list Item.
Variable localeCompare : string -> string -> Z.

(** Budget of the schema navigation. *)
Variable fuel : nat.

Definition complete (schema : Schema) (path : option (list JsVal))
    (word : string) (indent : Z) (commentPrefix : string)
  : outcome (option Resolved.t) :=
  completions schemaType schemaTypeOfUndefined schemaCompletions localeCompare
              fuel schema path word indent commentPrefix.

(** A candidate whose cut line is blank. *)
Definition blankAfter (line : string) (c : Candidate Tree) : bool :=
  Text.strlen (Str.trim (Text.substring line 0 (Text.strlen line - deletions c)))
  =? 0.

(** The body of the [for ... of attemptParsesAtLine(...)] loop for one
    candidate; [None] is the source's [continue]. *)
Definition tryCandidate (line : string) (position : Position) (schema : Schema)
    (commentPrefix word : string) (indent : Z) (c : Candidate Tree)
  : outcome (option Answer) :=
  let mappedCode := Reparse.code c in
  if blankAfter line c then
    path <- Indent.locateFromIndentation
              (Text.substring line 0 (deletions c)) (MappedText.value mappedCode)
              (MkPosition (row position) (column position - deletions c)) ;;;
    rawCompletions <- complete schema path word indent commentPrefix ;;;
    answer <- filterType "key" rawCompletions ;;;
    Ret (Some answer)
  else
    built <- buildAnnotated (tree c) mappedCode ;;;
    match built with
    | None => Throw TypeError
    | Some doc =>
        if negb (Locate.end_ doc =? Text.strlen (MappedText.value mappedCode)) then Ret None
        else
          let index :=
            rowColToIndex (MappedText.value mappedCode)
              (MkPosition (row position) (column position - deletions c)) in
          located <- locateCursor doc index ;;;
          let path :=
            if withError located
               && (column position >=? Text.strlen line)
               && Str.contains ":"%char line
            then Locate.value located
                   ++ [JStr (Str.beforeFirst ":"%char (Str.trim line))]
            else Locate.value located in
          rawCompletions <- complete schema (Some path) word indent commentPrefix ;;;
          if Str.contains ":"%char line then
            answer <- filterType "value" rawCompletions ;;;
            Ret (Some answer)
          else
            Ret (Some (match rawCompletions with
                       | None => ANull
                       | Some r => ACompletions r
                       end))
    end.

(** The loop over the candidates the generator yields, then its end. *)
Fixpoint tryCandidates (line : string) (position : Position) (schema : Schema)
    (commentPrefix word : string) (indent : Z)
    (cands : list (Candidate Tree)) (ending : Ending) : outcome Answer :=
  match cands with
  | [] =>
      match ending with
      | Done => Ret AFalse
      | Raised e => Throw e
      end
  | c :: rest =>
      tried <- tryCandidate line position schema commentPrefix word indent c ;;;
      match tried with
      | Some answer => Ret answer
      | None =>
          tryCandidates line position schema commentPrefix word indent rest ending
      end
  end.

Definition completionsFromGoodParseYAML (context : Context) : outcome Answer :=
  let commentPrefix := default "" (commentPrefix context) in
  stripped <- stripFences true (code context) (position context) ;;;
  match stripped with
  | None => Ret AFalse
  | Some code =>
      let line := line context in
      let word := wordOf line in
      if Text.strlen (Str.trim line) =? 0 then
        path <- Indent.locateFromIndentation line (MappedText.value code) (position context) ;;;
        let indent2 := Text.strlen line in
        rawCompletions <-
          complete (schema context) path word indent2 commentPrefix ;;;
        filterType "key" rawCompletions
      else
        let indent :=
          Text.strlen (Str.trimEnd line) - Text.strlen (Str.trim line) in
        let run := attemptParsesAtLine Tree parse (Mapped code) (position context) in
        tryCandidates line (position context) (schema context) commentPrefix
                      word indent (yielded Tree rootType run) (ending run)
  end.

(** [automationFromGoodParseYAML("completions", context)]: the fences
    are handled once here and once more in the function it calls. *)
Definition automationFromGoodParseYAML (context : Context) : outcome Answer :=
  stripped <- stripFences true (code context) (position context) ;;;
  match stripped with
  | None => Ret AFalse
  | Some code =>
      completionsFromGoodParseYAML
        (MkContext (line context) (Mapped code) (position context)
                   (schema context) (commentPrefix context))
  end.

End EntryPoints.

End Yaml.

(** Stand-ins for the examples of the entry points: every property name
    of an object schema offered as a key, each of its [enum]-like
    values left out; a builder that is never reached returns [null]. *)
Module DemoYaml.

Definition propertyCompletions (s : Schema) : list Completion.Item :=
  match properties s with
  | Some props => (fun kv => Demo.keyItem s (kv.1 +:+ ": ")) <$> map_to_list props
  | None => []
  end.

Definition noBuilder (tree : string) (code : MappedText.MappedString)
  : outcome (option Annotated) := Ret None.

Definition noIndex (text : string) (position : Reparse.Position) : Z := 0.

Definition completionsFromGoodParseYAML (context : Yaml.Context)
  : outcome Yaml.Answer :=
  Yaml.completionsFromGoodParseYAML string DemoParser.parse DemoParser.rootType
    noBuilder noIndex schemaTypeOf (Throw TypeError) propertyCompletions
    Demo.codeUnitCompare 10 context.

Definition nested : Schema :=
  objectOf [("a", objectOf [("b", typed "number"); ("c", typed "string")])].

End DemoYaml.

(** ** Validator cache and serialization queue ([getValidator],
       [withValidator], validator-queue.js)

    The runtime is single-threaded: a call runs until it returns or
    suspends at an [await].  The world below holds the two global
    dictionaries, and a schedule is a list of the atomic steps the
    event loop takes. *)

Module ValidatorQueue.

(** A call [withValidator(context, fun)]: its rank among all the calls,
    the schema name of its context, and how many times the body [fun]
    suspends after its first segment. *)
Record Request : Type := MkRequest {
  ticket : nat;
  schemaName : string;
  awaits : nat;
}.

(** What the log records; validators are told apart by a serial number
    given at construction. *)
Inductive Event : Type :=
  | Requested (r : Request)
  | Constructed (name : string) (validator : nat)
  | Ran (r : Request) (validator : nat)
  | Completed (r : Request).

(** Modelled from the spec: [core.PromiseQueue] is not part of the
    bundle.  The spec describes "a per-schema serialization queue" whose
    tasks are "executed strictly one-at-a-time, first-requested-first-run":
    the queue holds the task it is running, if any (with the validator
    it was given and the segments it has left), and the tasks waiting,
    oldest first. *)
Record PromiseQueue : Type := MkQueue {
  running : option (Request * nat * nat);
  pending : list Request;
}.

Definition emptyQueue : PromiseQueue := MkQueue None [].

(** The globals [yamlValidators] and [validatorQueues], the number of
    calls and of constructions so far, and the log, newest event first. *)
Record World : Type := MkWorld {
  yamlValidators : gmap string nat;
  validatorQueues : gmap string PromiseQueue;
  calls : nat;
  built : nat;
  log : list Event;
}.

Definition initial : World := MkWorld ∅ ∅ 0 0 [].

(** [getValidator(context)]: the cached validator of the schema name,
    constructed and cached on first use. *)
Definition getValidator (name : string) (w : World) : nat * World :=
  match yamlValidators w !! name with
  | Some validator => (validator, w)
  | None =>
      let validator := built w in
      (validator,
       MkWorld (<[name := validator]> (yamlValidators w)) (validatorQueues w)
               (calls w) (S (built w))
               (Constructed name validator :: log w))
  end.

(** The atomic steps: a call of [withValidator], which creates the queue
    of the name if need be and enqueues its task; a queue that is not
    running starts its oldest waiting task, which gets the validator and
    runs the first segment of its body; a running task runs its next
    segment, or completes and frees the queue. *)
Inductive Step : Type :=
  | Call (name : string) (awaits : nat)
  | Dequeue (name : string)
  | Resume (name : string).

Definition queueOf (name : string) (w : World) : PromiseQueue :=
  default emptyQueue (validatorQueues w !! name).

Definition step (s : Step) (w : World) : option World :=
  match s with
  | Call name n =>
      let r := MkRequest (calls w) name n in
      let queue := queueOf name w in
      Some (MkWorld (yamlValidators w)
              (<[name := MkQueue (running queue) (pending queue ++ [r])]>
                 (validatorQueues w))
              (S (calls w)) (built w) (Requested r :: log w))
  | Dequeue name =>
      queue ← validatorQueues w !! name;
      match running queue, pending queue with
      | None, r :: rest =>
          let '(validator, w1) := getValidator name w in
          Some (MkWorld (yamlValidators w1)
                  (<[name := MkQueue (Some (r, validator, awaits r)) rest]>
                     (validatorQueues w1))
                  (calls w1) (built w1) (Ran r validator :: log w1))
      | _, _ => None
      end
  | Resume name =>
      queue ← validatorQueues w !! name;
      match running queue with
      | Some (r, validator, S remaining) =>
          Some (MkWorld (yamlValidators w)
                  (<[name := MkQueue (Some (r, validator, remaining))
                                     (pending queue)]>
                     (validatorQueues w))
                  (calls w) (built w) (Ran r validator :: log w))
      | Some (r, _, O) =>
          Some (MkWorld (yamlValidators w)
                  (<[name := MkQueue None (pending queue)]> (validatorQueues w))
                  (calls w) (built w) (Completed r :: log w))
      | None => None
      end
  end.

(** A schedule, run from a world; [None] when a step cannot be taken. *)
Fixpoint run (schedule : list Step) (w : World) : option World :=
  match schedule with
  | [] => Some w
  | s :: rest => w' ← step s w; run rest w'
  end.

(** The request an event belongs to, when it is a use of the validator. *)
Definition actor (e : Event) : option Request :=
  match e with
  | Ran r _ => Some r
  | Completed r => Some r
  | _ => None
  end.

(** How many times the validator of [name] was constructed. *)
Fixpoint constructions (name : string) (l : list Event) : nat :=
  match l with
  | [] => 0
  | Constructed n _ :: rest =>
      ((if String.eqb n name then 1 else 0) + constructions name rest)%nat
  | _ :: rest => constructions name rest
  end.

(** The tasks of a queue, the running one first. *)
Definition active (q : PromiseQueue) : list Request :=
  match running q with
  | Some (r, _, _) => r :: pending q
  | None => pending q
  end.

(** In a log (newest first), whatever a request does comes after the
    completion of every request of the same name made before it. *)
Definition serial (l : list Event) : Prop :=
  forall newer e older r1 r2,
    l = newer ++ e :: older ->
    actor e = Some r2 ->
    Requested r1 ∈ older ->
    schemaName r1 = schemaName r2 ->
    (ticket r1 < ticket r2)%nat ->
    Completed r1 ∈ older.

(** In a log (newest first), a request does nothing once it has
    completed. *)
Definition settled (l : list Event) : Prop :=
  forall newer e older r,
    l = newer ++ e :: older ->
    actor e = Some r ->
    Completed r ∉ older.

(** The invariant of the reachable worlds. *)
Record Invariant (w : World) : Prop := MkInvariant {
  inv_count : forall name,
    constructions name (log w)
    = match yamlValidators w !! name with Some _ => 1%nat | None => 0%nat end;
  inv_cached : forall name v,
    yamlValidators w !! name = Some v -> Constructed name v ∈ log w;
  inv_ran : forall r v,
    Ran r v ∈ log w -> yamlValidators w !! schemaName r = Some v;
  inv_running : forall name q r v k,
    validatorQueues w !! name = Some q -> running q = Some (r, v, k) ->
    yamlValidators w !! name = Some v;
  inv_active : forall name q r,
    validatorQueues w !! name = Some q -> r ∈ active q ->
    schemaName r = name /\ (ticket r < calls w)%nat;
  inv_sorted : forall name q,
    validatorQueues w !! name = Some q ->
    StronglySorted (fun a b => (ticket a < ticket b)%nat) (active q);
  inv_requested : forall r,
    Requested r ∈ log w ->
    Completed r ∈ log w \/
    exists q, validatorQueues w !! schemaName r = Some q /\ r ∈ active q;
  inv_serial : serial (log w);
  inv_done : forall r,
    Completed r ∈ log w ->
    (ticket r < calls w)%nat /\
    forall name q, validatorQueues w !! name = Some q -> r ∉ active q;
  inv_settled : settled (log w);
}.

End ValidatorQueue.

(** ** Vocabulary for the indentation tree *)

Module Outline.

Import Indent.

(** Line [k] of [lines] is not blank and is indented by [d]. *)
Definition solidAt (lines : list string) (k : nat) (d : Z) : Prop :=
  exists l, lines !! k = Some l /\ isBlank l = false /\ getIndent l = d.

(** Line [k] of [lines] is blank. *)
Definition blankAt (lines : list string) (k : nat) : Prop :=
  exists l, lines !! k = Some l /\ isBlank l = true.

(** [v] is the parent of line [j], indented by [d]: the nearest line
    above [j] that is not blank and is indented less than [d], and [-1]
    when there is no such line. *)
Definition parentOf (lines : list string) (j : nat) (d v : Z) : Prop :=
  -1 <= v < Z.of_nat j /\
  (0 <= v -> exists dv, solidAt lines (Z.to_nat v) dv /\ dv < d) /\
  (forall k dk, v < Z.of_nat k < Z.of_nat j -> solidAt lines k dk -> d <= dk).

(** [p] is the nearest line above [j] that is not blank, and [-1] when
    every line above [j] is blank. *)
Definition lastSolid (lines : list string) (j : nat) (p : Z) : Prop :=
  -1 <= p < Z.of_nat j /\
  (0 <= p -> exists d, solidAt lines (Z.to_nat p) d) /\
  (forall k d, p < Z.of_nat k < Z.of_nat j -> ~ solidAt lines k d).

(** The state of the scan of [getYamlIndentTree] before line [i]. *)
Record Outlined (lines : list string) (st : Scan) (i : nat) : Prop := MkOutlined {
  out_length : length (scanPredecessor st) = i;
  out_indents : scanIndents st = getIndent <$> take i lines;
  out_prev : lastSolid lines i (scanPrevPredecessor st);
  out_indentation :
    (scanPrevPredecessor st = -1 -> scanIndentation st = -1) /\
    (forall d, solidAt lines (Z.to_nat (scanPrevPredecessor st)) d ->
               0 <= scanPrevPredecessor st -> scanIndentation st = d);
  out_solid : forall j d,
    (j < i)%nat -> solidAt lines j d ->
    exists v, scanPredecessor st !! j = Some (Some v) /\ parentOf lines j d v;
  out_blank : forall j p,
    (j < i)%nat -> blankAt lines j -> lastSolid lines j p ->
    scanPredecessor st !! j = Some (readPredecessor (scanPredecessor st) p);
}.

(** The elements [elements] were pushed for the lines [ks]: each is what
    the shape of its line gives. *)
Definition pushedFrom (lines : list string) (ks : list nat)
    (elements : list JsVal) : Prop :=
  Forall2 (fun k e => exists l, lines !! k = Some l /\
                                shapeOf (Str.trim l) = Push e) ks elements.

(** What a walk started at line [n] with [path] already pushed may
    return: [undefined], or [path] and the elements of lines at or above
    [n], taken from the bottom up, all reversed. *)
Definition walked (lines : list string) (path : list JsVal) (n : Z)
    (r : option (list JsVal)) : Prop :=
  forall final, r = Some final ->
    exists ks pushed,
      final = rev (path ++ pushed) /\
      pushedFrom lines ks pushed /\
      StronglySorted (fun a b => (b < a)%nat) ks /\
      Forall (fun k => Z.of_nat k <= n) ks.

End Outline.

(** ** The annotated tree of a parse ([buildAnnotated],
       tree-sitter-annotated-yaml.js) *)

Module Annotate.

(** A node of the parser's tree, with what the builder reads of it: its
    type, its text, the offsets it spans and its children
    ([childCount], [child(i)], [firstChild]). *)
Unset Elimination Schemes.
Inductive Node : Type := MkNode {
  type : string;
  text : string;
  startIndex : Z;
  endIndex : Z;
  children : list Node;
}.
Set Elimination Schemes.

(** The own property [key] of an object, kept as the list of its
    entries in the order the keys were first assigned, set to [v]. *)
Fixpoint setOwn (obj : list (string * JsVal)) (key : string) (v : JsVal)
  : list (string * JsVal) :=
  match obj with
  | [] => [(key, v)]
  | (k, old) :: rest =>
      if String.eqb k key then (k, v) :: rest
      else (k, old) :: setOwn rest key v
  end.

(** [obj[key] = value] on a plain object.  The name "__proto__" is the
    accessor inherited from [Object.prototype]: the assignment stores no
    property under it; it replaces the prototype when the value is an
    object or [null], which the entries do not show (nor what a later
    assignment to that name then does: the properties of that name are
    left out of what is proved of a built object). *)
Definition setProp (obj : list (string * JsVal)) (key : string) (v : JsVal)
  : list (string * JsVal) :=
  if String.eqb key "__proto__" then obj else setOwn obj key v.

(** The four node types of the dispatch table that are built by
    [singletonBuild]. *)
Definition isSingleton (t : string) : bool :=
  String.eqb t "stream" || String.eqb t "document"
  || String.eqb t "block_node" || String.eqb t "flow_node".

Definition unknownType (t : string) : Exn :=
  InternalError ("Internal error: don't know how to build node of type " +:+ t).

Definition notAPair (t : string) : Exn :=
  InternalError ("Internal error: Expected a block_mapping_pair, got " +:+ t
                 +:+ " instead.").

Section Build.

(** [mappedSource.mapClosest] of the mapped text the tree was parsed
    from, and [JSON.parse] with the exception it raises on a text that
    is not JSON, are taken as given. *)
Variable mapClosest : Z -> Z.
Variable jsonParse : string -> outcome JsVal.

Definition annotateEmpty (position : Z) : Annotated :=
  let mappedPos := mapClosest position in
  MkAnnotated mappedPos mappedPos JNull "<<EMPTY>>" [].

Definition annotate (node : Node) (result : JsVal) (components : list Annotated)
  : Annotated :=
  MkAnnotated (mapClosest (startIndex node)) (mapClosest (endIndex node))
              result (type node) components.

(** The object [{key: key.result, value: value.result}]. *)
Definition pairResult (key value : Annotated) : JsVal :=
  JObj [("key", Locate.result key); ("value", Locate.result value)].

(** [component.result] of what [buildNode] returned; [null] has none. *)
Definition built (m : outcome (option Annotated)) : outcome Annotated :=
  found <- m ;;;
  match found with
  | None => Throw TypeError
  | Some component => Ret component
  end.

(** The key and the value of a [block_mapping_pair], [build] being
    [buildNode]. *)
Definition pairOf (build : Node -> outcome (option Annotated)) (node : Node)
  : outcome (Annotated * Annotated) :=
  match children node with
  | [k; _; v] =>
      let key := annotate k (JStr (text k)) [] in
      value <- built (build v) ;;;
      Ret (key, value)
  | [k; _] =>
      Ret (annotate k (JStr (text k)) [], annotateEmpty (endIndex node))
  | _ => Ret (annotateEmpty (endIndex node), annotateEmpty (endIndex node))
  end.

(** The loop of the two sequence entries: the children of type
    [itemType] are built in order, the others skipped. *)
Fixpoint itemsOf (build : Node -> outcome (option Annotated)) (itemType : string)
    (cs : list Node) : outcome (list Annotated) :=
  match cs with
  | [] => Ret []
  | child :: rest =>
      if negb (String.eqb (type child) itemType) then itemsOf build itemType rest
      else
        component <- built (build child) ;;;
        others <- itemsOf build itemType rest ;;;
        Ret (component :: others)
  end.

(** The loop of the [block_mapping] entry, from the object and the
    components collected so far. *)
Fixpoint pairsOf (build : Node -> outcome (option Annotated)) (cs : list Node)
    (result : list (string * JsVal)) (components : list Annotated)
  : outcome (list (string * JsVal) * list Annotated) :=
  match cs with
  | [] => Ret (result, components)
  | child :: rest =>
      found <-
        (if String.eqb (type child) "ERROR" then
           let key2 := annotate child (JStr (text child)) [] in
           let value2 := annotateEmpty (endIndex child) in
           Ret (setProp result (text child) (JStr "<<ERROR>>"), key2, value2)
         else if negb (String.eqb (type child) "block_mapping_pair") then
           Throw (notAPair (type child))
         else
           kv <- pairOf build child ;;;
           Ret (result, kv.1, kv.2)) ;;;
      let '(result, key, value) := found in
      pairsOf build rest
              (setProp result (toString (Locate.result key)) (Locate.result value))
              (components ++ [key; value])
  end.

(** [buildNode(node)] for a node that is not [null]; the result [None]
    is the builder's [null]. *)
Fixpoint buildNode (node : Node) : outcome (option Annotated) :=
  match node with
  | MkNode ty txt s e cs =>
    let node := MkNode ty txt s e cs in
    if isSingleton ty then
      match cs with
      | [] => Ret None
      | firstChild :: _ => buildNode firstChild
      end
    else if String.eqb ty "block_sequence" then
      components <- itemsOf buildNode "block_sequence_item" cs ;;;
      Ret (Some (annotate node (JArr (map Locate.result components)) components))
    else if String.eqb ty "block_sequence_item" then
      match cs with
      | _ :: second :: _ => buildNode second
      | _ => Ret (Some (annotateEmpty e))
      end
    else if String.eqb ty "double_quote_scalar" then
      v <- jsonParse txt ;;;
      Ret (Some (annotate node v []))
    else if String.eqb ty "plain_scalar" then
      let v := match jsonParse txt with
               | Ret v => v
               | _ => JStr txt
               end in
      Ret (Some (annotate node v []))
    else if String.eqb ty "flow_sequence" then
      components <- itemsOf buildNode "flow_node" cs ;;;
      Ret (Some (annotate node (JArr (map Locate.result components)) components))
    else if String.eqb ty "block_mapping" then
      found <- pairsOf buildNode cs [] [] ;;;
      Ret (Some (annotate node (JObj found.1) found.2))
    else if String.eqb ty "block_mapping_pair" then
      kv <- pairOf buildNode node ;;;
      Ret (Some (annotate node (pairResult kv.1 kv.2) [kv.1; kv.2]))
    else Throw (unknownType ty)
  end.

End Build.

(** [buildAnnotated(tree, mappedSource)], [root] being [tree.rootNode]
    and [mapClosest] the library's closest-offset map of a mapped text. *)
Definition buildAnnotated (mapClosest : MappedText.MappedString -> Z -> Z)
    (jsonParse : string -> outcome JsVal)
    (root : Node) (mappedSource : MappedText.MappedString)
  : outcome (option Annotated) :=
  buildNode (mapClosest mappedSource) jsonParse root.

(** Every mapping node of an annotation holds its components in pairs. *)
Fixpoint paired (a : Annotated) : Prop :=
  match a with
  | MkAnnotated _ _ _ k cs =>
      (isMappingKind k = true -> Nat.Even (length cs)) /\
      (fix all (l : list Annotated) : Prop :=
         match l with
         | [] => True
         | c :: rest => paired c /\ all rest
         end) cs
  end.

End Annotate.
(** ** The mapping loop of [locate] *)

Module LocateLoop.

(** The loop of the mapping case of [locate], over the components
    that are left. *)
Fixpoint locatePairs (position : Z) (cs : list Annotated)
    (pathSoFar : list JsVal) (failedLast : bool) : outcome (list JsVal * bool) :=
  match cs with
  | [] => Ret (pathSoFar, true)
  | keyC :: afterKey =>
      if covers keyC position
      then Ret ([result keyC; JArr pathSoFar], failedLast)
      else
        match afterKey with
        | [] => Throw TypeError
        | valueC :: rest =>
            if covers valueC position
            then locate position valueC [result keyC; JArr pathSoFar] failedLast
            else locatePairs position rest pathSoFar failedLast
        end
  end.

End LocateLoop.
(** Stand-ins for the examples of the builder: a [JSON.parse] that
    knows two texts, and the trees of the texts "a: 1" and of a
    two-item sequence whose second item is empty. *)
Module DemoTree.

Import Annotate.

Definition jsonParse (s : string) : outcome JsVal :=
  if String.eqb s "1" then Ret (JNum 1)
  else if String.eqb s "true" then Ret (JBool true)
  else Throw (InternalError "SyntaxError").

Definition leaf (ty txt : string) (s e : Z) : Node := MkNode ty txt s e [].

Definition scalarNode (txt : string) (s e : Z) : Node :=
  MkNode "flow_node" txt s e [leaf "plain_scalar" txt s e].

Definition pair : Node :=
  MkNode "block_mapping_pair" "a: 1" 0 4
         [scalarNode "a" 0 1; leaf ":" ":" 1 2; scalarNode "1" 3 4].

Definition mapping : Node := MkNode "block_mapping" "a: 1" 0 4 [pair].

Definition root : Node :=
  MkNode "stream" "a: 1" 0 4
    [MkNode "document" "a: 1" 0 4 [MkNode "block_node" "a: 1" 0 4 [mapping]]].

Definition items : Node :=
  MkNode "block_sequence" "- 1 -" 0 5
    [MkNode "block_sequence_item" "- 1" 0 3 [leaf "-" "-" 0 1; scalarNode "1" 2 3];
     leaf "comment" "" 3 3;
     MkNode "block_sequence_item" "-" 4 5 [leaf "-" "-" 4 5]].

Definition mapClosest (source : MappedText.MappedString) (offset : Z) : Z := offset.

(** What the builder makes of [mapping] and of [items]. *)
Definition mappingBuilt : Annotated :=
  MkAnnotated 0 4 (JObj [("a", JNum 1)]) "block_mapping"
    [MkAnnotated 0 1 (JStr "a") "flow_node" [];
     MkAnnotated 3 4 (JNum 1) "plain_scalar" []].

Definition itemsBuilt : Annotated :=
  MkAnnotated 0 5 (JArr [JNum 1; JNull]) "block_sequence"
    [MkAnnotated 2 3 (JNum 1) "plain_scalar" [];
     MkAnnotated 5 5 JNull "<<EMPTY>>" []].

End DemoTree.

(** ** Cell options ([src/core/lib/partition-cell-options.ts]) *)

Module CellOptions.

(** An entry of [kLangCommentChars]: a comment string, or the pair of
    an opening and a closing comment string. *)
Inductive CommentChars : Type :=
  | Single (comment : string)
  | Pair (opening closing : string).

Definition kLangCommentChars : gmap string CommentChars :=
  list_to_map
    [("r", Single "#"); ("python", Single "#"); ("julia", Single "#");
     ("scala", Single "//"); ("matlab", Single "%"); ("csharp", Single "//");
     ("fsharp", Single "//"); ("c", Pair "/*" "*/"); ("css", Pair "/*" "*/");
     ("sas", Pair "*" ";"); ("powershell", Single "#"); ("bash", Single "#");
     ("sql", Single "--"); ("mysql", Single "--"); ("psql", Single "--");
     ("lua", Single "--"); ("cpp", Single "//"); ("cc", Single "//");
     ("stan", Single "#"); ("octave", Single "#"); ("fortran", Single "!");
     ("fortran95", Single "!"); ("awk", Single "#"); ("gawk", Single "#");
     ("stata", Single "*"); ("java", Single "//"); ("groovy", Single "//");
     ("sed", Single "#"); ("perl", Single "#"); ("ruby", Single "#");
     ("tikz", Single "%"); ("js", Single "//"); ("d3", Single "//");
     ("node", Single "//"); ("sass", Single "//"); ("coffee", Single "#");
     ("go", Single "//"); ("asy", Single "//"); ("haskell", Single "--");
     ("dot", Single "//"); ("ojs", Single "//")].

Section WithTable.

(** The entries of the table as it stands when the functions are
    called, those of [kLangCommentChars] or others; the table is a
    plain object, whose reads also find the members of
    [Object.prototype]. *)
Variable table : gmap string CommentChars.

(** [langCommentChars(lang)]: [kLangCommentChars[lang] || "#"], as an
    array.  A language that is no entry but the name of a member of
    [Object.prototype] reads that member, which is neither falsy nor an
    array; it is kept as the text it gives where the callers use the
    array's first element, as a string. *)
Definition langCommentChars (lang : string) : list string :=
  match table !! lang with
  | Some (Single comment) => if truthy comment then [comment] else ["#"]
  | Some (Pair opening closing) => [opening; closing]
  | None => if inherited lang then [memberText lang] else ["#"]
  end.

Definition optionCommentPrefix (comment : string) : string := comment +:+ "| ".

(** [commentChars[0]] used as a string, [undefined] for an empty array
    (which [langCommentChars] never returns). *)
Definition firstOf (commentChars : list string) : string :=
  default "undefined" (head commentChars).

(** [commentChars[1] || ""]. *)
Definition secondOf (commentChars : list string) : string :=
  default "" (commentChars !! 1%nat).

Definition optionCommentPrefixFromLanguage (language : string) : string :=
  optionCommentPrefix (firstOf (langCommentChars language)).

(** The comment prefix as the editor bundle computes it in
    [automationFromGoodParseScript]:
    [core.kLangCommentChars[language] + "| "], what the read gives
    converted to a string (an array joined with commas, a member of
    [Object.prototype] as its text, [undefined] as its name). *)
Definition scriptCommentPrefix (language : string) : string :=
  match table !! language with
  | Some (Single comment) => comment
  | Some (Pair opening closing) => opening +:+ "," +:+ closing
  | None => if inherited language then memberText language else "undefined"
  end +:+ "| ".

(** [line.substring(n)]: from [n] to the end. *)
Definition substringFrom (line : string) (n : Z) : string :=
  Text.substring line n (Text.strlen line).

(** The test of the loop: the line is an option line. *)
Definition isOptionLine (optionPrefix optionSuffix line : string) : bool :=
  startsWith line optionPrefix
  && (negb (truthy optionSuffix)
      || Str.endsWith (Str.trimEnd line) optionSuffix).

(** The YAML text of an option line. *)
Definition yamlOptionOf (optionPrefix optionSuffix line : string) : string :=
  let yamlOption := substringFrom line (Text.strlen optionPrefix) in
  if truthy optionSuffix then
    let yamlOption := Str.trimEnd yamlOption in
    Text.substring yamlOption 0 (Text.strlen yamlOption - Text.strlen optionSuffix)
  else yamlOption.

(** The loop over the lines: the YAML text and the source of each
    option line, up to the first line that is not one. *)
Fixpoint optionLines (optionPrefix optionSuffix : string) (source : list string)
  : list (string * string) :=
  match source with
  | [] => []
  | line :: rest =>
      if isOptionLine optionPrefix optionSuffix line
      then (yamlOptionOf optionPrefix optionSuffix line, line)
           :: optionLines optionPrefix optionSuffix rest
      else []
  end.

Record Partition : Type := MkPartition {
  yaml : option JsVal;
  optionsSource : list string;
  source : list string;
  sourceStartLine : Z;
}.

(** [guessChunkOptionsFormat], and the reading of a YAML text
    ([readAnnotatedYamlFromMappedString(asMappedString(text))!.result]),
    are other modules' and taken as given. *)
Variable guessChunkOptionsFormat : string -> string.
Variable readYaml : string -> outcome JsVal.

Definition partitionCellOptions (language : string) (lines : list string)
  : outcome Partition :=
  let commentChars := langCommentChars language in
  let optionPrefix := optionCommentPrefix (firstOf commentChars) in
  let optionSuffix := secondOf commentChars in
  let found := optionLines optionPrefix optionSuffix lines in
  let yamlLines := found.*1 in
  let options := found.*2 in
  let n := Z.of_nat (length yamlLines) in
  if String.eqb (guessChunkOptionsFormat (Text.joinLines yamlLines)) "knitr" then
    Ret (MkPartition None options (drop (length yamlLines) lines) n)
  else if 0 <? n then
    parsed <- readYaml (Text.joinLines yamlLines) ;;;
    Ret (MkPartition (Some parsed) options (drop (length yamlLines) lines) n)
  else
    Ret (MkPartition None options (drop (length yamlLines) lines) n).

End WithTable.

End CellOptions.

(** Stand-ins for the examples of the cell options: every text is
    guessed to be YAML and read as [null]. *)
Module DemoCell.

Definition guessChunkOptionsFormat (text : string) : string := "yaml".

Definition readYaml (text : string) : outcome JsVal := Ret JNull.

Definition lines : list string :=
  ["#| echo: false"; "#| eval: true"; "x = 1"; "#| late"].

Definition partitioned : CellOptions.Partition :=
  CellOptions.MkPartition (Some JNull) ["#| echo: false"; "#| eval: true"]
                          ["x = 1"; "#| late"] 2.

End DemoCell.

(** ** The markdown dispatcher ([automationFromGoodParseMarkdown],
       automation.js) *)

Module Markdown.

(** The [cell_type] of a cell of [breakQuartoMd]: a name such as
    [raw], [markdown] or [math], or an object [{language}]. *)
Inductive CellType : Type :=
  | Named (name : string)
  | Code (language : string).

Record Cell : Type := MkCell {
  cell_type : CellType;
  source : MappedText.MappedString;
}.

(** The context handed to [automationFromGoodParseScript]. *)
Record ScriptContext : Type := MkScriptContext {
  language : string;
  code : MappedText.MappedString;
  position : Position;
  line : string;
}.

Definition isNamed (name : string) (t : CellType) : bool :=
  match t with
  | Named n => String.eqb n name
  | Code _ => false
  end.

(** The number of lines a cell takes in the document: those of its
    source, and two more for the fences of a cell that is neither raw
    nor markdown. *)
Definition sizeOf (cell : Cell) : Z :=
  let size := Z.of_nat (length (Text.lines (MappedText.value (source cell)))) in
  if negb (isNamed "raw" (cell_type cell)) && negb (isNamed "markdown" (cell_type cell))
  then size + 2 else size.

(** The loop that looks for the cell of the cursor row; the result is
    [foundCell] with [linesSoFar], [None] when the loop ends without a
    cell. *)
Fixpoint findCell (cells : list Cell) (row linesSoFar : Z) : option (Cell * Z) :=
  match cells with
  | [] => None
  | cell :: rest =>
      let size := sizeOf cell in
      if size + linesSoFar >? row then Some (cell, linesSoFar)
      else findCell rest row (linesSoFar + size)
  end.

(** The number of lines that [cells] take together. *)
Definition linesOf (cells : list Cell) : Z :=
  foldr (fun cell total => sizeOf cell + total) 0 cells.

Definition unknownCell (t : CellType) : Exn :=
  InternalError ("internal error, don't know how to complete cell of type "
                 +:+ match t with
                     | Named name => name
                     | Code _ => "[object Object]"
                     end).

Section Dispatch.

(** The schema [schemas["front-matter"]], and the two functions the
    dispatcher hands the request on to. *)
Variable frontMatter : Schema.
Variable automationFromGoodParseYAML : Yaml.Context -> outcome Yaml.Answer.
Variable automationFromGoodParseScript : ScriptContext -> outcome Yaml.Answer.

(** [automationFromGoodParseMarkdown("completions", context)], [cells]
    being [breakQuartoMd(code).cells]. *)
Definition automationFromGoodParseMarkdown (cells : list Cell)
    (position : Position) (line : string) : outcome Yaml.Answer :=
  match findCell cells (row position) 0 with
  | None => Ret Yaml.AFalse
  | Some (foundCell, linesSoFar) =>
      match cell_type foundCell with
      | Named name =>
          if String.eqb name "raw" then
            automationFromGoodParseYAML
              (Yaml.MkContext line (MappedText.Mapped (source foundCell)) position
                              frontMatter None)
          else if String.eqb name "markdown" then Ret Yaml.AFalse
          else Throw (unknownCell (Named name))
      | Code language =>
          if truthy language then
            automationFromGoodParseScript
              (MkScriptContext language (source foundCell)
                 (MkPosition (row position - (linesSoFar + 1)) (column position))
                 line)
          else Throw (unknownCell (Code language))
      end
  end.

End Dispatch.

End Markdown.

(** Stand-ins for the examples of the dispatcher: a document of a raw
    cell, a markdown cell and a code cell, and handlers that answer
    [null]. *)
Module DemoMarkdown.

Definition cells : list Markdown.Cell :=
  [Markdown.MkCell (Markdown.Named "raw")
     (MappedText.Original (Text.joinLines ["---"; "title: x"; "---"]));
   Markdown.MkCell (Markdown.Named "markdown") (MappedText.Original "text");
   Markdown.MkCell (Markdown.Code "python")
     (MappedText.Original (Text.joinLines ["#| echo: false"; "x = 1"]))].

Definition yamlHandler (context : Yaml.Context) : outcome Yaml.Answer :=
  Ret Yaml.ANull.

Definition scriptHandler (context : Markdown.ScriptContext) : outcome Yaml.Answer :=
  Ret Yaml.ANull.

End DemoMarkdown.

(** ** Reading the object of a mapping *)

Module ObjectRead.

(** The value of the own property [key] of an object kept as the list
    of its entries; [None] when the object has no such property. *)
Fixpoint getProp (obj : list (string * JsVal)) (key : string) : option JsVal :=
  match obj with
  | [] => None
  | (k, v) :: rest => if String.eqb k key then Some v else getProp rest key
  end.

(** The property name under which the value of a key is stored. *)
Definition keyName (key : Annotated) : string := toString (Locate.result key).

End ObjectRead.

(** * Properties *)

(** ** Schema navigation *)

Section NavigateFacts.

Variable schemaType : Schema -> string.
Variable path : list JsVal.

Local Abbreviation inner' := (inner schemaType path).
Local Abbreviation visitAt fuel index :=
  (fun (r : Refs) (ss : Schema) => inner schemaType path fuel r ss index).

(** Decide the comparisons of a known classifier result with the
    literals of the source. *)
Ltac decide_eqb :=
  repeat match goal with
         | |- context [String.eqb ?a ?b] =>
             let v := eval vm_compute in (String.eqb a b) in
             change (String.eqb a b) with v
         end;
  cbv iota.

Lemma bind_Ret {A B : Type} (a : A) (k : A -> outcome B) :
  bind (Ret a) k = k a.
Proof. reflexivity. Qed.

Lemma bind_Ret_inv {A B : Type} (m : outcome A) (k : A -> outcome B) (b : B) :
  bind m k = Ret b -> exists a, m = Ret a /\ k a = Ret b.
Proof. destruct m as [a| |]; simpl; intros H; try discriminate. eauto. Qed.

(** The map over the branches visits every branch, in order, each from
    the registry its predecessor left. *)
Lemma mapBranches_visits visit (branches : list Schema) :
  forall refs rs refs',
    mapBranches visit refs branches = Ret (rs, refs') ->
    length rs = length branches /\
    forall i ss, branches !! i = Some ss ->
      exists r before after, rs !! i = Some r /\ visit before ss = Ret (r, after).
Proof.
  induction branches as [|b rest IH]; intros refs rs refs' H; simpl in H.
  - inversion H; subst. split; [reflexivity|]. intros i ss Hi.
    rewrite lookup_nil in Hi. discriminate.
  - apply bind_Ret_inv in H as [[r refs1] [Hv H]].
    apply bind_Ret_inv in H as [[rs1 refs2] [Hm H]].
    inversion H; subst. destruct (IH _ _ _ Hm) as [Hlen Hall].
    split; [simpl; lia|].
    intros [|i] ss Hi; simpl in Hi.
    + inversion Hi; subst. exists r, refs, refs1. split; [reflexivity|assumption].
    + destruct (Hall i ss Hi) as (r' & b' & a' & Hr & Hv').
      exists r', b', a'. split; assumption.
Qed.

(** An exception in one branch ends the map with that exception. *)
Lemma mapBranches_raises visit (pre post : list Schema) (ss : Schema) e :
  forall refs rs refs1,
    mapBranches visit refs pre = Ret (rs, refs1) ->
    visit refs1 ss = Throw e ->
    mapBranches visit refs (pre ++ ss :: post) = Throw e.
Proof.
  induction pre as [|b pre IH]; intros refs rs refs1 Hpre Hss; simpl in *.
  - inversion Hpre; subst. rewrite Hss. reflexivity.
  - apply bind_Ret_inv in Hpre as [[r r1] [Hv H]].
    apply bind_Ret_inv in H as [[rs1 r2] [Hm H]].
    inversion H; subst. rewrite Hv. simpl.
    rewrite (IH _ _ _ Hm Hss). reflexivity.
Qed.

Lemma inner_unfold fuel refs subSchema index :
  inner' (S fuel) refs subSchema index =
  (let refs := register subSchema refs in
    subSchema <- resolve subSchema refs ;;;
    if Nat.eqb index (length path) then Ret ([NLeaf subSchema], refs)
    else
      let st := schemaType subSchema in
      if String.eqb st "object" then
        let key := keyAt path index in
        match properties subSchema with
        | None => Throw TypeError
        | Some props =>
            match props !! key with
            | None =>
                if inherited key
                then inner' fuel refs inheritedMember (index + 1)
                else if negb (Z.of_nat index =? Z.of_nat (length path) - 1)
                then Ret ([], refs)
                else
                  let completions2 :=
                    List.filter (fun name => startsWith name key)
                                (ownPropertyNames props) in
                  if Nat.eqb (length completions2) 0 then Ret ([], refs)
                  else Ret ([NLeaf subSchema], refs)
            | Some sub => inner' fuel refs sub (index + 1)
            end
        end
      else if String.eqb st "array" then
        match items subSchema with
        | None => Ret ([], refs)
        | Some it => inner' fuel refs it (index + 1)
        end
      else if String.eqb st "anyOf" then
        match anyOf subSchema with
        | None => Throw TypeError
        | Some branches =>
            mapped <- mapBranches (visitAt fuel index) refs branches ;;;
            let '(rs, refs1) := mapped in
            Ret (map NArr rs, refs1)
        end
      else if String.eqb st "allOf" then
        Throw (InternalError
                 "Internal error: don't know how to navigate allOf schema :(")
      else if String.eqb st "oneOf" then
        match oneOf subSchema with
        | None => Throw TypeError
        | Some branches =>
            mapped <- mapBranches (visitAt fuel index) refs branches ;;;
            let '(rs, refs1) := mapped in
            let result := flatInf (map NArr rs) in
            if negb (Nat.eqb (length result) 1) then Ret ([], refs1)
            else Ret (map NLeaf result, refs1)
        end
      else Ret ([], refs)).
Proof. reflexivity. Qed.

(** A map that ends with a visitor ends the same way with any visitor
    that agrees with it wherever it ends. *)
Lemma mapBranches_agree (visit1 visit2 : Refs -> Schema -> outcome Found)
    (branches : list Schema) :
  (forall refs ss, visit1 refs ss <> Diverge -> visit2 refs ss = visit1 refs ss) ->
  forall refs,
    mapBranches visit1 refs branches <> Diverge ->
    mapBranches visit2 refs branches = mapBranches visit1 refs branches.
Proof.
  intros Hagree. induction branches as [|b rest IH]; intros refs Hend;
    [reflexivity|]. simpl in *.
  destruct (visit1 refs b) as [[r refs1]| |] eqn:Hv; simpl in Hend;
    [| |congruence].
  - rewrite (Hagree refs b) by (rewrite Hv; discriminate). rewrite Hv. simpl.
    destruct (mapBranches visit1 refs1 rest) as [[rs refs2]| |] eqn:Hm;
      simpl in Hend; [| |congruence].
    + rewrite IH by (rewrite Hm; discriminate). rewrite Hm. reflexivity.
    + rewrite IH by (rewrite Hm; discriminate). rewrite Hm. reflexivity.
  - rewrite (Hagree refs b) by (rewrite Hv; discriminate). rewrite Hv. reflexivity.
Qed.

(** Once the budget is enough for [inner] to end, a larger budget
    changes nothing. *)
Lemma inner_fuel_mono fuel : forall refs subSchema index,
  inner' fuel refs subSchema index <> Diverge ->
  forall more, inner' (fuel + more) refs subSchema index
               = inner' fuel refs subSchema index.
Proof.
  induction fuel as [|fuel IH]; intros refs subSchema index Hend more;
    [simpl in Hend; congruence|].
  change (S fuel + more)%nat with (S (fuel + more)).
  rewrite !inner_unfold in *. cbv zeta in *.
  destruct (resolve subSchema (register subSchema refs)) as [resolved| |];
    [|reflexivity|reflexivity].
  rewrite !bind_Ret in *. cbv beta in *.
  destruct (Nat.eqb index (length path)); [reflexivity|].
  destruct (String.eqb (schemaType resolved) "object").
  { destruct (properties resolved) as [props|]; [|reflexivity].
    destruct (props !! keyAt path index) as [sub|];
      [|destruct (inherited (keyAt path index)); [|reflexivity]];
      apply IH; exact Hend. }
  destruct (String.eqb (schemaType resolved) "array").
  { destruct (items resolved) as [it|]; [|reflexivity]. apply IH. exact Hend. }
  destruct (String.eqb (schemaType resolved) "anyOf").
  { destruct (anyOf resolved) as [branches|]; [|reflexivity].
    rewrite (mapBranches_agree (visitAt fuel index) (visitAt (fuel + more) index));
      [reflexivity| |].
    - intros r ss Hv. apply IH. exact Hv.
    - intros Hm. rewrite Hm in Hend. simpl in Hend. congruence. }
  destruct (String.eqb (schemaType resolved) "allOf"); [reflexivity|].
  destruct (String.eqb (schemaType resolved) "oneOf"); [|reflexivity].
  destruct (oneOf resolved) as [branches|]; [|reflexivity].
  rewrite (mapBranches_agree (visitAt fuel index) (visitAt (fuel + more) index));
    [reflexivity| |].
  - intros r ss Hv. apply IH. exact Hv.
  - intros Hm. rewrite Hm in Hend. simpl in Hend. congruence.
Qed.

Lemma navigateSchema_fuel_mono fuel schema :
  navigateSchema schemaType path fuel schema <> Diverge ->
  forall more, navigateSchema schemaType path (fuel + more) schema
               = navigateSchema schemaType path fuel schema.
Proof.
  unfold navigateSchema. intros Hend more.
  rewrite inner_fuel_mono; [reflexivity|].
  intros Hd. rewrite Hd in Hend. simpl in Hend. congruence.
Qed.

Lemma flatInf_NArr {A : Type} (rs : list (list (Nested A))) :
  flatInf (map NArr rs) = concat (map flatInf rs).
Proof.
  unfold flatInf at 1. f_equal. induction rs as [|r rs IH]; simpl; [reflexivity|].
  f_equal. exact IH.
Qed.

Lemma flatInf_NLeaf {A : Type} (l : list A) : flatInf (map NLeaf l) = l.
Proof.
  unfold flatInf. induction l as [|a l IH]; simpl; [reflexivity|].
  f_equal. exact IH.
Qed.

(** What a [oneOf] node returns once its branches are navigated. *)
Lemma inner_oneOf fuel refs s s' index branches rs refs' :
  resolve s (register s refs) = Ret s' ->
  index <> length path ->
  schemaType s' = "oneOf" ->
  oneOf s' = Some branches ->
  mapBranches (visitAt fuel index) (register s refs) branches = Ret (rs, refs') ->
  inner' (S fuel) refs s index =
    Ret (match concat (map flatInf rs) with
         | [x] => [NLeaf x]
         | _ => []
         end, refs').
Proof.
  intros Hres Hidx Hst Hone Hmap.
  rewrite inner_unfold. cbv zeta. rewrite Hres, bind_Ret. cbv beta.
  apply Nat.eqb_neq in Hidx. rewrite Hidx, Hst. decide_eqb.
  rewrite Hone, Hmap, bind_Ret. cbv beta iota.
  rewrite flatInf_NArr.
  destruct (concat (map flatInf rs)) as [|x [|y l]]; reflexivity.
Qed.

Lemma concat_map_all_nil {A B : Type} (f : A -> list B) (l : list A) :
  (forall a, a ∈ l -> f a = []) -> concat (map f l) = [].
Proof.
  induction l as [|a l IH]; intros H; simpl; [reflexivity|].
  rewrite (H a) by apply list_elem_of_here.
  apply IH. intros b Hb. apply H. by apply list_elem_of_further.
Qed.

Lemma concat_map_middle {A B : Type} (f : A -> list B) (l : list A) i a :
  l !! i = Some a ->
  concat (map f l) =
    concat (map f (take i l)) ++ f a ++ concat (map f (drop (S i) l)).
Proof.
  intros H. rewrite <- (take_drop_middle l i a H) at 1.
  rewrite map_app, concat_app. simpl. reflexivity.
Qed.

Lemma concat_map_only {A B : Type} (f : A -> list B) (l : list A) i a :
  l !! i = Some a ->
  (forall j b, j <> i -> l !! j = Some b -> f b = []) ->
  concat (map f l) = f a.
Proof.
  intros Hi Hothers. rewrite (concat_map_middle f l i a Hi).
  rewrite !concat_map_all_nil, app_nil_r; [reflexivity| |].
  - intros b Hb. apply list_elem_of_lookup in Hb as [j Hj].
    rewrite lookup_drop in Hj. apply (Hothers (S i + j)%nat); [lia|exact Hj].
  - intros b Hb. apply list_elem_of_lookup in Hb as [j Hj].
    pose proof (lookup_lt_Some _ _ _ Hj) as Hlt. rewrite length_take in Hlt.
    rewrite lookup_take_lt in Hj by lia.
    apply (Hothers j); [lia|exact Hj].
Qed.

Lemma concat_map_length_ge {A B : Type} (f : A -> list B) (l : list A) i a :
  l !! i = Some a -> (length (f a) <= length (concat (map f l)))%nat.
Proof.
  intros Hi. rewrite (concat_map_middle f l i a Hi), !length_app. lia.
Qed.

Lemma concat_map_length_two {A B : Type} (f : A -> list B) (l : list A)
    i j a b :
  i <> j -> l !! i = Some a -> l !! j = Some b ->
  (length (f a) + length (f b) <= length (concat (map f l)))%nat.
Proof.
  revert i j a b.
  assert (forall i j a b, (i < j)%nat -> l !! i = Some a -> l !! j = Some b ->
            (length (f a) + length (f b) <= length (concat (map f l)))%nat)
    as Hlt.
  { intros i j a b Hij Hi Hj.
    rewrite (concat_map_middle f l i a Hi), !length_app.
    assert (drop (S i) l !! (j - S i)%nat = Some b) as Hd.
    { rewrite lookup_drop. replace (S i + (j - S i))%nat with j by lia. exact Hj. }
    pose proof (concat_map_length_ge f _ _ _ Hd). lia. }
  intros i j a b Hne Hi Hj.
  destruct (Nat.lt_ge_cases i j) as [H|H].
  - eapply Hlt; eauto.
  - rewrite Nat.add_comm. eapply Hlt; [|exact Hj|exact Hi]. lia.
Qed.

(** C3 (amended): at a [oneOf] node with path left to follow, every
    branch is navigated in order; the node returns the one schema found
    when the branches' results, flattened together, hold exactly one
    schema, and no match otherwise.  So the result is that of the
    unique non-empty branch when that branch found a single schema; it
    is empty when no branch or several branches found something, and
    also when the only non-empty branch found two schemas or more. *)
Theorem oneOf_exactly_one_schema fuel refs s s' index branches rs refs' :
  resolve s (register s refs) = Ret s' ->
  index <> length path ->
  schemaType s' = "oneOf" ->
  oneOf s' = Some branches ->
  mapBranches (visitAt fuel index) (register s refs) branches = Ret (rs, refs') ->
  length rs = length branches /\
  (forall i r x,
      rs !! i = Some r -> flatInf r = [x] ->
      (forall j r', j <> i -> rs !! j = Some r' -> flatInf r' = []) ->
      inner' (S fuel) refs s index = Ret ([NLeaf x], refs')) /\
  ((forall r, r ∈ rs -> flatInf r = []) ->
      inner' (S fuel) refs s index = Ret ([], refs')) /\
  (forall i j ri rj,
      i <> j -> rs !! i = Some ri -> rs !! j = Some rj ->
      flatInf ri <> [] -> flatInf rj <> [] ->
      inner' (S fuel) refs s index = Ret ([], refs')) /\
  (forall i r,
      rs !! i = Some r -> (2 <= length (flatInf r))%nat ->
      inner' (S fuel) refs s index = Ret ([], refs')).
Proof.
  intros Hres Hidx Hst Hone Hmap.
  pose proof (inner_oneOf _ _ _ _ _ _ _ _ Hres Hidx Hst Hone Hmap) as Hin.
  split; [exact (proj1 (mapBranches_visits _ _ _ _ _ Hmap))|].
  rewrite Hin. repeat split.
  - intros i r x Hi Hx Hothers.
    rewrite (concat_map_only flatInf rs i r Hi Hothers), Hx. reflexivity.
  - intros Hnone. rewrite (concat_map_all_nil flatInf rs Hnone). reflexivity.
  - intros i j ri rj Hne Hi Hj Hri Hrj.
    pose proof (concat_map_length_two flatInf rs i j ri rj Hne Hi Hj) as Hlen.
    destruct (flatInf ri) as [|a la]; [congruence|].
    destruct (flatInf rj) as [|b lb]; [congruence|].
    destruct (concat (map flatInf rs)) as [|x [|y l]]; simpl in Hlen;
      [reflexivity|lia|reflexivity].
  - intros i r Hi Htwo.
    pose proof (concat_map_length_ge flatInf rs i r Hi) as Hlen.
    destruct (concat (map flatInf rs)) as [|x [|y l]]; simpl in Hlen;
      [reflexivity|lia|reflexivity].
Qed.

(** C2 (amended): a node whose [$ref] names neither an identity
    registered so far nor a member that every object inherits from
    [Object.prototype] makes [inner] raise the internal error "schema
    reference ... undefined", no schema having been registered under
    the name "__proto__" (which would give the registry that schema's
    fields to inherit); the error is not turned into an empty result:
    it ends the enclosing [anyOf] or [oneOf] map and the whole
    navigation. *)
Theorem unresolved_ref_raises fuel refs s r index :
  ref_ s = Some r ->
  truthy r = true ->
  register s refs !! r = None ->
  inherited r = false ->
  register s refs !! "__proto__" = None ->
  let err := InternalError
               ("Internal error: schema reference " +:+ r +:+ " undefined") in
  inner' (S fuel) refs s index = Throw err /\
  (register s ∅ !! r = None ->
     navigateSchema schemaType path (S fuel) s = Throw err) /\
  (forall parent parent' refs0 pre post rs,
      resolve parent (register parent refs0) = Ret parent' ->
      index <> length path ->
      (schemaType parent' = "anyOf" /\ anyOf parent' = Some (pre ++ s :: post)
       \/ schemaType parent' = "oneOf" /\ oneOf parent' = Some (pre ++ s :: post)) ->
      mapBranches (visitAt (S fuel) index) (register parent refs0) pre
        = Ret (rs, refs) ->
      inner' (S (S fuel)) refs0 parent index = Throw err).
Proof.
  intros Href Htruthy Hlook Hown _ err.
  assert (forall refs1 i, register s refs1 !! r = None ->
            inner' (S fuel) refs1 s i = Throw err) as Hany.
  { intros refs1 i Hl. rewrite inner_unfold. cbv zeta. unfold resolve.
    rewrite Href, Htruthy, Hl, Hown. reflexivity. }
  pose proof (Hany refs index Hlook) as Hnode.
  split; [exact Hnode|]. split.
  - intros Hroot. unfold navigateSchema. rewrite (Hany ∅ 0%nat Hroot).
    reflexivity.
  - intros parent parent' refs0 pre post rs Hres Hidx Hcomb Hpre.
    pose proof (mapBranches_raises (visitAt (S fuel) index) pre post s err
                  _ _ _ Hpre Hnode) as Hmap.
    rewrite inner_unfold. cbv zeta. rewrite Hres, bind_Ret. cbv beta.
    apply Nat.eqb_neq in Hidx. rewrite Hidx.
    destruct Hcomb as [[Hst Hb]|[Hst Hb]]; rewrite Hst; decide_eqb;
      rewrite Hb, Hmap; reflexivity.
Qed.

End NavigateFacts.

(** The spec's own example: [{a: {b: {type: string}}}]. *)
Example navigate_a_b :
  navigateSchema schemaTypeOf [JStr "a"; JStr "b"] 3
    (objectOf [("a", objectOf [("b", typed "string")])])
  = Ret [typed "string"].
Proof. vm_compute. reflexivity. Qed.

Example navigate_a_x :
  navigateSchema schemaTypeOf [JStr "a"; JStr "x"] 3
    (objectOf [("a", objectOf [("b", typed "string")])])
  = Ret [].
Proof. vm_compute. reflexivity. Qed.

(** With the path used up, a [oneOf] node is returned as it is, its
    branches unvisited. *)
Example navigate_oneOf_at_end :
  navigateSchema schemaTypeOf [] 3 (oneOfSchema [typed "string"; typed "number"])
  = Ret [oneOfSchema [typed "string"; typed "number"]].
Proof. vm_compute. reflexivity. Qed.

(** An [allOf] node on the way is an internal error. *)
Example navigate_allOf :
  navigateSchema schemaTypeOf [JStr "a"] 3
    (allOfSchema [objectOf [("a", typed "string")]])
  = Throw (InternalError
             "Internal error: don't know how to navigate allOf schema :(").
Proof. vm_compute. reflexivity. Qed.

(** A schema that refers to itself through a registered identity. *)
Example navigate_recursive_array :
  navigateSchema schemaTypeOf [JNum 0; JNum 0] 3
    (withId "A" (arrayOf (refTo "A")))
  = Ret [withId "A" (arrayOf (refTo "A"))].
Proof. vm_compute. reflexivity. Qed.

(** C2, as stated, fails: the unresolved reference below is one branch
    of an [anyOf] whose other branch matches, and the navigation raises
    instead of returning the other branch's match (or the empty list). *)
Lemma unresolved_ref_counterexample :
  let schema := anyOfSchema [refTo "missing"; objectOf [("a", typed "number")]] in
  navigateSchema schemaTypeOf [JStr "a"] 5 schema
    = Throw (InternalError "Internal error: schema reference missing undefined")
  /\ navigateSchema schemaTypeOf [JStr "a"] 5 (refTo "missing") <> Ret [].
Proof. split; [vm_compute; reflexivity|vm_compute; discriminate]. Qed.

Lemma unresolved_ref_raises_witness :
  inner schemaTypeOf [JStr "a"] 1 ∅ (refTo "missing") 0
    = Throw (InternalError "Internal error: schema reference missing undefined").
Proof.
  exact (proj1 (unresolved_ref_raises schemaTypeOf [JStr "a"] 0 ∅
                  (refTo "missing") "missing" 0%nat eq_refl eq_refl eq_refl
                  eq_refl eq_refl)).
Defined.

(** C3, as stated, fails: the [oneOf] below has a single branch, that
    branch alone finds two schemas (so exactly one branch is non-empty),
    and the node returns no match instead of the branch's result. *)
Lemma oneOf_counterexample :
  let branch := anyOfSchema [objectOf [("a", typed "string")];
                             objectOf [("a", typed "number")]] in
  navigateSchema schemaTypeOf [JStr "a"] 5 branch
    = Ret [typed "string"; typed "number"]
  /\ navigateSchema schemaTypeOf [JStr "a"] 5 (oneOfSchema [branch]) = Ret [].
Proof. split; vm_compute; reflexivity. Qed.

Lemma oneOf_exactly_one_schema_witness :
  inner schemaTypeOf [JStr "a"] 3 ∅
    (oneOfSchema [objectOf [("a", typed "string")]; objectOf [("b", typed "number")]])
    0
  = Ret ([NLeaf (typed "string")], ∅).
Proof.
  pose proof (oneOf_exactly_one_schema schemaTypeOf [JStr "a"] 2 ∅
                (oneOfSchema [objectOf [("a", typed "string")];
                              objectOf [("b", typed "number")]])
                _ 0%nat _ [[NLeaf (typed "string")]; []] ∅
                eq_refl ltac:(discriminate) eq_refl eq_refl eq_refl)
    as (_ & Hone & _).
  apply (Hone 0%nat [NLeaf (typed "string")] (typed "string") eq_refl eq_refl).
  intros [|[|j]] r' Hj Hr'; [congruence| |]; simpl in Hr'.
  - inversion Hr'. reflexivity.
  - rewrite lookup_nil in Hr'. discriminate.
Defined.

(** ** Cursor location *)

Section LocateFacts.

Variable position : Z.

Local Abbreviation liesBefore := (Locate.liesBefore position).

Lemma sequence_not_mapping k : isSequenceKind k = true -> isMappingKind k = false.
Proof.
  unfold isSequenceKind, isMappingKind. intros H.
  apply orb_true_iff in H as [H|H]; apply String.eqb_eq in H; subst;
    reflexivity.
Qed.

Lemma locate_sequence_loop node pathSoFar failedLast :
  isSequenceKind (kind node) = true ->
  locate position node pathSoFar failedLast
  = locateItems position (components node) 0 pathSoFar failedLast.
Proof.
  destruct node as [s e r k cs]. simpl. intros Hseq.
  rewrite (sequence_not_mapping _ Hseq), Hseq.
  match goal with
  | |- ?loop cs 0 = _ =>
      assert (forall l i, loop l i = locateItems position l i pathSoFar failedLast)
        as Hloop
  end.
  { induction l as [|c l IH]; intros i; simpl; [reflexivity|].
    destruct (covers c position); [reflexivity|].
    destruct (start c >? position); [reflexivity|]. apply IH. }
  apply Hloop.
Qed.

Lemma locateItems_skip cs : forall base i c pathSoFar failedLast,
  cs !! i = Some c ->
  (forall j c', (j < i)%nat -> cs !! j = Some c' -> liesBefore c') ->
  locateItems position cs base pathSoFar failedLast
  = locateItems position (drop i cs) (base + Z.of_nat i) pathSoFar failedLast.
Proof.
  induction cs as [|c0 cs IH]; intros base i c pathSoFar failedLast Hi Hpre.
  - rewrite lookup_nil in Hi. discriminate.
  - destruct i as [|i].
    + simpl drop. rewrite Z.add_0_r. reflexivity.
    + destruct (Hpre 0%nat c0 ltac:(lia) eq_refl) as [Hc Hs].
      simpl locateItems at 1. rewrite Hc.
      assert ((start c0 >? position) = false) as -> by lia.
      simpl in Hi. rewrite (IH (base + 1) i c pathSoFar failedLast Hi).
      * simpl drop. f_equal. lia.
      * intros j c' Hj Hl. apply (Hpre (S j) c'); [lia|exact Hl].
Qed.

Lemma locateItems_all_before cs : forall base pathSoFar failedLast,
  (forall c, c ∈ cs -> liesBefore c) ->
  locateItems position cs base pathSoFar failedLast = Throw outsideBounds.
Proof.
  induction cs as [|c cs IH]; intros base pathSoFar failedLast Hall;
    [reflexivity|].
  destruct (Hall c (list_elem_of_here _ _)) as [Hc Hs]. simpl. rewrite Hc.
  assert ((start c >? position) = false) as -> by lia.
  apply IH. intros c' Hc'. apply Hall. by apply list_elem_of_further.
Qed.

(** C4 (amended): in a sequence node the items are scanned in order
    for the first one that contains the offset or starts after it.  If
    it contains the offset, the search recurses into it with its index
    prefixed.  If it only starts after the offset, the search stops
    there: with the previous index prefixed when the item is not the
    first, and with the path so far unchanged (no index) when it is the
    first.  If every item lies before the offset (or there is none),
    the internal error "cursor outside bounds" is raised. *)
Theorem locate_in_sequence node pathSoFar failedLast :
  isSequenceKind (kind node) = true ->
  (forall i c,
      components node !! i = Some c ->
      (forall j c', (j < i)%nat -> components node !! j = Some c' ->
                    liesBefore c') ->
      covers c position = true ->
      locate position node pathSoFar failedLast
      = locate position c [JNum (Z.of_nat i); JArr pathSoFar] failedLast) /\
  (forall i c,
      components node !! i = Some c ->
      (forall j c', (j < i)%nat -> components node !! j = Some c' ->
                    liesBefore c') ->
      covers c position = false -> position < start c -> (0 < i)%nat ->
      locate position node pathSoFar failedLast
      = Ret ([JNum (Z.of_nat i - 1); JArr pathSoFar], failedLast)) /\
  (forall c,
      components node !! 0%nat = Some c ->
      covers c position = false -> position < start c ->
      locate position node pathSoFar failedLast
      = Ret (pathSoFar, failedLast)) /\
  ((forall c, c ∈ components node -> liesBefore c) ->
      locate position node pathSoFar failedLast = Throw outsideBounds).
Proof.
  intros Hseq. rewrite (locate_sequence_loop _ _ _ Hseq).
  repeat split.
  - intros i c Hi Hpre Hc.
    rewrite (locateItems_skip _ 0 i c _ _ Hi Hpre), Z.add_0_l.
    rewrite (drop_S _ _ _ Hi). simpl. rewrite Hc. reflexivity.
  - intros i c Hi Hpre Hc Hs Hpos.
    rewrite (locateItems_skip _ 0 i c _ _ Hi Hpre), Z.add_0_l.
    rewrite (drop_S _ _ _ Hi). simpl. rewrite Hc.
    assert ((start c >? position) = true) as -> by lia.
    assert ((Z.of_nat i =? 0) = false) as -> by lia. reflexivity.
  - intros c Hi Hc Hs.
    destruct (components node) as [|c0 cs]; [discriminate|].
    inversion Hi; subst. simpl. rewrite Hc.
    assert ((start c >? position) = true) as -> by lia. reflexivity.
  - intros Hall. apply locateItems_all_before. exact Hall.
Qed.

End LocateFacts.

(** C4, as stated, fails on both ends of a sequence: past the last item
    (here still inside the sequence node, on the line after it) the
    locator raises, and before the first item it returns the path so far
    without any index. *)
Lemma locate_sequence_counterexample :
  let items := sequence 4 12 [scalar 6 7 (JStr "a"); scalar 10 11 (JStr "b")] in
  locateCursor items 12 = Throw outsideBounds
  /\ locate 12 items [JStr "k"] false = Throw outsideBounds
  /\ locate 5 items [JStr "k"] false = Ret ([JStr "k"], false)
  /\ locateCursor items 5 = Ret {| withError := false; value := [] |}.
Proof. repeat split. Qed.

Lemma locate_in_sequence_witness :
  locate 6 (sequence 4 9 [scalar 4 5 (JStr "a"); scalar 8 9 (JStr "b")])
         [JStr "k"] false
  = Ret ([JNum 0; JArr [JStr "k"]], false).
Proof.
  pose proof (locate_in_sequence 6
                (sequence 4 9 [scalar 4 5 (JStr "a"); scalar 8 9 (JStr "b")])
                [JStr "k"] false eq_refl) as (_ & Hafter & _).
  apply (Hafter 1%nat (scalar 8 9 (JStr "b")) eq_refl);
    [|reflexivity|reflexivity|lia].
  intros [|j] c' Hj Hc'; [|lia]. inversion Hc'. split; [reflexivity|simpl; lia].
Defined.

(** ** Strings and lines *)

Section TextFacts.

Import Text.

Lemma sapp_nil_l (t : string) : "" +:+ t = t.
Proof. reflexivity. Qed.

Lemma sapp_cons (c : ascii) (s t : string) :
  String c s +:+ t = String c (s +:+ t).
Proof. reflexivity. Qed.

Lemma sapp_nil_r (s : string) : s +:+ "" = s.
Proof. induction s as [|c s IH]; [reflexivity|]. rewrite sapp_cons, IH. reflexivity. Qed.

Lemma sapp_assoc (a b c : string) : (a +:+ b) +:+ c = a +:+ (b +:+ c).
Proof.
  induction a as [|x a IH]; [reflexivity|]. rewrite !sapp_cons, IH. reflexivity.
Qed.

Lemma slength_app (a b : string) :
  String.length (a +:+ b) = (String.length a + String.length b)%nat.
Proof.
  induction a as [|x a IH]; [reflexivity|]. rewrite sapp_cons. simpl.
  rewrite IH. reflexivity.
Qed.

Lemma strlen_app (a b : string) : strlen (a +:+ b) = strlen a + strlen b.
Proof. unfold strlen. rewrite slength_app. lia. Qed.

Lemma strlen_nonneg (s : string) : 0 <= strlen s.
Proof. unfold strlen. lia. Qed.

Lemma substring_whole (s : string) (m : nat) :
  (String.length s <= m)%nat -> String.substring 0 m s = s.
Proof.
  revert m. induction s as [|c s IH]; intros [|m] H; simpl in *;
    try reflexivity; try lia.
  rewrite IH by lia. reflexivity.
Qed.

Lemma substring_prefix_app (a b : string) :
  String.substring 0 (String.length a) (a +:+ b) = a.
Proof.
  induction a as [|c a IH].
  - destruct b; reflexivity.
  - rewrite sapp_cons. simpl. rewrite IH. reflexivity.
Qed.

Lemma substring_skip_app (a b : string) (n m : nat) :
  String.substring (String.length a + n) m (a +:+ b) = String.substring n m b.
Proof.
  induction a as [|c a IH]; [reflexivity|]. rewrite sapp_cons. simpl. exact IH.
Qed.

(** [substring] between two offsets in order and inside the string. *)
Lemma substring_in_range (s : string) (a b : Z) :
  0 <= a <= b -> b <= strlen s ->
  substring s a b = String.substring (Z.to_nat a) (Z.to_nat (b - a)) s.
Proof.
  intros Ha Hb. unfold substring, clampIndex.
  rewrite !Z.max_l, !Z.min_l by lia.
  rewrite Nat.min_l, Nat.max_r by lia. f_equal. lia.
Qed.

Lemma substring_head (a b : string) : substring (a +:+ b) 0 (strlen a) = a.
Proof.
  rewrite substring_in_range.
  - rewrite Z.sub_0_r. unfold strlen. rewrite Nat2Z.id. apply substring_prefix_app.
  - pose proof (strlen_nonneg a). lia.
  - rewrite strlen_app. pose proof (strlen_nonneg b). lia.
Qed.

Lemma substring_tail (a b : string) :
  substring (a +:+ b) (strlen a) (strlen (a +:+ b)) = b.
Proof.
  pose proof (strlen_nonneg a). pose proof (strlen_nonneg b).
  rewrite substring_in_range; [|rewrite strlen_app; lia|lia].
  rewrite strlen_app. unfold strlen.
  replace (Z.to_nat (Z.of_nat (String.length a)))
    with (String.length a + 0)%nat by lia.
  rewrite substring_skip_app. apply substring_whole. lia.
Qed.

Lemma lines_nonempty (s : string) : lines s <> [].
Proof.
  induction s as [|c s IH]; simpl; [discriminate|].
  destruct (Ascii.eqb c newline); [discriminate|].
  destruct (lines s); discriminate.
Qed.

Lemma lines_lineFree (s : string) : Forall (fun l => lineFree l = true) (lines s).
Proof.
  induction s as [|c s IH]; simpl.
  - constructor; [reflexivity|constructor].
  - destruct (Ascii.eqb c newline) eqn:Hc.
    + constructor; [reflexivity|exact IH].
    + destruct (lines s) as [|l ls]; [constructor; [simpl; rewrite Hc; reflexivity|constructor]|].
      inversion IH; subst. constructor; [|assumption].
      simpl. rewrite Hc. assumption.
Qed.

Lemma joinLines_cons (l : string) (ls : list string) :
  ls <> [] -> joinLines (l :: ls) = l +:+ LF +:+ joinLines ls.
Proof. destruct ls; [congruence|reflexivity]. Qed.

Lemma joinLines_lines (s : string) : joinLines (lines s) = s.
Proof.
  induction s as [|c s IH]; [reflexivity|]. simpl.
  destruct (Ascii.eqb c newline) eqn:Hc.
  - apply Ascii.eqb_eq in Hc. subst c.
    rewrite joinLines_cons by apply lines_nonempty. rewrite IH. reflexivity.
  - pose proof (lines_nonempty s) as Hne.
    destruct (lines s) as [|l ls]; [congruence|].
    destruct ls as [|l' ls].
    + unfold joinLines in *. simpl in *. rewrite IH. reflexivity.
    + rewrite joinLines_cons in * by discriminate.
      rewrite sapp_cons, IH. reflexivity.
Qed.

Lemma lines_app_lineFree (a t : string) :
  lineFree a = true ->
  lines (a +:+ t) =
    match lines t with
    | l :: ls => (a +:+ l) :: ls
    | [] => [a]
    end.
Proof.
  induction a as [|c a IH]; intros Ha.
  - rewrite sapp_nil_l. pose proof (lines_nonempty t).
    destruct (lines t); [congruence|reflexivity].
  - simpl in Ha. apply andb_true_iff in Ha as [Hc Ha].
    apply negb_true_iff in Hc. rewrite sapp_cons. simpl. rewrite Hc.
    rewrite (IH Ha). pose proof (lines_nonempty t).
    destruct (lines t); [congruence|reflexivity].
Qed.

Lemma lines_LF_app (t : string) : lines (LF +:+ t) = "" :: lines t.
Proof. reflexivity. Qed.

Lemma lines_of_lineFree (l : string) : lineFree l = true -> lines l = [l].
Proof.
  intros Hl. pose proof (lines_app_lineFree l "" Hl) as H.
  rewrite sapp_nil_r in H. change (lines "") with [""] in H. cbv iota in H.
  rewrite sapp_nil_r in H. exact H.
Qed.

Lemma lines_joinLines (ls : list string) :
  ls <> [] -> Forall (fun l => lineFree l = true) ls ->
  lines (joinLines ls) = ls.
Proof.
  induction ls as [|l ls IH]; intros Hne Hall; [congruence|].
  inversion Hall as [|? ? Hl Hrest]; subst.
  destruct ls as [|l' ls].
  - change (joinLines [l]) with l. apply lines_of_lineFree. exact Hl.
  - rewrite joinLines_cons by discriminate.
    rewrite (lines_app_lineFree l _ Hl), lines_LF_app, sapp_nil_r.
    rewrite IH by (discriminate || assumption). reflexivity.
Qed.

Lemma joinLines_app (a b : list string) :
  a <> [] -> b <> [] ->
  joinLines (a ++ b) = joinLines a +:+ LF +:+ joinLines b.
Proof.
  induction a as [|x a IH]; intros Ha Hb; [congruence|].
  destruct a as [|y a].
  - simpl app. rewrite joinLines_cons by assumption. reflexivity.
  - change ((x :: y :: a) ++ b) with (x :: ((y :: a) ++ b)).
    rewrite joinLines_cons by discriminate.
    rewrite IH by (discriminate || assumption).
    rewrite (joinLines_cons x (y :: a)) by discriminate.
    rewrite !sapp_assoc. reflexivity.
Qed.

Lemma lineFree_substring_nat (s : string) : forall n m,
  lineFree s = true -> lineFree (String.substring n m s) = true.
Proof.
  induction s as [|c s IH]; intros n m H.
  - destruct n, m; reflexivity.
  - simpl in H. apply andb_true_iff in H as [Hc Hs].
    destruct n as [|n]; destruct m as [|m]; simpl; try reflexivity.
    + rewrite Hc. simpl. apply IH. exact Hs.
    + apply IH. exact Hs.
    + apply IH. exact Hs.
Qed.

Lemma lineFree_substring (s : string) (a b : Z) :
  lineFree s = true -> lineFree (substring s a b) = true.
Proof. intros H. unfold substring. apply lineFree_substring_nat. exact H. Qed.

End TextFacts.

(** ** Reparse search *)

Section RangedFacts.

Import Text Ranged.

Lemma rangesFrom_length ls : forall off, length (rangesFrom off ls) = length ls.
Proof. induction ls as [|l ls IH]; intros off; simpl; [reflexivity|]. by rewrite IH. Qed.

Lemma rangesFrom_lookup ls : forall off i l,
  ls !! i = Some l ->
  rangesFrom off ls !! i
  = Some (MkRanged l (MkRange (off + lead ls i) (off + lead ls i + strlen l))).
Proof.
  induction ls as [|l0 ls IH]; intros off i l Hi.
  - rewrite lookup_nil in Hi. discriminate.
  - destruct i as [|i]; simpl in *.
    + inversion Hi; subst. rewrite Z.add_0_r. reflexivity.
    + rewrite (IH _ _ _ Hi). do 3 f_equal; lia.
Qed.

Lemma take_nonempty {A : Type} (l : list A) (i : nat) :
  (0 < i)%nat -> l <> [] -> take i l <> [].
Proof. destruct i, l; simpl; (congruence || lia). Qed.

Lemma lead_joinLines ls : forall i,
  (0 < i <= length ls)%nat ->
  lead ls i = strlen (joinLines (take i ls)) + 1.
Proof.
  induction ls as [|l ls IH]; intros i Hi; simpl in Hi; [lia|].
  destruct i as [|i]; [lia|]. simpl lead. simpl take.
  destruct i as [|i].
  - rewrite take_0. change (joinLines [l]) with l.
    assert (lead ls 0 = 0) as -> by (destruct ls; reflexivity). lia.
  - assert (ls <> []) as Hne by (destruct ls; simpl in Hi; [lia|discriminate]).
    rewrite joinLines_cons by (apply take_nonempty; [lia|exact Hne]).
    rewrite !strlen_app, (IH (S i)) by lia.
    change (strlen LF) with 1. lia.
Qed.

Lemma lead_succ ls : forall i l,
  ls !! i = Some l -> lead ls (S i) = lead ls i + strlen l + 1.
Proof.
  induction ls as [|l0 ls IH]; intros i l Hi.
  - rewrite lookup_nil in Hi. discriminate.
  - destruct i as [|i]; simpl in Hi.
    + inversion Hi; subst.
      change (lead (l :: ls) 1) with (strlen l + 1 + lead ls 0).
      change (lead (l :: ls) 0) with 0.
      assert (lead ls 0 = 0) as -> by (destruct ls; reflexivity). lia.
    + change (lead (l0 :: ls) (S (S i))) with (strlen l0 + 1 + lead ls (S i)).
      change (lead (l0 :: ls) (S i)) with (strlen l0 + 1 + lead ls i).
      rewrite (IH _ _ Hi). lia.
Qed.

(** The text before line [r] (without its final line feed). *)
Lemma text_before ls r prev :
  (0 < r)%nat -> ls !! (r - 1)%nat = Some prev -> (r < length ls)%nat ->
  Text.substring (joinLines ls) 0 (lead ls (r - 1) + strlen prev)
  = joinLines (take r ls).
Proof.
  intros Hr Hprev Hlen.
  assert (lead ls (r - 1) + strlen prev = strlen (joinLines (take r ls))) as ->.
  { pose proof (lead_succ ls (r - 1) prev Hprev) as Hs.
    replace (S (r - 1)) with r in Hs by lia.
    rewrite (lead_joinLines ls r) in Hs by lia. lia. }
  rewrite <- (take_drop r ls) at 1.
  rewrite joinLines_app.
  - apply substring_head.
  - apply take_nonempty; [lia|]. destruct ls; simpl in *; [lia|discriminate].
  - intros Hd. apply (f_equal length) in Hd. rewrite length_drop in Hd.
    simpl in Hd. lia.
Qed.

(** The text from line [r + 1] on. *)
Lemma text_after ls r last :
  (S r < length ls)%nat -> ls !! (length ls - 1)%nat = Some last ->
  Text.substring (joinLines ls) (lead ls (S r))
            (lead ls (length ls - 1) + strlen last)
  = joinLines (drop (S r) ls).
Proof.
  intros Hlen Hlast.
  assert (lead ls (length ls - 1) + strlen last = strlen (joinLines ls)) as ->.
  { pose proof (lead_succ ls _ last Hlast) as Hs.
    replace (S (length ls - 1)) with (length ls) in Hs by lia.
    rewrite (lead_joinLines ls (length ls)) in Hs by lia.
    rewrite firstn_all in Hs. lia. }
  rewrite (lead_joinLines ls (S r)) by lia.
  assert (joinLines ls
          = (joinLines (take (S r) ls) +:+ LF) +:+ joinLines (drop (S r) ls))
    as Hsplit.
  { rewrite <- (take_drop (S r) ls) at 1.
    rewrite joinLines_app, sapp_assoc; [reflexivity| |].
    - apply take_nonempty; [lia|]. destruct ls; simpl in *; [lia|discriminate].
    - intros Hd. apply (f_equal length) in Hd. rewrite length_drop in Hd.
      simpl in Hd. lia. }
  rewrite Hsplit at 1 2.
  replace (strlen (joinLines (take (S r) ls)) + 1)
    with (strlen (joinLines (take (S r) ls) +:+ LF))
    by (rewrite strlen_app; reflexivity).
  apply substring_tail.
Qed.

End RangedFacts.

Section ReparseFacts.

Import Text.

Variable Tree : Type.
Variable parse : string -> Tree.
Variable rootType : Tree -> string.

Local Abbreviation shrink' := (shrink Tree parse).
Local Abbreviation attemptAt' := (attemptAt Tree parse).
Local Abbreviation run' := (attemptParsesAtLine Tree parse).
Local Abbreviation yielded' := (yielded Tree rootType).
Local Abbreviation clean' := (clean Tree rootType).

Lemma at_Some {A : Type} (l : list A) (i : nat) (a : A) :
  l !! i = Some a -> at_ l (Z.of_nat i) = Some a.
Proof.
  intros H. unfold at_. destruct (Z.ltb_spec (Z.of_nat i) 0); [lia|].
  rewrite Nat2Z.id. exact H.
Qed.

Lemma at_inv {A : Type} (l : list A) (i : Z) (a : A) :
  at_ l i = Some a -> 0 <= i /\ l !! Z.to_nat i = Some a.
Proof.
  unfold at_. destruct (Z.ltb_spec i 0); [discriminate|].
  intros Hl. split; [lia|exact Hl].
Qed.

(** One iteration splices the untouched lines around the cut line. *)
Lemma spliceChunks_value (text : string) (position : Position) (line : string)
    (currentColumn : Z) :
  at_ (lines text) (row position) = Some line ->
  exists chunks,
    spliceChunks (Ranged.rangedLines text) position line currentColumn
      = Some chunks /\
    concatStrings (map (MappedText.chunkValue text) chunks)
      = joinLines (<[Z.to_nat (row position) :=
                       substring line 0 currentColumn]> (lines text)).
Proof.
  intros Hline. apply at_inv in Hline as [Hrow Hline].
  set (ls := lines text) in *. set (r := Z.to_nat (row position)) in *.
  set (cut := substring line 0 currentColumn).
  pose proof (lookup_lt_Some _ _ _ Hline) as Hr.
  assert (text = joinLines ls) as Htext by (symmetry; apply joinLines_lines).
  unfold spliceChunks, Ranged.rangedLines. fold ls.
  rewrite rangesFrom_length.
  rewrite (insert_take_drop ls r cut Hr).
  assert (row position = Z.of_nat r) as Hrow' by (subst r; lia).
  rewrite Z.gtb_ltb.
  destruct (Z.ltb_spec 0 (row position)) as [Hpos|Hpos];
    destruct (Z.ltb_spec (row position + 1) (Z.of_nat (length ls)))
      as [Hnext|Hnext].
  - destruct (lookup_lt_is_Some_2 ls (r - 1)%nat ltac:(lia)) as [prev Hprev].
    destruct (lookup_lt_is_Some_2 ls (S r) ltac:(lia)) as [next Hn].
    destruct (lookup_lt_is_Some_2 ls (length ls - 1)%nat ltac:(lia)) as [last Hl].
    replace (row position - 1) with (Z.of_nat (r - 1)) by lia.
    replace (row position + 1) with (Z.of_nat (S r)) by lia.
    replace (Z.of_nat (length ls) - 1) with (Z.of_nat (length ls - 1)) by lia.
    rewrite (at_Some _ _ _ (rangesFrom_lookup ls 0 _ _ Hprev)),
            (at_Some _ _ _ (rangesFrom_lookup ls 0 _ _ Hn)),
            (at_Some _ _ _ (rangesFrom_lookup ls 0 _ _ Hl)).
    eexists. split; [reflexivity|]. simpl. rewrite !Z.add_0_l.
    rewrite Htext, (text_before ls r prev), (text_after ls r last) by (lia || assumption).
    rewrite (joinLines_app (take r ls));
      [|apply take_nonempty; [lia|destruct ls; [simpl in Hr; lia|discriminate]]
       |discriminate].
    rewrite joinLines_cons, sapp_nil_r; [reflexivity|].
    intros Hd. apply (f_equal length) in Hd. rewrite length_drop in Hd.
    simpl in Hd. lia.
  - destruct (lookup_lt_is_Some_2 ls (r - 1)%nat ltac:(lia)) as [prev Hprev].
    replace (row position - 1) with (Z.of_nat (r - 1)) by lia.
    rewrite (at_Some _ _ _ (rangesFrom_lookup ls 0 _ _ Hprev)).
    eexists. split; [reflexivity|]. simpl. rewrite !Z.add_0_l.
    rewrite Htext, (text_before ls r prev) by (lia || assumption).
    rewrite drop_ge by lia.
    rewrite (joinLines_app (take r ls));
      [|apply take_nonempty; [lia|destruct ls; [simpl in Hr; lia|discriminate]]
       |discriminate].
    rewrite sapp_nil_r. reflexivity.
  - destruct (lookup_lt_is_Some_2 ls (S r) ltac:(lia)) as [next Hn].
    destruct (lookup_lt_is_Some_2 ls (length ls - 1)%nat ltac:(lia)) as [last Hl].
    replace (row position + 1) with (Z.of_nat (S r)) by lia.
    replace (Z.of_nat (length ls) - 1) with (Z.of_nat (length ls - 1)) by lia.
    rewrite (at_Some _ _ _ (rangesFrom_lookup ls 0 _ _ Hn)),
            (at_Some _ _ _ (rangesFrom_lookup ls 0 _ _ Hl)).
    eexists. split; [reflexivity|]. simpl. rewrite !Z.add_0_l.
    rewrite Htext, (text_after ls r last) by (lia || assumption).
    assert (r = 0%nat) as -> by lia. rewrite take_0. simpl app.
    rewrite joinLines_cons, sapp_nil_r; [reflexivity|].
    intros Hd. apply (f_equal length) in Hd. rewrite length_drop in Hd.
    simpl in Hd. lia.
  - eexists. split; [reflexivity|]. simpl.
    assert (r = 0%nat) as -> by lia. rewrite take_0, drop_ge by lia.
    rewrite sapp_nil_r. reflexivity.
Qed.

Lemma attemptAt_shift code codeLines position line cc d k :
  attemptAt' code codeLines position line cc d (1 + k)
  = attemptAt' code codeLines position line (cc - 1) (d + 1) k.
Proof.
  unfold attemptAt.
  replace (cc - (1 + k)) with (cc - 1 - k) by lia.
  replace (d + (1 + k)) with (d + 1 + k) by lia. reflexivity.
Qed.

(** With the cursor's row inside the text, the loop makes one attempt
    per column, ends normally, and needs no more budget than the
    column. *)
Lemma shrink_exact code position line :
  at_ (lines (MappedText.value code)) (row position) = Some line ->
  forall budget cc d,
    (Z.to_nat cc <= budget)%nat ->
    shrink' budget code (Ranged.rangedLines (MappedText.value code))
            position line cc d
    = MkRun Tree
        (attemptAt' code (Ranged.rangedLines (MappedText.value code))
                    position line cc d <$> seqZ 1 cc)
        Done.
Proof.
  intros Hline. induction budget as [|budget IH]; intros cc d Hb.
  - simpl. rewrite seqZ_nil by lia. reflexivity.
  - simpl shrink. rewrite Z.gtb_ltb.
    destruct (Z.ltb_spec 0 cc) as [Hcc|Hcc].
    + destruct (spliceChunks_value _ position line (cc - 1) Hline)
        as (chunks & Hsplice & _).
      rewrite Hsplice, (IH (cc - 1) (d + 1)) by lia. simpl.
      rewrite (seqZ_cons 1 cc) by lia. rewrite fmap_cons. f_equal. f_equal.
      * unfold attemptAt. rewrite Hsplice. reflexivity.
      * change (Z.succ 1) with (1 + 1). rewrite <- fmap_add_seqZ.
        rewrite <- list_fmap_compose. replace (Z.pred cc) with (cc - 1) by lia.
        apply list_fmap_ext. intros i k _. simpl. symmetry.
        apply attemptAt_shift.
    + rewrite seqZ_nil by lia. reflexivity.
Qed.

Lemma attemptAt_value code position line cc d k :
  at_ (lines (MappedText.value code)) (row position) = Some line ->
  MappedText.value
    (Reparse.code (attemptAt' code (Ranged.rangedLines (MappedText.value code))
                              position line cc d k))
  = joinLines (<[Z.to_nat (row position) := substring line 0 (cc - k)]>
                 (lines (MappedText.value code))).
Proof.
  intros Hline.
  destruct (spliceChunks_value _ position line (cc - k) Hline)
    as (chunks & Hsplice & Hvalue).
  unfold attemptAt. rewrite Hsplice. simpl. exact Hvalue.
Qed.

Lemma truncatedText_sameOutsideLine original position k :
  sameOutsideLine original (truncatedText original position k) (row position).
Proof.
  unfold truncatedText.
  destruct (at_ (lines original) (row position)) as [line|] eqn:Hline;
    [|split; reflexivity].
  apply at_inv in Hline as [Hrow Hline].
  assert (lines (joinLines (<[Z.to_nat (row position) :=
                                substring line 0 (column position - k)]>
                              (lines original)))
          = <[Z.to_nat (row position) :=
                substring line 0 (column position - k)]> (lines original))
    as Hlines.
  { apply lines_joinLines.
    - intros Hnil. apply (f_equal length) in Hnil.
      rewrite length_insert in Hnil. pose proof (lines_nonempty original).
      destruct (lines original); [congruence|discriminate].
    - apply Forall_insert; [apply lines_lineFree|].
      apply lineFree_substring.
      pose proof (lines_lineFree original) as Hall.
      rewrite Forall_forall in Hall. apply Hall.
      eapply list_elem_of_lookup_2. exact Hline. }
  split.
  - rewrite Hlines, length_insert. reflexivity.
  - intros i Hi. rewrite Hlines. rewrite list_lookup_insert_ne; [reflexivity|].
    lia.
Qed.

Lemma filter_StronglySorted {A : Type} (R : A -> A -> Prop) (p : A -> bool) l :
  StronglySorted R l -> StronglySorted R (List.filter p l).
Proof.
  induction 1 as [|a l Hs IH Hall]; simpl; [constructor|].
  destruct (p a); [|exact IH]. constructor; [exact IH|].
  rewrite Forall_forall in *. intros x Hx. apply Hall.
  apply list_elem_of_In in Hx. apply filter_In in Hx as [Hx _].
  apply list_elem_of_In. exact Hx.
Qed.

Lemma seqZ_StronglySorted m n : StronglySorted Z.lt (seqZ m n).
Proof.
  destruct (Z.le_gt_cases n 0) as [Hn|Hn]; [rewrite seqZ_nil by lia; constructor|].
  rewrite <- (Z2Nat.id n) by lia. generalize (Z.to_nat n). clear Hn n.
  intros n. revert m. induction n as [|n IH]; intros m.
  - rewrite seqZ_nil by lia. constructor.
  - rewrite seqZ_cons by lia. constructor.
    + replace (Z.pred (Z.of_nat (S n))) with (Z.of_nat n) by lia. apply IH.
    + apply Forall_seqZ. intros k Hk. lia.
Qed.

Lemma at_rangedLines_None text i :
  at_ (lines text) i = None -> at_ (Ranged.rangedLines text) i = None.
Proof.
  unfold at_, Ranged.rangedLines. destruct (i <? 0); [reflexivity|].
  intros H. apply lookup_ge_None. rewrite rangesFrom_length.
  apply lookup_ge_None in H. exact H.
Qed.

Lemma at_rangedLines_Some text i line :
  at_ (lines text) i = Some line ->
  exists rg, at_ (Ranged.rangedLines text) i = Some (Ranged.MkRanged line rg).
Proof.
  intros H. apply at_inv in H as [Hi H].
  pose proof (at_Some _ _ _ (rangesFrom_lookup _ 0 _ _ H)) as Hr.
  rewrite Z2Nat.id in Hr by lia. eexists. exact Hr.
Qed.

(** The run, attempt by attempt. *)
Lemma run_attempts code position :
  let original := asMapped code in
  let first := MkCandidate (parse (MappedText.value original)) original 0 in
  match at_ (lines (MappedText.value original)) (row position) with
  | None => run' code position = MkRun Tree [first] (Raised TypeError)
  | Some line =>
      run' code position
      = MkRun Tree
          (first :: (attemptAt' original
                       (Ranged.rangedLines (MappedText.value original))
                       position line (column position) 0
                     <$> seqZ 1 (column position)))
          Done
  end.
Proof.
  intros original first. unfold attemptParsesAtLine. fold original.
  destruct (at_ (lines (MappedText.value original)) (row position))
    as [line|] eqn:Hline.
  - destruct (at_rangedLines_Some _ _ _ Hline) as [rg ->].
    simpl Ranged.substring.
    rewrite (shrink_exact original position line Hline) by lia. reflexivity.
  - rewrite (at_rangedLines_None _ _ Hline). reflexivity.
Qed.

Lemma Forall_list_filter {A : Type} (P : A -> Prop) (p : A -> bool) l :
  Forall P l -> Forall P (List.filter p l).
Proof.
  induction 1 as [|a l Ha Hl IH]; simpl; [constructor|].
  destruct (p a); [constructor; assumption|exact IH].
Qed.

(** What every attempt of a run satisfies, clean or not. *)
Lemma run_attempts_facts code position :
  let original := asMapped code in
  let run := run' code position in
  Z.of_nat (length (attempts run)) <= Z.max 0 (column position) + 1 /\
  StronglySorted (fun a b : Candidate Tree => deletions a < deletions b)
                 (attempts run) /\
  Forall (fun c =>
            0 <= deletions c <= Z.max 0 (column position) /\
            MappedText.value (Reparse.code c)
            = (if deletions c =? 0 then MappedText.value original
               else truncatedText (MappedText.value original) position
                                  (deletions c)))
         (attempts run).
Proof.
  intros original run. subst run.
  pose proof (run_attempts code position) as Hrun. cbv zeta in Hrun.
  fold original in Hrun.
  destruct (at_ (lines (MappedText.value original)) (row position))
    as [line|] eqn:Hline; rewrite Hrun; simpl attempts.
  - split; [|split].
    + simpl length. rewrite length_fmap, length_seqZ. lia.
    + constructor.
      * apply (StronglySorted_fmap _ Z.lt); [|apply seqZ_StronglySorted].
        intros x y Hxy. simpl. lia.
      * apply Forall_fmap, Forall_seqZ. intros k Hk. simpl. lia.
    + constructor; [split; [simpl; lia|reflexivity]|].
      apply Forall_fmap, Forall_seqZ. intros k Hk. unfold compose.
      split; [simpl; lia|].
      rewrite (attemptAt_value original position line _ _ _ Hline).
      assert (deletions (attemptAt' original
                (Ranged.rangedLines (MappedText.value original)) position line
                (column position) 0 k) = k) as -> by (simpl; lia).
      destruct (Z.eqb_spec k 0) as [->|_]; [lia|].
      unfold truncatedText. rewrite Hline. reflexivity.
  - split; [|split].
    + simpl. lia.
    + repeat constructor.
    + constructor; [split; [simpl; lia|reflexivity]|constructor].
Qed.

(** C5 (amended): the reparse search makes at most [max(column, 0) + 1]
    parse attempts, the parse of the untouched text being made at any
    column; the candidates it yields have between 0 and
    [max(column, 0)] deletions, in strictly increasing order; and the
    text of each candidate is the original text, or the original text
    with the cursor's line cut short, every other line being the
    same. *)
Theorem reparse_search_bounded code position :
  let original := asMapped code in
  let run := run' code position in
  Z.of_nat (length (attempts run)) <= Z.max 0 (column position) + 1 /\
  Forall (fun c => 0 <= deletions c <= Z.max 0 (column position))
         (yielded' run) /\
  StronglySorted Z.lt (deletions <$> yielded' run) /\
  Forall (fun c =>
            MappedText.value (Reparse.code c)
            = (if deletions c =? 0 then MappedText.value original
               else truncatedText (MappedText.value original) position
                                  (deletions c)) /\
            sameOutsideLine (MappedText.value original)
                            (MappedText.value (Reparse.code c))
                            (row position))
         (yielded' run).
Proof.
  intros original run.
  destruct (run_attempts_facts code position) as (Hlen & Hsorted & Hall).
  fold original in Hall. fold run in Hlen, Hsorted, Hall.
  split; [exact Hlen|]. unfold yielded. split; [|split].
  - apply Forall_list_filter. eapply Forall_impl; [exact Hall|].
    intros c [Hc _]. exact Hc.
  - apply (StronglySorted_fmap _ (fun a b : Candidate Tree => deletions a < deletions b)).
    + intros x y Hxy. exact Hxy.
    + apply filter_StronglySorted. exact Hsorted.
  - apply Forall_list_filter. eapply Forall_impl; [exact Hall|].
    intros c [_ Hc]. split; [exact Hc|]. rewrite Hc.
    destruct (deletions c =? 0); [split; reflexivity|].
    apply truncatedText_sameOutsideLine.
Qed.


End ReparseFacts.



(** C5, as stated, fails: at a cursor with a negative column, which
    the script dispatcher hands over for a cursor inside the comment
    prefix of an option line, the search still parses the untouched
    text, one attempt where [column + 1] is negative, and yields it
    with 0 deletions, more than [column]. *)
Lemma reparse_search_counterexample :
  let position := MkPosition 0 (-2) in
  let run := attemptParsesAtLine string DemoParser.parse
               (MappedText.Plain "echo") position in
  (fun c => (MappedText.value (code c), deletions c))
    <$> yielded string DemoParser.rootType run = [("echo", 0)] /\
  ~ (Z.of_nat (length (attempts run)) <= column position + 1) /\
  ~ Forall (fun c => 0 <= deletions c <= column position)
           (yielded string DemoParser.rootType run).
Proof.
  split; [vm_compute; reflexivity|]. split.
  - vm_compute. intros H. apply H. reflexivity.
  - intros H. apply Forall_inv in H. simpl in H. lia.
Qed.

Lemma reparse_search_bounded_witness :
  let run := attemptParsesAtLine string DemoParser.parse
               (MappedText.Plain "a: [") (MkPosition 0 4) in
  Z.of_nat (length (attempts run)) <= 4 + 1 /\
  Forall (fun c => 0 <= deletions c <= 4) (yielded string DemoParser.rootType run).
Proof.
  destruct (reparse_search_bounded string DemoParser.parse DemoParser.rootType
              (MappedText.Plain "a: [") (MkPosition 0 4))
    as (Hlen & Hdel & _).
  split; [exact Hlen|exact Hdel].
Defined.

(** The same search over a document of three lines. *)
Example reparse_middle_line :
  let run := attemptParsesAtLine string DemoParser.parse
               (MappedText.Plain (Text.joinLines ["a: 1"; "b: ["; "c: 3"]))
               (MkPosition 1 4) in
  (fun c => (Text.lines (MappedText.value (code c)), deletions c))
    <$> yielded string DemoParser.rootType run
  = [(["a: 1"; "b: "; "c: 3"], 1); (["a: 1"; "b:"; "c: 3"], 2);
     (["a: 1"; "b"; "c: 3"], 3); (["a: 1"; ""; "c: 3"], 4)].
Proof. vm_compute. reflexivity. Qed.

(** ** Completion generator *)

Section CompletionFacts.

Import Completion.

Variable schemaType : Schema -> string.
Variable schemaTypeOfUndefined : outcome string.
Variable schemaCompletions : Schema -> list Item.
Variable localeCompare : string -> string -> Z.

Local Abbreviation completions' :=
  (completions schemaType schemaTypeOfUndefined schemaCompletions localeCompare).
Local Abbreviation candidates' :=
  (candidates schemaType schemaTypeOfUndefined schemaCompletions).
Local Abbreviation sortByValue' := (sortByValue localeCompare).
Local Abbreviation insertBy' := (insertBy localeCompare).

Local Abbreviation before := (Completion.before localeCompare).

Lemma insertBy_Permutation x l : Permutation (insertBy' x l) (x :: l).
Proof.
  induction l as [|y l IH]; simpl; [reflexivity|].
  destruct (localeCompare (value x) (value y) <=? 0); [reflexivity|].
  rewrite IH. apply perm_swap.
Qed.

Lemma sortByValue_Permutation l : Permutation (sortByValue' l) l.
Proof.
  induction l as [|x l IH]; simpl; [reflexivity|].
  rewrite insertBy_Permutation, IH. reflexivity.
Qed.

Section Consistent.

(** The comparator is a consistent one: total and transitive. *)
Hypothesis compare_total :
  forall a b, localeCompare a b <= 0 \/ localeCompare b a <= 0.
Hypothesis compare_trans :
  forall a b c,
    localeCompare a b <= 0 -> localeCompare b c <= 0 -> localeCompare a c <= 0.

Lemma insertBy_sorted x l :
  StronglySorted before l -> StronglySorted before (insertBy' x l).
Proof.
  induction 1 as [|y l Hs IH Hall]; simpl; [repeat constructor|].
  destruct (Z.leb_spec (localeCompare (value x) (value y)) 0) as [Hle|Hgt].
  - constructor; [constructor; assumption|].
    constructor; [exact Hle|].
    eapply Forall_impl; [exact Hall|]. intros z Hz.
    unfold before in *. eapply compare_trans; eassumption.
  - constructor; [exact IH|].
    rewrite Forall_forall. intros z Hz.
    rewrite insertBy_Permutation in Hz.
    apply elem_of_cons in Hz as [->|Hz].
    + unfold before. destruct (compare_total (value y) (value x)); [assumption|lia].
    + rewrite Forall_forall in Hall. apply Hall. exact Hz.
Qed.

Lemma sortByValue_sorted l : StronglySorted before (sortByValue' l).
Proof.
  induction l as [|x l IH]; simpl; [constructor|].
  apply insertBy_sorted. exact IH.
Qed.

(** C7: once the matching schemas are found and their candidates
    derived, the generator returns the candidates whose value starts
    with the word, and only those, ordered by value under the
    runtime's string comparison. *)
Theorem completions_filtered_sorted fuel schema path word indent commentPrefix
    matching expanded :
  navigate schemaType fuel schema path = Ret matching ->
  candidates' commentPrefix indent matching = Ret expanded ->
  List.filter (fun c => startsWith (value c) word) expanded <> [] ->
  exists sorted,
    completions' fuel schema path word indent commentPrefix
      = Ret (Some (Resolved.Mk word sorted true)) /\
    Permutation sorted
      (List.filter (fun c => startsWith (value c) word) expanded) /\
    (forall c, c ∈ sorted <->
               c ∈ expanded /\ startsWith (value c) word = true) /\
    StronglySorted before sorted.
Proof.
  intros Hnav Hcand Hne.
  exists (sortByValue' (List.filter (fun c => startsWith (value c) word) expanded)).
  split; [|split; [|split]].
  - unfold completions. rewrite Hnav. simpl. rewrite Hcand. simpl.
    destruct (List.filter _ expanded) as [|c l]; [congruence|]. reflexivity.
  - apply sortByValue_Permutation.
  - intros c. rewrite sortByValue_Permutation.
    rewrite !list_elem_of_In, filter_In. reflexivity.
  - apply sortByValue_sorted.
Qed.

End Consistent.

(** Candidates that are not marked [suggest_on_accept] are passed on
    as the library returned them. *)
Lemma candidates_raw commentPrefix indent matching :
  (forall s c, s ∈ matching -> c ∈ schemaCompletions s ->
               suggest_on_accept c = false) ->
  candidates' commentPrefix indent matching
  = Ret (concat (map schemaCompletions matching)).
Proof.
  intros Hraw. unfold candidates.
  assert (forall l, (forall c, c ∈ l -> suggest_on_accept c = false) ->
            mapM (expand schemaType schemaTypeOfUndefined commentPrefix indent) l
            = Ret l) as Hexp.
  { induction l as [|c l IH]; intros Hl; simpl; [reflexivity|].
    unfold expand at 1. rewrite (Hl c) by apply list_elem_of_here. simpl.
    rewrite IH; [reflexivity|]. intros c' Hc'. apply Hl.
    by apply list_elem_of_further. }
  assert (mapM (fun schema2 =>
                  mapM (expand schemaType schemaTypeOfUndefined commentPrefix indent)
                       (schemaCompletions schema2)) matching
          = Ret (map schemaCompletions matching)) as ->; [|reflexivity].
  induction matching as [|s l IH]; simpl; [reflexivity|].
  rewrite Hexp by (intros c Hc; apply (Hraw s c); [apply list_elem_of_here|exact Hc]).
  simpl. rewrite IH; [reflexivity|].
  intros s' c Hs' Hc. apply (Hraw s' c); [by apply list_elem_of_further|exact Hc].
Qed.

(** C8: when no candidate starts with the word, the generator returns
    the [null] sentinel: neither an empty list nor an exception. *)
Theorem no_completions_sentinel fuel schema path word indent commentPrefix
    matching expanded :
  navigate schemaType fuel schema path = Ret matching ->
  candidates' commentPrefix indent matching = Ret expanded ->
  List.filter (fun c => startsWith (value c) word) expanded = [] ->
  completions' fuel schema path word indent commentPrefix = Ret None.
Proof.
  intros Hnav Hcand Hnone. unfold completions.
  rewrite Hnav. simpl. rewrite Hcand. simpl. rewrite Hnone. reflexivity.
Qed.

End CompletionFacts.

Lemma codeUnitCompare_le a b :
  Demo.codeUnitCompare a b <= 0 <-> String.le a b.
Proof.
  unfold Demo.codeUnitCompare, String.le, String.leb.
  destruct (String.compare a b); simpl; split; intros H; try lia; try exact I;
    try contradiction.
Qed.

Lemma codeUnitCompare_total a b :
  Demo.codeUnitCompare a b <= 0 \/ Demo.codeUnitCompare b a <= 0.
Proof. rewrite !codeUnitCompare_le. apply String.le_total. Qed.

Lemma codeUnitCompare_trans a b c :
  Demo.codeUnitCompare a b <= 0 -> Demo.codeUnitCompare b c <= 0 ->
  Demo.codeUnitCompare a c <= 0.
Proof.
  rewrite !codeUnitCompare_le. intros H1 H2.
  exact (transitivity H1 H2).
Qed.

(** The spec's example: word "w" over width, weight, height. *)
Example completions_w :
  Completion.completions schemaTypeOf (Throw TypeError) Demo.sizeCompletions
    Demo.codeUnitCompare 3 Demo.sizes (Some []) "w" 0 ""
  = Ret (Some (Completion.Resolved.Mk "w"
                 [Demo.keyItem Demo.sizes "weight"; Demo.keyItem Demo.sizes "width"]
                 true)).
Proof. vm_compute. reflexivity. Qed.

Lemma completions_filtered_sorted_witness :
  exists sorted,
    Completion.completions schemaTypeOf (Throw TypeError) Demo.sizeCompletions
      Demo.codeUnitCompare 3 Demo.sizes (Some []) "w" 0 ""
    = Ret (Some (Completion.Resolved.Mk "w" sorted true)) /\
    sorted = [Demo.keyItem Demo.sizes "weight"; Demo.keyItem Demo.sizes "width"].
Proof.
  destruct (completions_filtered_sorted schemaTypeOf (Throw TypeError)
              Demo.sizeCompletions Demo.codeUnitCompare
              codeUnitCompare_total codeUnitCompare_trans
              3%nat Demo.sizes (Some []) "w" 0 ""
              [Demo.sizes] (Demo.sizeCompletions Demo.sizes)
              eq_refl eq_refl ltac:(discriminate))
    as (sorted & Hret & _).
  exists sorted. split; [exact Hret|].
  vm_compute in Hret. injection Hret as Hs. rewrite <- Hs. reflexivity.
Defined.

Lemma no_completions_sentinel_witness :
  Completion.completions schemaTypeOf (Throw TypeError) Demo.sizeCompletions
    Demo.codeUnitCompare 3 Demo.sizes (Some []) "x" 0 ""
  = Ret None.
Proof.
  exact (no_completions_sentinel schemaTypeOf (Throw TypeError)
           Demo.sizeCompletions Demo.codeUnitCompare
           3%nat Demo.sizes (Some []) "x" 0 ""
           [Demo.sizes] (Demo.sizeCompletions Demo.sizes)
           eq_refl eq_refl eq_refl).
Defined.

(** ** Indentation fallback *)

Section IndentFacts.

Import Indent.

Lemma readPredecessor_below predecessor n m :
  decreasing predecessor -> readPredecessor predecessor n = Some m -> m < n.
Proof.
  intros Hdec. unfold readPredecessor, at_.
  destruct (Z.ltb_spec n 0) as [|Hn]; [discriminate|].
  destruct (predecessor !! Z.to_nat n) as [p|] eqn:Hp; [|discriminate].
  intros ->. specialize (Hdec _ _ Hp). lia.
Qed.

(** The climb along the predecessors ends within the budget it is given
    in [getYamlIndentTree], at [undefined] or at a line no further down. *)
Lemma climb_ends predecessor indents lineIndent :
  decreasing predecessor ->
  forall budget n,
    n < Z.of_nat budget ->
    exists r,
      climb budget predecessor indents lineIndent (Some n) = Some r /\
      forall m, r = Some m -> m <= n.
Proof.
  intros Hdec. induction budget as [|budget IH]; intros n Hn.
  - simpl. destruct (Z.geb_spec n 0) as [|Hneg]; [lia|]. simpl.
    eexists. split; [reflexivity|]. intros m [= <-]. lia.
  - simpl.
    destruct ((n >=? 0) && match at_ indents n with
                           | Some ind => ind >=? lineIndent
                           | None => false
                           end) eqn:Hcond.
    + apply andb_true_iff in Hcond as [Hnn _].
      destruct (readPredecessor predecessor n) as [m|] eqn:Hread.
      * pose proof (readPredecessor_below _ _ _ Hdec Hread) as Hm.
        destruct (IH m ltac:(lia)) as (r & Hr & Hle).
        exists r. split; [exact Hr|]. intros m' Hm'. specialize (Hle m' Hm'). lia.
      * exists None. split; [destruct budget; reflexivity|discriminate].
    + eexists. split; [reflexivity|]. intros m [= <-]. lia.
Qed.

Lemma decreasing_snoc predecessor entry :
  decreasing predecessor ->
  (forall m, entry = Some m -> m < Z.of_nat (length predecessor)) ->
  decreasing (predecessor ++ [entry]).
Proof.
  intros Hdec Hentry j v Hj.
  apply lookup_app_Some in Hj as [Hj|[Hge Hj]].
  - apply (Hdec j v Hj).
  - destruct (j - length predecessor)%nat as [|k] eqn:Hk; simpl in Hj;
      [|rewrite lookup_nil in Hj; discriminate].
    inversion Hj; subst entry. specialize (Hentry v eq_refl). lia.
Qed.

Lemma scanLine_ends st i line :
  scanned st i ->
  exists st', scanLine st (Z.of_nat i) line = Some st' /\ scanned st' (S i).
Proof.
  intros (Hdec & Hlen & Hprev). unfold scanLine.
  assert (forall m, readPredecessor (scanPredecessor st) (scanPrevPredecessor st)
                    = Some m -> m < Z.of_nat (length (scanPredecessor st)))
    as Hread.
  { intros m Hm. pose proof (readPredecessor_below _ _ _ Hdec Hm). lia. }
  destruct (isBlank line).
  { eexists. split; [reflexivity|]. repeat split; simpl.
    - apply decreasing_snoc; assumption.
    - rewrite length_app. simpl. lia.
    - lia. }
  destruct (getIndent line =? scanIndentation st).
  { eexists. split; [reflexivity|]. repeat split; simpl.
    - apply decreasing_snoc; assumption.
    - rewrite length_app. simpl. lia.
    - lia. }
  destruct (getIndent line <? scanIndentation st).
  { destruct (climb_ends (scanPredecessor st)
                (scanIndents st ++ [getIndent line]) (getIndent line) Hdec
                (length (scanPredecessor st) + 1) (scanPrevPredecessor st)
                ltac:(lia)) as (r & Hr & Hle).
    rewrite Hr. simpl. eexists. split; [reflexivity|]. repeat split; simpl.
    - apply decreasing_snoc; [assumption|]. intros m Hm.
      specialize (Hle m Hm). lia.
    - rewrite length_app. simpl. lia.
    - lia. }
  eexists. split; [reflexivity|]. repeat split; simpl.
  - apply decreasing_snoc; [assumption|]. intros m [= <-]. lia.
  - rewrite length_app. simpl. lia.
  - lia.
Qed.

Lemma scanLines_ends ls : forall st i,
  scanned st i ->
  exists st', scanLines st (Z.of_nat i) ls = Some st' /\
              scanned st' (i + length ls).
Proof.
  induction ls as [|line rest IH]; intros st i Hst; simpl.
  - exists st. split; [reflexivity|]. rewrite Nat.add_0_r. exact Hst.
  - destruct (scanLine_ends st i line Hst) as (st1 & Hstep & Hst1).
    rewrite Hstep. simpl.
    replace (Z.of_nat i + 1) with (Z.of_nat (S i)) by lia.
    destruct (IH st1 (S i) Hst1) as (st' & Hrest & Hst').
    exists st'. split; [exact Hrest|].
    replace (i + S (length rest))%nat with (S i + length rest)%nat by lia.
    exact Hst'.
Qed.

(** [getYamlIndentTree] always returns, and its predecessors point
    upwards. *)
Lemma getYamlIndentTree_returns code :
  exists tree,
    getYamlIndentTree code = Ret tree /\ decreasing (predecessor tree).
Proof.
  unfold getYamlIndentTree.
  destruct (scanLines_ends (Text.lines code) (MkScan [] [] (-1) (-1)) 0%nat)
    as (st & Hscan & Hdec & _).
  - split; [|split; [reflexivity|simpl; lia]].
    intros j v Hj. simpl in Hj. rewrite lookup_nil in Hj. discriminate.
  - change (Z.of_nat 0) with 0 in Hscan. rewrite Hscan.
    eexists. split; [reflexivity|exact Hdec].
Qed.

Lemma scanBack_below lines : forall k,
  scanBack lines k <= Z.of_nat k /\
  (forall l, lines !! k = Some l -> isBlank l = true ->
             scanBack lines k < Z.of_nat k).
Proof.
  induction k as [|k IH].
  - simpl. destruct (lines !! 0%nat) as [l|] eqn:Hl.
    + destruct (isBlank l) eqn:Hb.
      * split; [lia|]. intros l' _ _. lia.
      * split; [lia|]. intros l' [= <-] Hb'. congruence.
    + split; [lia|]. intros l' Hl'. discriminate.
  - simpl. destruct (lines !! S k) as [l|] eqn:Hl.
    + destruct (isBlank l) eqn:Hb.
      * destruct IH as [IH _]. split; [lia|]. intros l' _ _. lia.
      * split; [lia|]. intros l' [= <-] Hb'. congruence.
    + split; [lia|]. intros l' Hl'. discriminate.
Qed.

(** The walk up the indentation tree ends within its budget. *)
Lemma walk_ends lines tree lineIndent :
  decreasing (predecessor tree) ->
  forall budget lineNo path,
    (forall n l, lineNo = Some n -> at_ lines n = Some l -> n < Z.of_nat budget) ->
    walk budget lines tree lineIndent lineNo path <> Diverge.
Proof.
  intros Hdec. induction budget as [|budget IH]; intros lineNo path Hbudget.
  - destruct lineNo as [n|]; [|discriminate]. simpl.
    destruct n as [|p|p]; try destruct p; try discriminate;
      (destruct (at_ lines _) as [l|] eqn:Hl; [|discriminate]);
      apply at_inv in Hl as Hl'; destruct Hl' as [Hn _];
      specialize (Hbudget _ _ eq_refl Hl); lia.
  - destruct lineNo as [n|]; [|discriminate].
    destruct (at_ lines n) as [ln|] eqn:Hn;
      [|simpl; destruct n as [|p|p]; try destruct p; rewrite ?Hn; discriminate].
    pose proof (Hbudget n ln eq_refl Hn) as Hlt.
    assert (forall path',
               walk budget lines tree lineIndent
                    (readPredecessor (predecessor tree) n) path' <> Diverge)
      as Hnext.
    { intros path'. apply IH. intros m l Hm Hl.
      pose proof (readPredecessor_below _ _ _ Hdec Hm). lia. }
    simpl. rewrite Hn.
    assert (match Some ln with
            | None => Throw TypeError
            | Some l =>
                let trimmed := Str.trim l in
                let visit :=
                  let next := readPredecessor (predecessor tree) n in
                  if match at_ (indentation tree) n with
                     | Some ind => lineIndent >=? ind
                     | None => false
                     end
                  then
                    match shapeOf trimmed with
                    | Push element =>
                        walk budget lines tree lineIndent next (path ++ [element])
                    | Skip => walk budget lines tree lineIndent next path
                    | Unrecognised => Ret None
                    end
                  else walk budget lines tree lineIndent next path in
                if Text.strlen trimmed =? 0 then
                  let prev := scanBack lines (Z.to_nat n) in
                  if prev =? -1 then Ret (Some (rev path))
                  else
                    match at_ lines prev with
                    | None => Throw TypeError
                    | Some p =>
                        if getIndent p <? lineIndent
                        then walk budget lines tree lineIndent (Some prev) path
                        else visit
                    end
                else visit
            end <> Diverge) as Hbody.
    { pose proof Hn as Hl. set (l := ln) in *. cbv zeta iota.
      assert ((if match at_ (indentation tree) n with
                  | Some ind => lineIndent >=? ind
                  | None => false
                  end
               then
                 match shapeOf (Str.trim l) with
                 | Push element =>
                     walk budget lines tree lineIndent
                          (readPredecessor (predecessor tree) n) (path ++ [element])
                 | Skip =>
                     walk budget lines tree lineIndent
                          (readPredecessor (predecessor tree) n) path
                 | Unrecognised => Ret None
                 end
               else walk budget lines tree lineIndent
                         (readPredecessor (predecessor tree) n) path) <> Diverge)
        as Hvisit.
      { destruct (match at_ (indentation tree) n with
                  | Some ind => lineIndent >=? ind
                  | None => false
                  end); [|apply Hnext].
        destruct (shapeOf (Str.trim l)); [apply Hnext|apply Hnext|discriminate]. }
      destruct (Text.strlen (Str.trim l) =? 0) eqn:Hblank; [|exact Hvisit].
      destruct (scanBack lines (Z.to_nat n) =? -1); [discriminate|].
      destruct (at_ lines (scanBack lines (Z.to_nat n))) as [p|] eqn:Hp;
        [|discriminate].
      destruct (getIndent p <? lineIndent); [|exact Hvisit].
      apply IH. intros m lm [= <-] _.
      apply at_inv in Hl as [Hn0 Hl].
      pose proof (proj2 (scanBack_below lines (Z.to_nat n)) l Hl Hblank). lia. }
    destruct n as [|p|p]; try exact Hbody.
    destruct p; try exact Hbody. discriminate.
Qed.

(** [locateFromIndentation] always ends: with a path, with [undefined],
    or with the [TypeError] of a row outside the text. *)
Lemma locateFromIndentation_ends line code position :
  locateFromIndentation line code position <> Diverge.
Proof.
  unfold locateFromIndentation.
  destruct (getYamlIndentTree_returns code) as (tree & -> & Hdec).
  rewrite bind_Ret. cbv beta zeta.
  apply walk_ends; [exact Hdec|].
  intros n l [= <-] Hl. apply at_inv in Hl as [Hn Hl].
  apply lookup_lt_Some in Hl. lia.
Qed.

(** The spec's scenario: on the blank last line of "a:\n  b: 1\n  " the
    indentation gives the path [a]. *)
Example locate_blank_last_line :
  locateFromIndentation "  " (Text.joinLines ["a:"; "  b: 1"; "  "])
                        (MkPosition 2 2)
  = Ret (Some [JStr "a"]).
Proof. vm_compute. reflexivity. Qed.

End IndentFacts.

(** ** Front-matter fences *)

Section FenceFacts.

Import Text Yaml.

Lemma startsWith_fence_length text :
  startsWith text "---" = true -> 3 <= strlen text.
Proof.
  unfold startsWith, strlen.
  destruct text as [|a [|b [|c rest]]]; simpl;
    repeat match goal with
           | |- context [if ?d then _ else _] => destruct d
           end; try discriminate; intros _; lia.
Qed.

(** The fragment of the leading-fence step is the fence itself. *)
Lemma leading_fragment_is_fence text :
  startsWith text "---" = true ->
  MappedText.value (MappedText.mappedString (MappedText.Original text)
                                            [MappedText.BeginEnd 0 3])
  = "---".
Proof.
  intros Hfence. pose proof (startsWith_fence_length text Hfence) as Hlen.
  simpl. rewrite sapp_nil_r, substring_in_range by lia.
  apply (proj1 (prefix_correct "---" text)). exact Hfence.
Qed.

Lemma stripLeading_fence text position :
  startsWith text "---" = true ->
  row position <> 0 ->
  stripLeading true (MappedText.Original text) position
  = Some (MappedText.mappedString (MappedText.Original text)
                                  [MappedText.BeginEnd 0 3]).
Proof.
  intros Hfence Hrow. unfold stripLeading.
  change (MappedText.value (MappedText.Original text)) with text.
  rewrite Hfence. destruct (Z.eqb_spec (row position) 0); [contradiction|].
  reflexivity.
Qed.

Lemma stripTrailing_bare_fence code position :
  MappedText.value code = "---" ->
  row position <> 0 ->
  stripTrailing true code position
  = Some (MappedText.mappedString code [MappedText.BeginEnd 0 0]).
Proof.
  intros Hvalue Hrow. unfold stripTrailing, mappedLines. rewrite Hvalue.
  change (Str.endsWith "---" "---") with true.
  change (Z.of_nat (length (lines "---")) - 1) with 0.
  destruct (Z.eqb_spec (row position) 0); [contradiction|]. reflexivity.
Qed.

(** After the leading-fence step the text is the bare fence, which the
    trailing-fence step then empties: whatever follows the opening fence
    is lost, and the row of the closing fence is no longer recognised. *)
Lemma leading_fence_empties text position :
  startsWith text "---" = true ->
  row position <> 0 ->
  exists stripped,
    stripFences true (MappedText.Mapped (MappedText.Original text)) position
      = Ret (Some stripped) /\
    MappedText.value stripped = "".
Proof.
  intros Hfence Hrow.
  pose proof (leading_fragment_is_fence text Hfence) as Hvalue.
  unfold stripFences. rewrite (stripLeading_fence text position Hfence Hrow).
  change (mbind ?f (Some ?x)) with (f x). cbv beta.
  rewrite (stripTrailing_bare_fence _ position Hvalue Hrow).
  eexists. split; [reflexivity|].
  change (MappedText.value (MappedText.mappedString ?c [MappedText.BeginEnd 0 0]))
    with (substring (MappedText.value c) 0 0 +:+ "").
  rewrite Hvalue. reflexivity.
Qed.

(** A cursor on the opening fence gets the [false] answer. *)
Lemma leading_fence_row text position :
  startsWith text "---" = true ->
  row position = 0 ->
  stripFences true (MappedText.Mapped (MappedText.Original text)) position
  = Ret None.
Proof.
  intros Hfence Hrow. unfold stripFences, stripLeading.
  simpl MappedText.value. rewrite Hfence, Hrow. reflexivity.
Qed.

End FenceFacts.

(** C6, evaluated where it fails: for front matter between two fences
    and the cursor on the line between them, the text handed on is
    empty, not the text without its fences; and with the cursor on the
    closing fence the request is carried on instead of being answered
    with [false]. *)
Lemma fence_strip_failing_input :
  let text := Text.joinLines ["---"; "title: x"; "---"] in
  let code := MappedText.Mapped (MappedText.Original text) in
  (exists stripped,
      Yaml.stripFences true code (MkPosition 1 8) = Ret (Some stripped) /\
      MappedText.value stripped = "" /\
      MappedText.value stripped <> Text.joinLines [""; "title: x"; ""]) /\
  (exists stripped,
      Yaml.stripFences true code (MkPosition 2 3) = Ret (Some stripped)) /\
  Yaml.stripFences true code (MkPosition 0 3) = Ret None.
Proof.
  repeat split.
  - eexists. split; [vm_compute; reflexivity|]. split; [reflexivity|discriminate].
  - eexists. vm_compute. reflexivity.
Qed.

(** With a closing fence only, the fence is cut off and its row is
    answered with [false]. *)
Example trailing_fence_only :
  let code := MappedText.Mapped
                (MappedText.Original (Text.joinLines ["title: x"; "---"])) in
  Yaml.stripFences true code (MkPosition 1 3) = Ret None /\
  exists stripped,
    Yaml.stripFences true code (MkPosition 0 8) = Ret (Some stripped) /\
    MappedText.value stripped = Text.joinLines ["title: x"; ""].
Proof.
  split; [reflexivity|]. eexists. split; [vm_compute; reflexivity|reflexivity].
Qed.

(** ** The YAML completion entry point *)

Section YamlFacts.

Import Yaml.

Variable Tree : Type.
Variable parse : string -> Tree.
Variable rootType : Tree -> string.
Variable buildAnnotated :
  Tree -> MappedText.MappedString -> outcome (option Annotated).
Variable rowColToIndex : string -> Position -> Z.
Variable schemaType : Schema -> string.
Variable schemaTypeOfUndefined : outcome string.
Variable schemaCompletions : Schema -> list Completion.Item.
Variable localeCompare : string -> string -> Z.
Variable fuel : nat.

Local Abbreviation complete' :=
  (complete schemaType schemaTypeOfUndefined schemaCompletions localeCompare fuel).
Local Abbreviation tryCandidate' :=
  (tryCandidate Tree buildAnnotated rowColToIndex schemaType
                schemaTypeOfUndefined schemaCompletions localeCompare fuel).
Local Abbreviation tryCandidates' :=
  (tryCandidates Tree buildAnnotated rowColToIndex schemaType
                 schemaTypeOfUndefined schemaCompletions localeCompare fuel).
Local Abbreviation entry' :=
  (completionsFromGoodParseYAML Tree parse rootType buildAnnotated rowColToIndex
     schemaType schemaTypeOfUndefined schemaCompletions localeCompare fuel).

(** Every item has the given type. *)
Local Abbreviation allOfType t r :=
  (Forall (fun c => Completion.type c = t) (Completion.Resolved.completions r)).

(** Every item starts with the word. *)
Local Abbreviation allStartWith word r :=
  (Forall (fun c => startsWith (Completion.value c) word = true)
          (Completion.Resolved.completions r)).








End YamlFacts.



(** When nothing matches, the generator's [null] reaches the entry
    point, which reads [.completions] of it. *)
Example null_sentinel_dereferenced :
  DemoYaml.completionsFromGoodParseYAML
    (Yaml.MkContext " " (MappedText.Mapped (MappedText.Original " "))
                    (MkPosition 0 1) (typed "string") None)
  = Throw TypeError.
Proof. vm_compute. reflexivity. Qed.

(** ** Validator cache and serialization queue *)

Section QueueFacts.

Import ValidatorQueue.

Lemma serial_cons e l :
  serial l ->
  (forall r1 r2,
      actor e = Some r2 -> Requested r1 ∈ l ->
      schemaName r1 = schemaName r2 -> (ticket r1 < ticket r2)%nat ->
      Completed r1 ∈ l) ->
  serial (e :: l).
Proof.
  intros Hl He newer e' older r1 r2 Heq Hact Hreq Hname Hlt.
  destruct newer as [|e0 newer]; simpl in Heq; inversion Heq; subst.
  - eapply He; eassumption.
  - eapply Hl; eauto.
Qed.

Lemma serial_cons_silent e l : actor e = None -> serial l -> serial (e :: l).
Proof.
  intros He Hl. apply serial_cons; [exact Hl|].
  intros r1 r2 Hact. rewrite He in Hact. discriminate.
Qed.

Lemma settled_cons e l :
  settled l ->
  (forall r, actor e = Some r -> Completed r ∉ l) ->
  settled (e :: l).
Proof.
  intros Hl He newer e' older r Heq Hact.
  destruct newer as [|e0 newer]; simpl in Heq; inversion Heq; subst.
  - by apply He.
  - eapply Hl; eauto.
Qed.

Lemma settled_cons_silent e l : actor e = None -> settled l -> settled (e :: l).
Proof.
  intros He Hl. apply settled_cons; [exact Hl|].
  intros r Hact. rewrite He in Hact. discriminate.
Qed.

Lemma active_enqueue q r :
  active (MkQueue (running q) (pending q ++ [r])) = active q ++ [r].
Proof. unfold active. simpl. destruct (running q) as [[[? ?] ?]|]; reflexivity. Qed.

Lemma queueOf_active name w r :
  Invariant w -> r ∈ active (queueOf name w) ->
  schemaName r = name /\ (ticket r < calls w)%nat.
Proof.
  intros Hinv. unfold queueOf.
  destruct (validatorQueues w !! name) as [q|] eqn:Hq; simpl.
  - apply (inv_active w Hinv name q r Hq).
  - intros H. apply elem_of_nil in H. contradiction.
Qed.

Lemma queueOf_sorted name w :
  Invariant w ->
  StronglySorted (fun a b => (ticket a < ticket b)%nat) (active (queueOf name w)).
Proof.
  intros Hinv. unfold queueOf.
  destruct (validatorQueues w !! name) as [q|] eqn:Hq; simpl.
  - apply (inv_sorted w Hinv name q Hq).
  - constructor.
Qed.

Lemma sorted_snoc (l : list Request) r :
  StronglySorted (fun a b => (ticket a < ticket b)%nat) l ->
  (forall a, a ∈ l -> (ticket a < ticket r)%nat) ->
  StronglySorted (fun a b => (ticket a < ticket b)%nat) (l ++ [r]).
Proof.
  induction 1 as [|a l Hs IH Hall]; intros Hr; simpl.
  - repeat constructor.
  - constructor.
    + apply IH. intros b Hb. apply Hr. by apply list_elem_of_further.
    + apply Forall_app. split; [exact Hall|].
      constructor; [|constructor]. apply Hr. apply list_elem_of_here.
Qed.

(** The initial world satisfies the invariant. *)
Lemma initial_invariant : Invariant initial.
Proof.
  constructor; simpl.
  - intros name. rewrite lookup_empty. reflexivity.
  - intros name v H. rewrite lookup_empty in H. discriminate.
  - intros r v H. apply elem_of_nil in H. contradiction.
  - intros name q r v k H. rewrite lookup_empty in H. discriminate.
  - intros name q r H. rewrite lookup_empty in H. discriminate.
  - intros name q H. rewrite lookup_empty in H. discriminate.
  - intros r H. apply elem_of_nil in H. contradiction.
  - intros newer e older r1 r2 H. destruct newer; discriminate.
  - intros r H. apply elem_of_nil in H. contradiction.
  - intros newer e older r H. destruct newer; discriminate.
Qed.

(** A call of [withValidator] preserves the invariant. *)
Lemma call_invariant name n w w' :
  Invariant w -> step (Call name n) w = Some w' -> Invariant w'.
Proof.
  intros Hinv Hstep. simpl in Hstep. inversion Hstep; subst w'; clear Hstep.
  set (r := MkRequest (calls w) name n).
  constructor; simpl.
  - intros name0. apply (inv_count w Hinv).
  - intros name0 v H. apply list_elem_of_further. by apply (inv_cached w Hinv).
  - intros r0 v H. apply elem_of_cons in H as [H|H]; [discriminate|].
    by apply (inv_ran w Hinv).
  - intros name0 q r0 v k Hq Hrun.
    destruct (decide (name = name0)) as [->|Hne].
    + rewrite lookup_insert_eq in Hq. inversion Hq; subst q. simpl in Hrun.
      unfold queueOf in Hrun.
      destruct (validatorQueues w !! name0) as [q|] eqn:Hq0; simpl in Hrun;
        [|discriminate].
      eapply (inv_running w Hinv); eassumption.
    + rewrite lookup_insert_ne in Hq by exact Hne.
      eapply (inv_running w Hinv); eassumption.
  - intros name0 q r0 Hq Hin.
    destruct (decide (name = name0)) as [->|Hne].
    + rewrite lookup_insert_eq in Hq. inversion Hq; subst q.
      rewrite active_enqueue in Hin. apply elem_of_app in Hin as [Hin|Hin].
      * destruct (queueOf_active _ _ _ Hinv Hin). split; [assumption|lia].
      * apply list_elem_of_singleton in Hin. subst r0. simpl. split; [reflexivity|lia].
    + rewrite lookup_insert_ne in Hq by exact Hne.
      destruct (inv_active w Hinv name0 q r0 Hq Hin). split; [assumption|lia].
  - intros name0 q Hq.
    destruct (decide (name = name0)) as [->|Hne].
    + rewrite lookup_insert_eq in Hq. inversion Hq; subst q.
      rewrite active_enqueue. apply sorted_snoc; [by apply queueOf_sorted|].
      intros a Ha. destruct (queueOf_active _ _ _ Hinv Ha). simpl. lia.
    + rewrite lookup_insert_ne in Hq by exact Hne. by apply (inv_sorted w Hinv name0).
  - intros r0 H. apply elem_of_cons in H as [H|H].
    + inversion H; subst r0. right. simpl. rewrite lookup_insert_eq.
      eexists. split; [reflexivity|]. rewrite active_enqueue.
      apply elem_of_app. right. apply list_elem_of_here.
    + destruct (inv_requested w Hinv r0 H) as [Hc|(q & Hq & Hin)].
      * left. by apply list_elem_of_further.
      * right. destruct (decide (name = schemaName r0)) as [Heq|Hne].
        -- rewrite <- Heq, lookup_insert_eq. eexists. split; [reflexivity|].
           rewrite active_enqueue. apply elem_of_app. left.
           unfold queueOf. rewrite Heq, Hq. exact Hin.
        -- rewrite lookup_insert_ne by exact Hne. eauto.
  - apply serial_cons_silent; [reflexivity|apply (inv_serial w Hinv)].
  - intros r0 H. apply elem_of_cons in H as [H|H]; [discriminate|].
    destruct (inv_done w Hinv r0 H) as [Hticket Hout].
    split; [lia|]. intros name0 q Hq Hin.
    destruct (decide (name = name0)) as [->|Hne].
    + rewrite lookup_insert_eq in Hq. inversion Hq; subst q.
      rewrite active_enqueue in Hin. apply elem_of_app in Hin as [Hin|Hin].
      * unfold queueOf in Hin.
        destruct (validatorQueues w !! name0) as [q|] eqn:Hq0; simpl in Hin.
        -- exact (Hout name0 q Hq0 Hin).
        -- by apply elem_of_nil in Hin.
      * apply list_elem_of_singleton in Hin. subst r0. simpl in Hticket. lia.
    + rewrite lookup_insert_ne in Hq by exact Hne. exact (Hout name0 q Hq Hin).
  - apply settled_cons_silent; [reflexivity|apply (inv_settled w Hinv)].
Qed.

(** [getValidator] preserves the invariant and returns the validator
    that is cached for the name once it has returned. *)
Lemma getValidator_invariant name w v w1 :
  Invariant w -> getValidator name w = (v, w1) ->
  Invariant w1 /\
  yamlValidators w1 !! name = Some v /\
  validatorQueues w1 = validatorQueues w /\
  calls w1 = calls w.
Proof.
  intros Hinv Hget. unfold getValidator in Hget.
  destruct (yamlValidators w !! name) as [v0|] eqn:Hcached.
  - inversion Hget; subst v0 w1.
    split; [exact Hinv|split; [exact Hcached|split; reflexivity]].
  - inversion Hget; subst v w1; clear Hget. simpl.
    split; [|split; [apply lookup_insert_eq|split; reflexivity]].
    constructor; simpl.
    + intros name0. destruct (String.eqb_spec name name0) as [->|Hne].
      * rewrite lookup_insert_eq. pose proof (inv_count w Hinv name0) as Hc.
        rewrite Hcached in Hc. rewrite Hc. reflexivity.
      * rewrite lookup_insert_ne by exact Hne. apply (inv_count w Hinv).
    + intros name0 v H. destruct (decide (name = name0)) as [->|Hne].
      * rewrite lookup_insert_eq in H. inversion H; subst. apply list_elem_of_here.
      * rewrite lookup_insert_ne in H by exact Hne.
        apply list_elem_of_further. by apply (inv_cached w Hinv).
    + intros r v H. apply elem_of_cons in H as [H|H]; [discriminate|].
      pose proof (inv_ran w Hinv r v H) as Hr.
      rewrite lookup_insert_ne; [exact Hr|]. intros Heq. congruence.
    + intros name0 q r v k Hq Hrun.
      pose proof (inv_running w Hinv name0 q r v k Hq Hrun) as Hr.
      rewrite lookup_insert_ne; [exact Hr|]. intros Heq. congruence.
    + apply (inv_active w Hinv).
    + apply (inv_sorted w Hinv).
    + intros r H. apply elem_of_cons in H as [H|H]; [discriminate|].
      destruct (inv_requested w Hinv r H) as [Hc|Hq]; [left|right; exact Hq].
      by apply list_elem_of_further.
    + apply serial_cons_silent; [reflexivity|apply (inv_serial w Hinv)].
    + intros r H. apply elem_of_cons in H as [H|H]; [discriminate|].
      apply (inv_done w Hinv r H).
    + apply settled_cons_silent; [reflexivity|apply (inv_settled w Hinv)].
Qed.

(** In a queue, whoever made its request before the head of the active
    tasks, under the same name, has completed. *)
Lemma head_waited_for_all w name q r rest r1 :
  Invariant w ->
  validatorQueues w !! name = Some q ->
  active q = r :: rest ->
  Requested r1 ∈ log w ->
  schemaName r1 = schemaName r ->
  (ticket r1 < ticket r)%nat ->
  Completed r1 ∈ log w.
Proof.
  intros Hinv Hq Hact Hreq Hname Hlt.
  destruct (inv_requested w Hinv r1 Hreq) as [Hc|(q1 & Hq1 & Hin)]; [exact Hc|].
  exfalso.
  assert (schemaName r = name) as Hr.
  { apply (inv_active w Hinv name q r Hq). rewrite Hact. apply list_elem_of_here. }
  rewrite Hname, Hr, Hq in Hq1. inversion Hq1; subst q1.
  pose proof (inv_sorted w Hinv name q Hq) as Hs. rewrite Hact in Hs, Hin.
  apply elem_of_cons in Hin as [->|Hin]; [lia|].
  inversion Hs as [|? ? _ Hall]; subst. rewrite Forall_forall in Hall.
  specialize (Hall r1 Hin). simpl in Hall. lia.
Qed.

(** A segment of the running task, or the first segment of the task
    that starts, preserves the invariant. *)
Lemma segment_invariant w name q r v k rest :
  Invariant w ->
  validatorQueues w !! name = Some q ->
  active q = r :: rest ->
  yamlValidators w !! name = Some v ->
  Invariant (MkWorld (yamlValidators w)
               (<[name := MkQueue (Some (r, v, k)) rest]> (validatorQueues w))
               (calls w) (built w) (Ran r v :: log w)).
Proof.
  intros Hinv Hq Hact Hv.
  assert (schemaName r = name) as Hr.
  { apply (inv_active w Hinv name q r Hq). rewrite Hact. apply list_elem_of_here. }
  constructor; simpl.
  - apply (inv_count w Hinv).
  - intros name0 v0 H. apply list_elem_of_further. by apply (inv_cached w Hinv).
  - intros r0 v0 H. apply elem_of_cons in H as [H|H].
    + injection H as -> ->. rewrite Hr. exact Hv.
    + by apply (inv_ran w Hinv).
  - intros name0 q0 r0 v0 k0 Hq0 Hrun.
    destruct (decide (name = name0)) as [<-|Hne].
    + rewrite lookup_insert_eq in Hq0. inversion Hq0; subst q0. simpl in Hrun.
      inversion Hrun; subst. exact Hv.
    + rewrite lookup_insert_ne in Hq0 by exact Hne.
      eapply (inv_running w Hinv); eassumption.
  - intros name0 q0 r0 Hq0 Hin.
    destruct (decide (name = name0)) as [<-|Hne].
    + rewrite lookup_insert_eq in Hq0. inversion Hq0; subst q0.
      change (active (MkQueue (Some (r, v, k)) rest)) with (r :: rest) in Hin.
      rewrite <- Hact in Hin. by apply (inv_active w Hinv name q).
    + rewrite lookup_insert_ne in Hq0 by exact Hne. by apply (inv_active w Hinv name0 q0).
  - intros name0 q0 Hq0.
    destruct (decide (name = name0)) as [<-|Hne].
    + rewrite lookup_insert_eq in Hq0. inversion Hq0; subst q0.
      change (active (MkQueue (Some (r, v, k)) rest)) with (r :: rest).
      rewrite <- Hact. by apply (inv_sorted w Hinv name).
    + rewrite lookup_insert_ne in Hq0 by exact Hne. by apply (inv_sorted w Hinv name0).
  - intros r0 H. apply elem_of_cons in H as [H|H]; [discriminate|].
    destruct (inv_requested w Hinv r0 H) as [Hc|(q0 & Hq0 & Hin)].
    + left. by apply list_elem_of_further.
    + right. destruct (decide (name = schemaName r0)) as [Heq|Hne].
      * rewrite <- Heq, lookup_insert_eq. eexists. split; [reflexivity|].
        change (active (MkQueue (Some (r, v, k)) rest)) with (r :: rest).
        rewrite <- Hact. rewrite <- Heq, Hq in Hq0. inversion Hq0; subst. exact Hin.
      * rewrite lookup_insert_ne by exact Hne. eauto.
  - apply serial_cons; [apply (inv_serial w Hinv)|].
    intros r1 r2 Hactor Hreq Hname Hlt. simpl in Hactor. inversion Hactor; subst r2.
    eapply head_waited_for_all; eassumption.
  - intros r0 H. apply elem_of_cons in H as [H|H]; [discriminate|].
    destruct (inv_done w Hinv r0 H) as [Hticket Hout].
    split; [exact Hticket|]. intros name0 q0 Hq0 Hin.
    destruct (decide (name = name0)) as [<-|Hne].
    + rewrite lookup_insert_eq in Hq0. inversion Hq0; subst q0.
      change (active (MkQueue (Some (r, v, k)) rest)) with (r :: rest) in Hin.
      rewrite <- Hact in Hin. exact (Hout name q Hq Hin).
    + rewrite lookup_insert_ne in Hq0 by exact Hne. exact (Hout name0 q0 Hq0 Hin).
  - apply settled_cons; [apply (inv_settled w Hinv)|].
    intros r0 Hactor Hdone. simpl in Hactor. inversion Hactor; subst r0.
    apply (proj2 (inv_done w Hinv r Hdone) name q Hq).
    rewrite Hact. apply list_elem_of_here.
Qed.

(** The completion of the running task preserves the invariant. *)
Lemma completion_invariant w name q r v rest :
  Invariant w ->
  validatorQueues w !! name = Some q ->
  running q = Some (r, v, 0%nat) ->
  pending q = rest ->
  Invariant (MkWorld (yamlValidators w)
               (<[name := MkQueue None rest]> (validatorQueues w))
               (calls w) (built w) (Completed r :: log w)).
Proof.
  intros Hinv Hq Hrun Hpend.
  assert (active q = r :: rest) as Hact by (unfold active; rewrite Hrun, Hpend; reflexivity).
  constructor; simpl.
  - apply (inv_count w Hinv).
  - intros name0 v0 H. apply list_elem_of_further. by apply (inv_cached w Hinv).
  - intros r0 v0 H. apply elem_of_cons in H as [H|H]; [discriminate|].
    by apply (inv_ran w Hinv).
  - intros name0 q0 r0 v0 k0 Hq0 Hrun0.
    destruct (decide (name = name0)) as [<-|Hne].
    + rewrite lookup_insert_eq in Hq0. inversion Hq0; subst q0. discriminate.
    + rewrite lookup_insert_ne in Hq0 by exact Hne.
      eapply (inv_running w Hinv); eassumption.
  - intros name0 q0 r0 Hq0 Hin.
    destruct (decide (name = name0)) as [<-|Hne].
    + rewrite lookup_insert_eq in Hq0. inversion Hq0; subst q0.
      change (active (MkQueue None rest)) with rest in Hin.
      apply (inv_active w Hinv name q r0 Hq). rewrite Hact.
      by apply list_elem_of_further.
    + rewrite lookup_insert_ne in Hq0 by exact Hne. by apply (inv_active w Hinv name0 q0).
  - intros name0 q0 Hq0.
    destruct (decide (name = name0)) as [<-|Hne].
    + rewrite lookup_insert_eq in Hq0. inversion Hq0; subst q0.
      change (active (MkQueue None rest)) with rest.
      pose proof (inv_sorted w Hinv name q Hq) as Hs. rewrite Hact in Hs.
      inversion Hs; assumption.
    + rewrite lookup_insert_ne in Hq0 by exact Hne. by apply (inv_sorted w Hinv name0).
  - intros r0 H. apply elem_of_cons in H as [H|H]; [discriminate|].
    destruct (inv_requested w Hinv r0 H) as [Hc|(q0 & Hq0 & Hin)].
    + left. by apply list_elem_of_further.
    + destruct (decide (name = schemaName r0)) as [Heq|Hne].
      * rewrite <- Heq, Hq in Hq0. inversion Hq0; subst q0.
        rewrite Hact in Hin. apply elem_of_cons in Hin as [->|Hin].
        -- left. apply list_elem_of_here.
        -- right. rewrite <- Heq, lookup_insert_eq. eexists. split; [reflexivity|].
           exact Hin.
      * right. rewrite lookup_insert_ne by exact Hne. eauto.
  - apply serial_cons; [apply (inv_serial w Hinv)|].
    intros r1 r2 Hactor Hreq Hname Hlt. simpl in Hactor. inversion Hactor; subst r2.
    eapply head_waited_for_all; eassumption.
  - assert (r ∈ active q) as Hhead by (rewrite Hact; apply list_elem_of_here).
    destruct (inv_active w Hinv name q r Hq Hhead) as [Hname Hticket].
    pose proof (inv_sorted w Hinv name q Hq) as Hs. rewrite Hact in Hs.
    apply StronglySorted_inv in Hs as [_ Hall]. rewrite Forall_forall in Hall.
    intros r0 H. apply elem_of_cons in H as [H|H].
    + injection H as ->. split; [exact Hticket|]. intros name0 q0 Hq0 Hin.
      destruct (decide (name = name0)) as [<-|Hne].
      * rewrite lookup_insert_eq in Hq0. inversion Hq0; subst q0.
        change (active (MkQueue None rest)) with rest in Hin.
        specialize (Hall r Hin). simpl in Hall. lia.
      * rewrite lookup_insert_ne in Hq0 by exact Hne.
        destruct (inv_active w Hinv name0 q0 r Hq0 Hin) as [Hname0 _]. congruence.
    + destruct (inv_done w Hinv r0 H) as [Hticket0 Hout].
      split; [exact Hticket0|]. intros name0 q0 Hq0 Hin.
      destruct (decide (name = name0)) as [<-|Hne].
      * rewrite lookup_insert_eq in Hq0. inversion Hq0; subst q0.
        change (active (MkQueue None rest)) with rest in Hin.
        apply (Hout name q Hq). rewrite Hact. by apply list_elem_of_further.
      * rewrite lookup_insert_ne in Hq0 by exact Hne. exact (Hout name0 q0 Hq0 Hin).
  - apply settled_cons; [apply (inv_settled w Hinv)|].
    intros r0 Hactor Hdone. simpl in Hactor. inversion Hactor; subst r0.
    apply (proj2 (inv_done w Hinv r Hdone) name q Hq).
    rewrite Hact. apply list_elem_of_here.
Qed.

(** Every step preserves the invariant. *)
Lemma step_invariant s w w' : Invariant w -> step s w = Some w' -> Invariant w'.
Proof.
  intros Hinv Hstep. destruct s as [name n|name|name].
  - eapply call_invariant; eassumption.
  - simpl in Hstep.
    destruct (validatorQueues w !! name) as [q|] eqn:Hq; simpl in Hstep;
      [|discriminate].
    destruct (running q) as [[[? ?] ?]|] eqn:Hrun; [discriminate|].
    destruct (pending q) as [|r rest] eqn:Hpend; [discriminate|].
    destruct (getValidator name w) as [v w1] eqn:Hget.
    destruct (getValidator_invariant name w v w1 Hinv Hget)
      as (Hinv1 & Hv & Hqs & Hcalls).
    inversion Hstep; subst w'.
    apply (segment_invariant w1 name q r v (awaits r) rest Hinv1);
      [rewrite Hqs; exact Hq| |exact Hv].
    unfold active. rewrite Hrun, Hpend. reflexivity.
  - simpl in Hstep.
    destruct (validatorQueues w !! name) as [q|] eqn:Hq; simpl in Hstep;
      [|discriminate].
    destruct (running q) as [[[r v] [|k]]|] eqn:Hrun; [| |discriminate];
      inversion Hstep; subst w'.
    + eapply completion_invariant; eauto.
    + apply (segment_invariant w name q r v k (pending q) Hinv Hq).
      * unfold active. rewrite Hrun. reflexivity.
      * eapply (inv_running w Hinv); eassumption.
Qed.

Lemma run_invariant schedule : forall w w',
  Invariant w -> run schedule w = Some w' -> Invariant w'.
Proof.
  induction schedule as [|s rest IH]; intros w w' Hinv Hrun; simpl in Hrun.
  - inversion Hrun; subst. exact Hinv.
  - destruct (step s w) as [w1|] eqn:Hstep; simpl in Hrun; [|discriminate].
    eapply IH; [|exact Hrun]. eapply step_invariant; eassumption.
Qed.

Lemma constructions_elem name v l :
  Constructed name v ∈ l -> (1 <= constructions name l)%nat.
Proof.
  induction l as [|e l IH]; intros H; [by apply elem_of_nil in H|].
  apply elem_of_cons in H as [<-|H].
  - simpl. rewrite String.eqb_refl. lia.
  - specialize (IH H). destruct e; simpl; lia.
Qed.

(** C9: over every schedule of the event loop, the validator of a
    schema name is constructed at most once, and exactly once as soon as
    a request of that name has run; every segment run under that name
    uses that one validator; whatever a request does comes after the
    completion of each request made earlier under the same name, and a
    request does nothing after its completion: so nothing a request does
    falls between two actions of a later request of the same name, the
    bodies run one at a time, first requested first. *)
Theorem validator_constructed_once_requests_serial schedule w :
  run schedule initial = Some w ->
  (forall name, (constructions name (log w) <= 1)%nat) /\
  (forall r v, Ran r v ∈ log w ->
               constructions (schemaName r) (log w) = 1%nat /\
               Constructed (schemaName r) v ∈ log w) /\
  (forall r1 v1 r2 v2,
      Ran r1 v1 ∈ log w -> Ran r2 v2 ∈ log w ->
      schemaName r1 = schemaName r2 -> v1 = v2) /\
  (forall newer e older r1 r2,
      log w = newer ++ e :: older ->
      actor e = Some r2 ->
      Requested r1 ∈ older ->
      schemaName r1 = schemaName r2 ->
      (ticket r1 < ticket r2)%nat ->
      Completed r1 ∈ older) /\
  (forall newer e1 between e2 older r1 r2,
      log w = newer ++ e1 :: between ++ e2 :: older ->
      actor e1 = Some r1 ->
      actor e2 = Some r2 ->
      Requested r1 ∈ older ->
      schemaName r1 = schemaName r2 ->
      (ticket r1 < ticket r2)%nat ->
      False).
Proof.
  intros Hrun.
  pose proof (run_invariant schedule initial w initial_invariant Hrun) as Hinv.
  split; [|split; [|split; [|split]]].
  - intros name. rewrite (inv_count w Hinv).
    destruct (yamlValidators w !! name); lia.
  - intros r v Hran. pose proof (inv_ran w Hinv r v Hran) as Hv.
    split; [|by apply (inv_cached w Hinv)].
    rewrite (inv_count w Hinv), Hv. reflexivity.
  - intros r1 v1 r2 v2 H1 H2 Hname.
    pose proof (inv_ran w Hinv r1 v1 H1) as Hv1.
    pose proof (inv_ran w Hinv r2 v2 H2) as Hv2.
    rewrite Hname in Hv1. congruence.
  - apply (inv_serial w Hinv).
  - intros newer e1 between e2 older r1 r2 Hlog H1 H2 Hreq Hname Hlt.
    assert (Completed r1 ∈ older) as Hdone.
    { apply (inv_serial w Hinv (newer ++ e1 :: between) e2 older r1 r2);
        [rewrite Hlog, <- app_assoc; reflexivity|assumption..]. }
    apply (inv_settled w Hinv newer e1 (between ++ e2 :: older) r1 Hlog H1).
    apply elem_of_app. right. by apply list_elem_of_further.
Qed.

End QueueFacts.

(** Two requests for the schema "S", the first suspending once: the
    second starts only when the first has completed, and the validator
    is constructed once. *)
Lemma validator_constructed_once_requests_serial_witness :
  let first := ValidatorQueue.MkRequest 0 "S" 1 in
  let second := ValidatorQueue.MkRequest 1 "S" 0 in
  let schedule :=
    [ValidatorQueue.Call "S" 1; ValidatorQueue.Call "S" 0;
     ValidatorQueue.Dequeue "S"; ValidatorQueue.Resume "S";
     ValidatorQueue.Resume "S"; ValidatorQueue.Dequeue "S";
     ValidatorQueue.Resume "S"] in
  exists w,
    ValidatorQueue.run schedule ValidatorQueue.initial = Some w /\
    rev (ValidatorQueue.log w)
    = [ValidatorQueue.Requested first; ValidatorQueue.Requested second;
       ValidatorQueue.Constructed "S" 0;
       ValidatorQueue.Ran first 0; ValidatorQueue.Ran first 0;
       ValidatorQueue.Completed first;
       ValidatorQueue.Ran second 0; ValidatorQueue.Completed second] /\
    (ValidatorQueue.constructions "S" (ValidatorQueue.log w) <= 1)%nat.
Proof.
  intros first second schedule.
  destruct (ValidatorQueue.run schedule ValidatorQueue.initial) as [w|] eqn:Hrun;
    [|vm_compute in Hrun; discriminate].
  exists w. split; [reflexivity|]. split.
  - vm_compute in Hrun. injection Hrun as <-. reflexivity.
  - exact (proj1 (validator_constructed_once_requests_serial schedule w Hrun) "S").
Defined.

(** The second request cannot start while the first is running. *)
Example no_second_start_while_running :
  ValidatorQueue.run
    [ValidatorQueue.Call "S" 1; ValidatorQueue.Call "S" 0;
     ValidatorQueue.Dequeue "S"; ValidatorQueue.Dequeue "S"]
    ValidatorQueue.initial
  = None.
Proof. reflexivity. Qed.

(** ** The indentation tree and the walk along it *)

Section OutlineFacts.

Import Indent Outline.

Lemma getIndent_nonneg l : 0 <= getIndent l.
Proof.
  unfold getIndent, Text.strlen.
  assert (String.length (Str.trimStart l) <= String.length l)%nat; [|lia].
  induction l as [|c l IH]; simpl; [lia|].
  destruct (Str.isWhite c); simpl; lia.
Qed.

Lemma solidAt_unique lines k d d' : solidAt lines k d -> solidAt lines k d' -> d = d'.
Proof. intros (l & Hl & _ & <-) (l' & Hl' & _ & <-). congruence. Qed.

Lemma solid_not_blank lines k d : solidAt lines k d -> blankAt lines k -> False.
Proof. intros (l & Hl & Hb & _) (l' & Hl' & Hb'). congruence. Qed.

Lemma lastSolid_unique lines j p p' :
  lastSolid lines j p -> lastSolid lines j p' -> p = p'.
Proof.
  intros (Hr & Hs & Hn) (Hr' & Hs' & Hn').
  destruct (Z.lt_trichotomy p p') as [Hlt|[->|Hgt]]; [|reflexivity|].
  - destruct (Hs' ltac:(lia)) as (d & Hd).
    exfalso. apply (Hn (Z.to_nat p') d); [lia|exact Hd].
  - destruct (Hs ltac:(lia)) as (d & Hd).
    exfalso. apply (Hn' (Z.to_nat p) d); [lia|exact Hd].
Qed.

Lemma readPredecessor_app predecessor entry p :
  p < Z.of_nat (length predecessor) ->
  readPredecessor (predecessor ++ [entry]) p = readPredecessor predecessor p.
Proof.
  intros Hp. unfold readPredecessor, at_.
  destruct (Z.ltb_spec p 0); [reflexivity|].
  rewrite lookup_app_l by lia. reflexivity.
Qed.

Lemma readPredecessor_solid lines st i p d :
  Outlined lines st i -> 0 <= p < Z.of_nat i -> solidAt lines (Z.to_nat p) d ->
  exists v, readPredecessor (scanPredecessor st) p = Some v /\
            parentOf lines (Z.to_nat p) d v.
Proof.
  intros Hout Hp Hd.
  destruct (out_solid _ _ _ Hout (Z.to_nat p) d ltac:(lia) Hd) as (v & Hv & Hpar).
  exists v. split; [|exact Hpar].
  unfold readPredecessor, at_. destruct (Z.ltb_spec p 0); [lia|].
  rewrite Hv. reflexivity.
Qed.

Lemma solidAt_indent lines st i k d :
  Outlined lines st i -> (k < i)%nat -> solidAt lines k d ->
  forall extra, at_ (scanIndents st ++ extra) (Z.of_nat k) = Some d.
Proof.
  intros Hout Hk (l & Hl & _ & Hd) extra. unfold at_.
  destruct (Z.ltb_spec (Z.of_nat k) 0); [lia|]. rewrite Nat2Z.id.
  rewrite (out_indents _ _ _ Hout).
  apply lookup_app_l_Some. rewrite list_lookup_fmap.
  rewrite lookup_take_lt by lia. rewrite Hl. simpl. congruence.
Qed.

(** The climb of the de-indenting case ends at the parent. *)
Lemma climb_parent lines st i d extra :
  Outlined lines st i ->
  forall budget n,
    n < Z.of_nat budget ->
    -1 <= n < Z.of_nat i ->
    (0 <= n -> exists dn, solidAt lines (Z.to_nat n) dn) ->
    (forall k dk, n < Z.of_nat k < Z.of_nat i -> solidAt lines k dk -> d <= dk) ->
    exists v,
      climb budget (scanPredecessor st) (scanIndents st ++ extra) d (Some n)
      = Some (Some v) /\ parentOf lines i d v.
Proof.
  intros Hout. induction budget as [|budget IH]; intros n Hbudget Hn Hsolid Habove.
  - assert (n = -1) as -> by lia. simpl. exists (-1). split; [reflexivity|].
    split; [lia|]. split; [lia|]. exact Habove.
  - simpl. destruct (Z.geb_spec n 0) as [Hpos|Hneg]; simpl.
    + destruct (Hsolid Hpos) as (dn & Hdn).
      pose proof (solidAt_indent lines st i (Z.to_nat n) dn Hout ltac:(lia) Hdn extra)
        as Hind.
      rewrite Z2Nat.id in Hind by lia. rewrite Hind.
      destruct (Z.geb_spec dn d) as [Hge|Hlt].
      * destruct (readPredecessor_solid lines st i n dn Hout ltac:(lia) Hdn)
          as (v & Hv & (Hvr & Hvs & Hva)).
        rewrite Hv. apply IH; [lia|lia| |].
        -- intros Hv0. destruct (Hvs Hv0) as (dv & Hdv & _). eauto.
        -- intros k dk Hk Hdk.
           destruct (Z.lt_trichotomy (Z.of_nat k) n) as [Hlt|[Heq|Hgt]].
           ++ specialize (Hva k dk ltac:(lia) Hdk). lia.
           ++ subst n. rewrite Nat2Z.id in Hdn.
              rewrite (solidAt_unique _ _ _ _ Hdk Hdn). lia.
           ++ apply (Habove k dk); [lia|exact Hdk].
      * exists n. split; [reflexivity|]. split; [lia|]. split; [|exact Habove].
        intros _. exists dn. split; [exact Hdn|lia].
    + assert (n = -1) as -> by lia. exists (-1). split; [reflexivity|].
      split; [lia|]. split; [lia|]. exact Habove.
Qed.

Lemma outlined_snoc lines st i line entry ind' prev' :
  Outlined lines st i ->
  lines !! i = Some line ->
  (isBlank line = false ->
   (exists v, entry = Some v /\ parentOf lines i (getIndent line) v) /\
   prev' = Z.of_nat i /\ ind' = getIndent line) ->
  (isBlank line = true ->
   entry = readPredecessor (scanPredecessor st) (scanPrevPredecessor st) /\
   prev' = scanPrevPredecessor st /\ ind' = scanIndentation st) ->
  Outlined lines
    (MkScan (scanPredecessor st ++ [entry]) (scanIndents st ++ [getIndent line])
            ind' prev')
    (S i).
Proof.
  intros Hout Hline Hsolid Hblank.
  destruct Hout as [Hlen Hind (Hpr & Hps & Hpn) [Hi1 Hi2] Hs Hb].
  assert (forall d, solidAt lines i d -> isBlank line = false /\ d = getIndent line)
    as Hat.
  { intros d (l & Hl & Hbl & Hd). assert (l = line) as -> by congruence. auto. }
  split; simpl.
  - rewrite length_app. simpl. lia.
  - rewrite (take_S_r _ _ _ Hline), fmap_app, Hind. reflexivity.
  - destruct (isBlank line) eqn:Hbl.
    + destruct (Hblank eq_refl) as (_ & -> & _).
      split; [lia|]. split; [exact Hps|].
      intros k d Hk Hd.
      destruct (decide (k = i)) as [->|Hne].
      * destruct (Hat d Hd). congruence.
      * apply (Hpn k d); [lia|exact Hd].
    + destruct (Hsolid eq_refl) as (_ & -> & _).
      split; [lia|]. split.
      * intros _. rewrite Nat2Z.id. exists (getIndent line), line. auto.
      * intros k d Hk. lia.
  - destruct (isBlank line) eqn:Hbl.
    + destruct (Hblank eq_refl) as (_ & -> & ->). split; assumption.
    + destruct (Hsolid eq_refl) as (_ & -> & ->). split; [lia|].
      intros d Hd _. rewrite Nat2Z.id in Hd. destruct (Hat d Hd). congruence.
  - intros j d Hj Hd. destruct (decide (j = i)) as [->|Hne].
    + destruct (Hat d Hd) as [Hbl ->].
      destruct (Hsolid Hbl) as ((v & -> & Hv) & _).
      exists v. split; [|exact Hv].
      rewrite lookup_app_r by lia. rewrite Hlen, Nat.sub_diag. reflexivity.
    + destruct (Hs j d ltac:(lia) Hd) as (v & Hv & Hpar).
      exists v. split; [|exact Hpar]. apply lookup_app_l_Some. exact Hv.
  - intros j p Hj Hbj Hp.
    assert (p < Z.of_nat j) as Hpj by (destruct Hp as [? _]; lia).
    rewrite readPredecessor_app by lia.
    destruct (decide (j = i)) as [->|Hne].
    + destruct Hbj as (l & Hl & Hbl). assert (l = line) as -> by congruence.
      destruct (Hblank Hbl) as (-> & _ & _).
      rewrite lookup_app_r by lia. rewrite Hlen, Nat.sub_diag. simpl.
      rewrite (lastSolid_unique lines i p (scanPrevPredecessor st) Hp);
        [reflexivity|]. split; [exact Hpr|]. split; assumption.
    + apply lookup_app_l_Some. apply Hb; [lia|exact Hbj|exact Hp].
Qed.

Lemma scanLine_outlined lines st i line :
  Outlined lines st i -> lines !! i = Some line ->
  exists st', scanLine st (Z.of_nat i) line = Some st' /\ Outlined lines st' (S i).
Proof.
  intros Hout Hline. unfold scanLine.
  pose proof (getIndent_nonneg line) as Hd.
  pose proof (out_prev _ _ _ Hout) as (Hpr & Hps & Hpn).
  pose proof (out_indentation _ _ _ Hout) as [Hi1 Hi2].
  assert (scanIndentation st <> -1 ->
          exists dp, solidAt lines (Z.to_nat (scanPrevPredecessor st)) dp /\
                     scanIndentation st = dp /\ 0 <= scanPrevPredecessor st)
    as Hprev.
  { intros Hne. assert (0 <= scanPrevPredecessor st) as H0.
    { destruct (Z.eq_dec (scanPrevPredecessor st) (-1)) as [He|]; [|lia].
      specialize (Hi1 He). lia. }
    destruct (Hps H0) as (dp & Hdp). exists dp. auto. }
  destruct (isBlank line) eqn:Hbl.
  { eexists. split; [reflexivity|].
    apply outlined_snoc; [exact Hout|exact Hline| |]; [congruence|auto]. }
  destruct (Z.eqb_spec (getIndent line) (scanIndentation st)) as [Heq|Hne].
  { eexists. split; [reflexivity|].
    apply outlined_snoc; [exact Hout|exact Hline| |congruence].
    intros _. split; [|auto].
    destruct (Hprev ltac:(lia)) as (dp & Hdp & Hind & H0).
    destruct (readPredecessor_solid lines st i (scanPrevPredecessor st) dp Hout
                ltac:(lia) Hdp)
      as (v & Hv & (Hvr & Hvs & Hva)).
    exists v. split; [exact Hv|]. rewrite Heq, Hind.
    split; [lia|]. split; [exact Hvs|].
    intros k dk Hk Hdk.
    destruct (Z.lt_trichotomy (Z.of_nat k) (scanPrevPredecessor st))
      as [Hlt|[Hkeq|Hgt]].
    - apply (Hva k dk); [lia|exact Hdk].
    - rewrite <- Hkeq, Nat2Z.id in Hdp.
      rewrite (solidAt_unique _ _ _ _ Hdk Hdp). lia.
    - exfalso. apply (Hpn k dk); [lia|exact Hdk]. }
  destruct (Z.ltb_spec (getIndent line) (scanIndentation st)) as [Hlt|Hge].
  { destruct (Hprev ltac:(lia)) as (dp & Hdp & Hind & H0).
    destruct (climb_parent lines st i (getIndent line) [getIndent line] Hout
                (length (scanPredecessor st) + 1) (scanPrevPredecessor st))
      as (v & Hv & Hpar).
    - rewrite (out_length _ _ _ Hout). lia.
    - lia.
    - intros _. eauto.
    - intros k dk Hk Hdk. exfalso. apply (Hpn k dk); [lia|exact Hdk].
    - rewrite Hv. simpl. eexists. split; [reflexivity|].
      apply outlined_snoc; [exact Hout|exact Hline| |congruence].
      intros _. split; [|auto]. exists v. auto. }
  eexists. split; [reflexivity|].
  apply outlined_snoc; [exact Hout|exact Hline| |congruence].
  intros _. split; [|auto]. eexists. split; [reflexivity|].
  split; [lia|]. split.
  - intros H0. destruct (Hps H0) as (dp & Hdp). exists dp. split; [exact Hdp|].
    specialize (Hi2 dp Hdp H0). lia.
  - intros k dk Hk Hdk. exfalso. apply (Hpn k dk); [lia|exact Hdk].
Qed.

Lemma scanLines_outlined lines : forall rest st i,
  Outlined lines st i -> (i <= length lines)%nat -> drop i lines = rest ->
  exists st', scanLines st (Z.of_nat i) rest = Some st' /\
              Outlined lines st' (length lines).
Proof.
  induction rest as [|line rest IH]; intros st i Hout Hi Hdrop; simpl.
  - exists st. split; [reflexivity|].
    apply drop_nil_inv in Hdrop.
    replace (length lines) with i by lia. exact Hout.
  - assert (lines !! i = Some line) as Hline.
    { rewrite <- (Nat.add_0_r i), <- lookup_drop, Hdrop. reflexivity. }
    destruct (scanLine_outlined lines st i line Hout Hline) as (st1 & -> & Hst1).
    simpl. replace (Z.of_nat i + 1) with (Z.of_nat (S i)) by lia.
    apply IH; [exact Hst1| |].
    + apply lookup_lt_Some in Hline. lia.
    + rewrite <- Nat.add_1_r. rewrite <- drop_drop, Hdrop. reflexivity.
Qed.

Lemma initial_outlined lines : Outlined lines (MkScan [] [] (-1) (-1)) 0.
Proof.
  split; simpl.
  - reflexivity.
  - reflexivity.
  - split; [lia|]. split; [lia|]. intros k d Hk. lia.
  - split; [reflexivity|]. intros d _ H. lia.
  - intros j d Hj. lia.
  - intros j p Hj. lia.
Qed.

Lemma getYamlIndentTree_outlined code :
  exists st,
    getYamlIndentTree code
    = Ret (MkIndentTree (scanPredecessor st) (scanIndents st)) /\
    Outlined (Text.lines code) st (length (Text.lines code)).
Proof.
  unfold getYamlIndentTree.
  destruct (scanLines_outlined (Text.lines code) (Text.lines code)
              (MkScan [] [] (-1) (-1)) 0%nat
              (initial_outlined (Text.lines code)) ltac:(lia) eq_refl)
    as (st & Hscan & Hout).
  change (Z.of_nat 0) with 0 in Hscan. rewrite Hscan.
  exists st. split; [reflexivity|exact Hout].
Qed.

Lemma outlined_all_solid lines st j d :
  Outlined lines st (length lines) -> solidAt lines j d ->
  exists v, scanPredecessor st !! j = Some (Some v) /\ parentOf lines j d v.
Proof.
  intros Hout Hd. apply (out_solid _ _ _ Hout); [|exact Hd].
  destruct Hd as (l & Hl & _). apply lookup_lt_Some in Hl. exact Hl.
Qed.

Lemma outlined_all_blank lines st j p :
  Outlined lines st (length lines) -> blankAt lines j -> lastSolid lines j p ->
  scanPredecessor st !! j = Some (readPredecessor (scanPredecessor st) p).
Proof.
  intros Hout Hb Hp. apply (out_blank _ _ _ Hout); [|exact Hb|exact Hp].
  destruct Hb as (l & Hl & _). apply lookup_lt_Some in Hl. exact Hl.
Qed.

(** X1: [getYamlIndentTree] returns, for every text, two arrays with one
    entry per line.  [indentation] holds the indentation of each line.
    For a line that is not blank, [predecessor] holds its parent: the
    nearest line above that is not blank and is indented less, or [-1]
    when there is none.  For a blank line it holds the parent of the
    nearest line above that is not blank, or [undefined] when every
    line above is blank. *)
Theorem indent_tree_parents code :
  let lines := Text.lines code in
  exists tree,
    getYamlIndentTree code = Ret tree /\
    indentation tree = getIndent <$> lines /\
    length (predecessor tree) = length lines /\
    (forall j d, solidAt lines j d ->
       exists v, predecessor tree !! j = Some (Some v) /\ parentOf lines j d v) /\
    (forall j p, blankAt lines j -> lastSolid lines j p ->
       predecessor tree !! j = Some (readPredecessor (predecessor tree) p)).
Proof.
  intros lines.
  destruct (getYamlIndentTree_outlined code) as (st & Htree & Hout).
  fold lines in Hout. rewrite Htree.
  eexists. split; [reflexivity|]. simpl.
  split; [|split; [|split]].
  - rewrite (out_indents _ _ _ Hout), firstn_all. reflexivity.
  - apply (out_length _ _ _ Hout).
  - intros j d Hd. apply (out_solid _ _ _ Hout); [|exact Hd].
    destruct Hd as (l & Hl & _). apply lookup_lt_Some in Hl. exact Hl.
  - intros j p (l & Hl & Hb) Hp.
    apply (out_blank _ _ _ Hout); [|by exists l|exact Hp].
    apply lookup_lt_Some in Hl. exact Hl.
Qed.

Lemma walk_unfold budget lines tree lineIndent n path :
  n <> -1 ->
  walk (S budget) lines tree lineIndent (Some n) path
  = match at_ lines n with
    | None => Throw TypeError
    | Some l =>
        let trimmed := Str.trim l in
        let visit :=
          let next := readPredecessor (predecessor tree) n in
          if match at_ (indentation tree) n with
             | Some ind => lineIndent >=? ind
             | None => false
             end
          then
            match shapeOf trimmed with
            | Push element =>
                walk budget lines tree lineIndent next (path ++ [element])
            | Skip => walk budget lines tree lineIndent next path
            | Unrecognised => Ret None
            end
          else walk budget lines tree lineIndent next path in
        if Text.strlen trimmed =? 0 then
          let prev := scanBack lines (Z.to_nat n) in
          if prev =? -1 then Ret (Some (rev path))
          else
            match at_ lines prev with
            | None => Throw TypeError
            | Some p =>
                if getIndent p <? lineIndent
                then walk budget lines tree lineIndent (Some prev) path
                else visit
            end
        else visit
    end.
Proof.
  intros Hn. destruct n as [|p|p]; try reflexivity.
  destruct p; try reflexivity. lia.
Qed.

Lemma walk_top budget lines tree lineIndent path :
  walk budget lines tree lineIndent (Some (-1)) path = Ret (Some (rev path)).
Proof. destruct budget; reflexivity. Qed.

Lemma scanBack_lastSolid lines : forall k,
  (k < length lines)%nat ->
  let p := scanBack lines k in
  -1 <= p <= Z.of_nat k /\
  (0 <= p -> exists d, solidAt lines (Z.to_nat p) d) /\
  (forall j d, p < Z.of_nat j <= Z.of_nat k -> ~ solidAt lines j d).
Proof.
  induction k as [|k IH]; intros Hk; simpl.
  - destruct (lookup_lt_is_Some_2 lines 0%nat Hk) as [l Hl]. rewrite Hl.
    destruct (isBlank l) eqn:Hb.
    + split; [lia|]. split; [lia|]. intros j d Hj (l' & Hl' & Hb' & _).
      assert (j = 0%nat) as -> by lia. congruence.
    + split; [lia|]. split; [|intros j d Hj; lia].
      intros _. exists (getIndent l), l. auto.
  - destruct (lookup_lt_is_Some_2 lines (S k) Hk) as [l Hl]. rewrite Hl.
    destruct (isBlank l) eqn:Hb.
    + destruct (IH ltac:(lia)) as (Hr & Hs & Hn).
      split; [lia|]. split; [exact Hs|].
      intros j d Hj Hd. destruct (decide (j = S k)) as [->|Hne].
      * destruct Hd as (l' & Hl' & Hb' & _). congruence.
      * apply (Hn j d); [lia|exact Hd].
    + split; [lia|]. split; [|intros j d Hj; lia].
      intros _. rewrite Nat2Z.id. exists (getIndent l), l. auto.
Qed.

Lemma walked_le lines path n n' r :
  n' <= n -> walked lines path n' r -> walked lines path n r.
Proof.
  intros Hle Hw final Hr. destruct (Hw final Hr) as (ks & pushed & Hf & Hp & Hs & Hall).
  exists ks, pushed. repeat split; try assumption.
  eapply Forall_impl; [exact Hall|]. simpl. intros k Hk. lia.
Qed.

Lemma walked_push lines path n n' l e r :
  0 <= n -> n' < n -> lines !! Z.to_nat n = Some l ->
  shapeOf (Str.trim l) = Push e ->
  walked lines (path ++ [e]) n' r -> walked lines path n r.
Proof.
  intros Hn Hlt Hl He Hw final Hr.
  destruct (Hw final Hr) as (ks & pushed & Hf & Hp & Hs & Hall).
  exists (Z.to_nat n :: ks), (e :: pushed). split; [|split; [|split]].
  - rewrite Hf, <- app_assoc. reflexivity.
  - constructor; [|exact Hp]. exists l. auto.
  - constructor; [exact Hs|].
    eapply Forall_impl; [exact Hall|]. simpl. intros k Hk. lia.
  - constructor; [lia|].
    eapply Forall_impl; [exact Hall|]. simpl. intros k Hk. lia.
Qed.

Section Walk.

Variable lines : list string.
Variable tree : IndentTree.
Variable lineIndent : Z.

Hypothesis tree_solid : forall j d,
  solidAt lines j d ->
  exists v, predecessor tree !! j = Some (Some v) /\ parentOf lines j d v.
Hypothesis tree_blank : forall j p,
  blankAt lines j -> lastSolid lines j p ->
  predecessor tree !! j = Some (readPredecessor (predecessor tree) p).

Lemma next_of_solid n d :
  0 <= n -> solidAt lines (Z.to_nat n) d ->
  exists v, readPredecessor (predecessor tree) n = Some v /\ -1 <= v < n.
Proof.
  intros Hn Hd. destruct (tree_solid _ _ Hd) as (v & Hv & (Hr & _)).
  exists v. split; [|lia]. unfold readPredecessor, at_.
  destruct (Z.ltb_spec n 0); [lia|]. rewrite Hv. reflexivity.
Qed.

Lemma next_of_blank n p :
  0 <= n -> blankAt lines (Z.to_nat n) -> lastSolid lines (Z.to_nat n) p -> 0 <= p ->
  exists v, readPredecessor (predecessor tree) n = Some v /\ -1 <= v < n.
Proof.
  intros Hn Hb Hp H0. pose proof (tree_blank _ _ Hb Hp) as Hread.
  destruct Hp as (Hr & Hs & _). destruct (Hs H0) as (d & Hd).
  destruct (next_of_solid p d H0 Hd) as (v & Hv & Hvr).
  exists v. split; [|lia]. rewrite <- Hv. unfold readPredecessor at 1, at_.
  destruct (Z.ltb_spec n 0); [lia|]. rewrite Hread. reflexivity.
Qed.

Lemma walk_returns : forall budget n path,
  -1 <= n < Z.of_nat (length lines) -> n < Z.of_nat budget ->
  exists r, walk budget lines tree lineIndent (Some n) path = Ret r /\
            walked lines path n r.
Proof.
  induction budget as [|budget IH]; intros n path Hn Hb.
  { assert (n = -1) as -> by lia. rewrite walk_top. eexists. split; [reflexivity|].
    intros final [= <-]. exists [], []. rewrite app_nil_r.
    repeat split; constructor. }
  destruct (Z.eq_dec n (-1)) as [->|Hne].
  { rewrite walk_top. eexists. split; [reflexivity|].
    intros final [= <-]. exists [], []. rewrite app_nil_r.
    repeat split; constructor. }
  rewrite walk_unfold by exact Hne.
  destruct (lookup_lt_is_Some_2 lines (Z.to_nat n) ltac:(lia)) as [l Hl].
  assert (at_ lines n = Some l) as ->.
  { unfold at_. destruct (Z.ltb_spec n 0); [lia|exact Hl]. }
  cbv zeta.
  assert (forall v, readPredecessor (predecessor tree) n = Some v -> -1 <= v < n ->
            exists r,
              (if match at_ (indentation tree) n with
                  | Some ind => lineIndent >=? ind
                  | None => false
                  end
               then
                 match shapeOf (Str.trim l) with
                 | Push element =>
                     walk budget lines tree lineIndent
                          (readPredecessor (predecessor tree) n) (path ++ [element])
                 | Skip =>
                     walk budget lines tree lineIndent
                          (readPredecessor (predecessor tree) n) path
                 | Unrecognised => Ret None
                 end
               else walk budget lines tree lineIndent
                         (readPredecessor (predecessor tree) n) path) = Ret r /\
              walked lines path n r) as Hvisit.
  { intros v -> Hv.
    assert (forall path', exists r,
              walk budget lines tree lineIndent (Some v) path' = Ret r /\
              walked lines path' v r) as Hnext.
    { intros path'. apply IH; lia. }
    destruct (match at_ (indentation tree) n with
              | Some ind => lineIndent >=? ind
              | None => false
              end).
    - destruct (shapeOf (Str.trim l)) as [e| |] eqn:Hshape.
      + destruct (Hnext (path ++ [e])) as (r & Hr & Hw).
        exists r. split; [exact Hr|].
        apply (walked_push lines path n v l e r); try assumption; lia.
      + destruct (Hnext path) as (r & Hr & Hw).
        exists r. split; [exact Hr|]. apply (walked_le lines path n v); [lia|exact Hw].
      + exists None. split; [reflexivity|]. intros final Hf. discriminate.
    - destruct (Hnext path) as (r & Hr & Hw).
      exists r. split; [exact Hr|]. apply (walked_le lines path n v); [lia|exact Hw]. }
  destruct (Text.strlen (Str.trim l) =? 0) eqn:Hblank.
  - pose proof (scanBack_lastSolid lines (Z.to_nat n) ltac:(lia)) as (Hr & Hs & Hnone).
    cbv zeta in Hr, Hs, Hnone.
    set (prev := scanBack lines (Z.to_nat n)) in *.
    assert (blankAt lines (Z.to_nat n)) as Hbn by (exists l; auto).
    destruct (Z.eqb_spec prev (-1)) as [Hp|Hp].
    { eexists. split; [reflexivity|].
      intros final [= <-]. exists [], []. rewrite app_nil_r.
      repeat split; constructor. }
    destruct (Hs ltac:(lia)) as (d & Hd).
    assert (prev < n) as Hlt.
    { destruct (Z.eq_dec prev n) as [He|]; [|lia].
      rewrite He in Hd. exfalso. eapply solid_not_blank; eassumption. }
    destruct Hd as (pl & Hpl & Hpb & Hpd).
    assert (at_ lines prev = Some pl) as ->.
    { unfold at_. destruct (Z.ltb_spec prev 0); [lia|exact Hpl]. }
    destruct (getIndent pl <? lineIndent).
    + destruct (IH prev path ltac:(lia) ltac:(lia)) as (r & Hr' & Hw).
      exists r. split; [exact Hr'|]. apply (walked_le lines path n prev); [lia|exact Hw].
    + destruct (next_of_blank n prev ltac:(lia) Hbn) as (v & Hv & Hvr); [|lia|].
      * split; [lia|]. split; [intros _; exists d, pl; auto|].
        intros j dj Hj. apply Hnone. lia.
      * apply (Hvisit v Hv Hvr).
  - destruct (next_of_solid n (getIndent l) ltac:(lia)) as (v & Hv & Hvr).
    + exists l. auto.
    + apply (Hvisit v Hv Hvr).
Qed.

End Walk.

Lemma Forall2_rev {A B : Type} (P : A -> B -> Prop) l k :
  Forall2 P l k -> Forall2 P (rev l) (rev k).
Proof.
  induction 1 as [|x y l k Hxy Hlk IH]; simpl; [constructor|].
  apply Forall2_app; [exact IH|]. constructor; [exact Hxy|constructor].
Qed.

Lemma StronglySorted_rev {A : Type} (R : A -> A -> Prop) l :
  StronglySorted R l -> StronglySorted (fun a b => R b a) (rev l).
Proof.
  induction 1 as [|x l Hl IH Hx]; simpl; [constructor|].
  apply StronglySorted_app_2; [|exact IH|repeat constructor].
  intros a b Ha Hb. apply list_elem_of_singleton in Hb as ->.
  rewrite Forall_forall in Hx. apply Hx.
  apply list_elem_of_In in Ha. apply list_elem_of_In. apply in_rev. exact Ha.
Qed.

(** X2: for a cursor row that is a line of the text,
    [locateFromIndentation] returns, with a path or with [undefined]:
    the walk along the predecessors ends and reads no line outside the
    text. *)
Theorem locateFromIndentation_returns line code position :
  0 <= row position < Z.of_nat (length (Text.lines code)) ->
  exists r, locateFromIndentation line code position = Ret r.
Proof.
  intros Hrow. unfold locateFromIndentation.
  destruct (getYamlIndentTree_outlined code) as (st & -> & Hout).
  pose proof (fun j d => outlined_all_solid _ st j d Hout) as Hsolid.
  pose proof (fun j p => outlined_all_blank _ st j p Hout) as Hblank.
  set (tree := MkIndentTree (scanPredecessor st) (scanIndents st)) in *.
  rewrite bind_Ret. cbv beta zeta.
  destruct (walk_returns (Text.lines code) tree (getIndent line) Hsolid Hblank
              (length (Text.lines code) + 1) (row position) [])
    as (r & Hr & _); [lia|lia|].
  exists r. exact Hr.
Qed.

(** X3: a path returned by [locateFromIndentation] reads, root first,
    the elements of lines of strictly increasing number, none below the
    cursor row: [0] for a line that starts with a dash, the key for a
    line that ends with a colon. *)
Theorem locateFromIndentation_path line code position path :
  locateFromIndentation line code position = Ret (Some path) ->
  exists ks,
    pushedFrom (Text.lines code) ks path /\
    StronglySorted (fun a b => (a < b)%nat) ks /\
    Forall (fun k => Z.of_nat k <= row position) ks.
Proof.
  unfold locateFromIndentation.
  destruct (getYamlIndentTree_outlined code) as (st & -> & Hout).
  pose proof (fun j d => outlined_all_solid _ st j d Hout) as Hsolid.
  pose proof (fun j p => outlined_all_blank _ st j p Hout) as Hblank.
  set (tree := MkIndentTree (scanPredecessor st) (scanIndents st)) in *.
  rewrite bind_Ret. cbv beta zeta. intros Hwalk.
  assert (-1 <= row position < Z.of_nat (length (Text.lines code))) as Hrow.
  { destruct (Z.eq_dec (row position) (-1)) as [->|Hne]; [lia|].
    destruct (length (Text.lines code) + 1)%nat eqn:Hb; [lia|].
    rewrite walk_unfold in Hwalk by exact Hne.
    destruct (at_ (Text.lines code) (row position)) as [l|] eqn:Hl; [|discriminate].
    unfold at_ in Hl. destruct (Z.ltb_spec (row position) 0); [discriminate|].
    apply lookup_lt_Some in Hl. lia. }
  destruct (walk_returns (Text.lines code) tree (getIndent line) Hsolid Hblank
              (length (Text.lines code) + 1) (row position) [])
    as (r & Hr & Hw); [lia|lia|].
  rewrite Hr in Hwalk. injection Hwalk as ->.
  destruct (Hw path eq_refl) as (ks & pushed & -> & Hp & Hs & Hall).
  exists (rev ks). split; [|split].
  - apply Forall2_rev. exact Hp.
  - apply (StronglySorted_rev _ _ Hs).
  - apply Forall_forall. intros k Hk. rewrite Forall_forall in Hall.
    apply Hall. apply list_elem_of_In. apply in_rev. apply list_elem_of_In. exact Hk.
Qed.

(** X4: for a cursor row past the last line, or below [-1],
    [locateFromIndentation] raises a [TypeError]: it reads the line at
    the row before anything else. *)
Theorem locateFromIndentation_outside line code position :
  row position < -1 \/ Z.of_nat (length (Text.lines code)) <= row position ->
  locateFromIndentation line code position = Throw TypeError.
Proof.
  intros Hrow. unfold locateFromIndentation.
  destruct (getYamlIndentTree_outlined code) as (st & -> & _).
  rewrite bind_Ret. cbv beta zeta.
  destruct (length (Text.lines code) + 1)%nat eqn:Hb; [lia|].
  rewrite walk_unfold by lia.
  assert (at_ (Text.lines code) (row position) = None) as ->; [|reflexivity].
  unfold at_. destruct (Z.ltb_spec (row position) 0); [reflexivity|].
  apply lookup_ge_None. lia.
Qed.

End OutlineFacts.

Lemma locateFromIndentation_returns_witness :
  exists r,
    Indent.locateFromIndentation "  " (Text.joinLines ["a:"; "  b: 1"; "  "])
                                 (MkPosition 2 2) = Ret r.
Proof.
  apply (locateFromIndentation_returns "  " _ (MkPosition 2 2)).
  vm_compute. split; [discriminate|reflexivity].
Defined.

Lemma locateFromIndentation_path_witness :
  exists ks,
    Outline.pushedFrom (Text.lines (Text.joinLines ["a:"; "  b:"; "    "])) ks
                       [JStr "a"; JStr "b"] /\
    StronglySorted (fun a b => (a < b)%nat) ks /\
    Forall (fun k => Z.of_nat k <= 2) ks.
Proof.
  apply (locateFromIndentation_path "    " _ (MkPosition 2 4)).
  vm_compute. reflexivity.
Defined.

Lemma locateFromIndentation_outside_witness :
  Indent.locateFromIndentation "" (Text.joinLines ["a:"; "  b: 1"]) (MkPosition 2 0)
  = Throw TypeError.
Proof.
  apply (locateFromIndentation_outside "" _ (MkPosition 2 0)).
  right. vm_compute. discriminate.
Defined.

(** ** The annotated tree and the cursor in it *)

Section AnnotateFacts.

Import Annotate LocateLoop.

Lemma Node_induction (P : Node -> Prop) :
  (forall ty txt s e cs, Forall P cs -> P (MkNode ty txt s e cs)) ->
  forall node, P node.
Proof.
  intros Hnode. fix IH 1. intros [ty txt s e cs]. apply Hnode.
  induction cs as [|c cs IHcs]; constructor; [apply IH|exact IHcs].
Qed.

Lemma Annotated_induction (P : Annotated -> Prop) :
  (forall s e r k cs, Forall P cs -> P (MkAnnotated s e r k cs)) ->
  forall a, P a.
Proof.
  intros Hnode. fix IH 1. intros [s e r k cs]. apply Hnode.
  induction cs as [|c cs IHcs]; constructor; [apply IH|exact IHcs].
Qed.

Lemma paired_iff s e r k cs :
  paired (MkAnnotated s e r k cs)
  <-> (isMappingKind k = true -> Nat.Even (length cs)) /\ Forall paired cs.
Proof.
  simpl. split; intros [Heven Hall]; (split; [exact Heven|]); clear Heven.
  - induction cs as [|c cs IH]; [constructor|].
    destruct Hall as [Hc Hcs]. constructor; [exact Hc|exact (IH Hcs)].
  - induction Hall as [|c cs Hc Hcs IH]; [exact I|split; assumption].
Qed.

Lemma locate_mapping_loop position node pathSoFar failedLast :
  isMappingKind (kind node) = true ->
  locate position node pathSoFar failedLast
  = locatePairs position (components node) pathSoFar failedLast.
Proof.
  destruct node as [s e r k cs]. simpl. intros ->.
  match goal with
  | |- ?loop cs = _ =>
      assert (forall n l, (length l <= n)%nat ->
                loop l = locatePairs position l pathSoFar failedLast) as Hloop
  end.
  { induction n as [|n IH]; intros [|keyC [|valueC rest]] Hlen; simpl in *;
      try reflexivity; try lia.
    destruct (covers keyC position); [reflexivity|].
    destruct (covers valueC position); [reflexivity|].
    apply IH. lia. }
  apply (Hloop (length cs)). lia.
Qed.

Lemma locatePairs_skip position pathSoFar failedLast : forall i cs,
  (2 * i <= length cs)%nat ->
  (forall j c, (j < 2 * i)%nat -> cs !! j = Some c -> covers c position = false) ->
  locatePairs position cs pathSoFar failedLast
  = locatePairs position (drop (2 * i) cs) pathSoFar failedLast.
Proof.
  induction i as [|i IH]; intros cs Hlen Hpre; [reflexivity|].
  destruct cs as [|keyC [|valueC rest]]; simpl in Hlen; try lia.
  simpl. rewrite (Hpre 0%nat keyC ltac:(lia) eq_refl).
  rewrite (Hpre 1%nat valueC ltac:(lia) eq_refl).
  rewrite IH.
  - replace (i + S (i + 0))%nat with (S (2 * i)) by lia. reflexivity.
  - lia.
  - intros j c Hj Hc. apply (Hpre (S (S j)) c); [lia|exact Hc].
Qed.

Lemma locatePairs_miss position pathSoFar failedLast : forall n cs,
  (length cs <= n)%nat ->
  (forall c, c ∈ cs -> covers c position = false) ->
  locatePairs position cs pathSoFar failedLast
  = if Nat.even (length cs) then Ret (pathSoFar, true) else Throw TypeError.
Proof.
  induction n as [|n IH]; intros [|keyC [|valueC rest]] Hlen Hall;
    simpl in Hlen; try lia; try reflexivity.
  - simpl. rewrite (Hall keyC) by apply list_elem_of_here. reflexivity.
  - simpl locatePairs. rewrite (Hall keyC) by apply list_elem_of_here.
    rewrite (Hall valueC) by (apply list_elem_of_further, list_elem_of_here).
    rewrite IH; [reflexivity|lia|].
    intros c Hc. apply Hall. by do 2 apply list_elem_of_further.
Qed.

(** X5: in a mapping node the locator goes through the components two
    by two, key then value, up to the first that contains the offset.
    If that is a key, the path ends there with the key prefixed; if it
    is a value, the search recurses into it with its key prefixed.  If
    no component contains the offset, the path so far is returned and
    the failure flag is set, provided the components come in pairs;
    with a last key that has no value the locator raises a
    [TypeError]. *)
Theorem locate_in_mapping position node pathSoFar failedLast :
  isMappingKind (kind node) = true ->
  (forall i keyC,
      components node !! (2 * i)%nat = Some keyC ->
      (forall j c, (j < 2 * i)%nat -> components node !! j = Some c ->
                   covers c position = false) ->
      covers keyC position = true ->
      locate position node pathSoFar failedLast
      = Ret ([result keyC; JArr pathSoFar], failedLast)) /\
  (forall i keyC valueC,
      components node !! (2 * i)%nat = Some keyC ->
      components node !! (2 * i + 1)%nat = Some valueC ->
      (forall j c, (j < 2 * i + 1)%nat -> components node !! j = Some c ->
                   covers c position = false) ->
      covers valueC position = true ->
      locate position node pathSoFar failedLast
      = locate position valueC [result keyC; JArr pathSoFar] failedLast) /\
  ((forall c, c ∈ components node -> covers c position = false) ->
      locate position node pathSoFar failedLast
      = if Nat.even (length (components node))
        then Ret (pathSoFar, true) else Throw TypeError).
Proof.
  intros Hmap. rewrite (locate_mapping_loop _ _ _ _ Hmap).
  split; [|split].
  - intros i keyC Hi Hpre Hc.
    rewrite (locatePairs_skip _ _ _ i _ (Nat.lt_le_incl _ _ (lookup_lt_Some _ _ _ Hi)) Hpre).
    rewrite (drop_S _ _ _ Hi). simpl. rewrite Hc. reflexivity.
  - intros i keyC valueC Hi Hv Hpre Hc.
    rewrite (locatePairs_skip _ _ _ i).
    + rewrite (drop_S _ _ _ Hi).
      replace (S (2 * i)) with (2 * i + 1)%nat by lia.
      rewrite (drop_S _ _ _ Hv). simpl.
      rewrite (Hpre (2 * i)%nat keyC ltac:(lia) Hi), Hc. reflexivity.
    + apply lookup_lt_Some in Hi. lia.
    + intros j c Hj. apply Hpre. lia.
  - intros Hall. apply (locatePairs_miss _ _ _ (length (components node)));
      [lia|exact Hall].
Qed.

(** On an annotation whose mappings hold their components in pairs,
    [locate] returns or raises the error of the sequence case. *)
Lemma locate_paired position : forall a,
  paired a ->
  forall pathSoFar failedLast,
    (exists r, locate position a pathSoFar failedLast = Ret r) \/
    locate position a pathSoFar failedLast = Throw outsideBounds.
Proof.
  induction a as [s e r k cs IH] using Annotated_induction.
  intros Hp pathSoFar failedLast.
  apply paired_iff in Hp as [Heven Hall].
  assert (Forall (fun c => forall p f,
                    (exists r, locate position c p f = Ret r) \/
                    locate position c p f = Throw outsideBounds) cs) as Hcs.
  { rewrite Forall_forall in IH, Hall. apply Forall_forall.
    intros c Hc. apply IH; [exact Hc|]. apply Hall. exact Hc. }
  clear IH Hall.
  destruct (isMappingKind k) eqn:Hm.
  - rewrite locate_mapping_loop by exact Hm. simpl.
    specialize (Heven eq_refl).
    assert (forall n l, (length l <= n)%nat -> Nat.Even (length l) ->
              Forall (fun c => forall p f,
                        (exists r, locate position c p f = Ret r) \/
                        locate position c p f = Throw outsideBounds) l ->
              (exists r, locatePairs position l pathSoFar failedLast = Ret r) \/
              locatePairs position l pathSoFar failedLast = Throw outsideBounds)
      as Hloop.
    { induction n as [|n IHn]; intros [|keyC [|valueC rest]] Hlen Hev Hl;
        simpl in *; try lia; try (left; eexists; reflexivity).
      - destruct Hev as [m Hm']. lia.
      - destruct (covers keyC position); [left; eexists; reflexivity|].
        inversion Hl as [|? ? _ Hl']; subst.
        inversion Hl' as [|? ? Hv Hrest]; subst.
        destruct (covers valueC position); [apply Hv|].
        apply IHn; [lia| |exact Hrest].
        destruct Hev as [m Hm']. exists (m - 1)%nat. lia. }
    apply (Hloop (length cs)); [lia|exact Heven|exact Hcs].
  - destruct (isSequenceKind k) eqn:Hs.
    + rewrite locate_sequence_loop by exact Hs. simpl.
      clear Heven. generalize 0.
      induction Hcs as [|c cs Hc Hcs IHcs]; intros i; simpl.
      * right. reflexivity.
      * destruct (covers c position); [apply Hc|].
        destruct (start c >? position).
        -- destruct (i =? 0); left; eexists; reflexivity.
        -- apply IHcs.
    + simpl. rewrite Hm, Hs.
      destruct (negb (String.eqb k "<<EMPTY>>")); left; eexists; reflexivity.
Qed.

Section BuildFacts.

Variable mapClosest : Z -> Z.
Variable jsonParse : string -> outcome JsVal.

Local Abbreviation buildNode' := (buildNode mapClosest jsonParse).
Local Abbreviation pairOf' := (pairOf mapClosest buildNode').
Local Abbreviation annotate' := (annotate mapClosest).
Local Abbreviation annotateEmpty' := (annotateEmpty mapClosest).

Lemma buildNode_unfold node :
  buildNode' node
  = let ty := type node in
    let cs := children node in
    if isSingleton ty then
      match cs with
      | [] => Ret None
      | firstChild :: _ => buildNode' firstChild
      end
    else if String.eqb ty "block_sequence" then
      components <- itemsOf buildNode' "block_sequence_item" cs ;;;
      Ret (Some (annotate' node (JArr (map Locate.result components)) components))
    else if String.eqb ty "block_sequence_item" then
      match cs with
      | _ :: second :: _ => buildNode' second
      | _ => Ret (Some (annotateEmpty' (endIndex node)))
      end
    else if String.eqb ty "double_quote_scalar" then
      v <- jsonParse (text node) ;;;
      Ret (Some (annotate' node v []))
    else if String.eqb ty "plain_scalar" then
      let v := match jsonParse (text node) with
               | Ret v => v
               | _ => JStr (text node)
               end in
      Ret (Some (annotate' node v []))
    else if String.eqb ty "flow_sequence" then
      components <- itemsOf buildNode' "flow_node" cs ;;;
      Ret (Some (annotate' node (JArr (map Locate.result components)) components))
    else if String.eqb ty "block_mapping" then
      found <- pairsOf mapClosest buildNode' cs [] [] ;;;
      Ret (Some (annotate' node (JObj found.1) found.2))
    else if String.eqb ty "block_mapping_pair" then
      kv <- pairOf' node ;;;
      Ret (Some (annotate' node (pairResult kv.1 kv.2) [kv.1; kv.2]))
    else Throw (unknownType ty).
Proof. destruct node as [ty txt s e cs]. reflexivity. Qed.

Lemma built_inv m a : built m = Ret a -> m = Ret (Some a).
Proof.
  unfold built. destruct m as [[c|]| |]; simpl; intros H; try discriminate.
  congruence.
Qed.

Lemma paired_leaf node r : paired (annotate' node r []).
Proof. apply paired_iff. split; [intros _; exists 0%nat; reflexivity|constructor]. Qed.

Lemma paired_empty position : paired (annotateEmpty' position).
Proof. apply paired_iff. split; [intros _; exists 0%nat; reflexivity|constructor]. Qed.

Lemma itemsOf_paired itemType cs : forall items,
  Forall (fun c => forall a, buildNode' c = Ret (Some a) -> paired a) cs ->
  itemsOf buildNode' itemType cs = Ret items ->
  Forall paired items.
Proof.
  induction cs as [|c cs IH]; intros items Hcs Hitems; simpl in Hitems.
  - injection Hitems as <-. constructor.
  - inversion Hcs as [|? ? Hc Hrest]; subst.
    destruct (negb (String.eqb (type c) itemType)); [apply IH; assumption|].
    apply bind_Ret_inv in Hitems as (component & Hb & Hitems).
    apply bind_Ret_inv in Hitems as (others & Ho & Hitems).
    injection Hitems as <-. constructor; [|apply IH; assumption].
    apply Hc. apply built_inv. exact Hb.
Qed.

Lemma pairOf_paired node k v :
  Forall (fun c => forall a, buildNode' c = Ret (Some a) -> paired a)
         (children node) ->
  pairOf' node = Ret (k, v) -> paired k /\ paired v.
Proof.
  unfold pairOf. intros Hcs Hpair.
  destruct (children node) as [|c1 [|c2 [|c3 [|c4 rest]]]];
    try (injection Hpair as <- <-; split;
         first [apply paired_leaf|apply paired_empty]).
  apply bind_Ret_inv in Hpair as (value & Hb & Hpair).
  injection Hpair as <- <-. split; [apply paired_leaf|].
  inversion Hcs as [|? ? _ Hcs2]; subst. inversion Hcs2 as [|? ? _ Hcs3]; subst.
  inversion Hcs3 as [|? ? Hc3 _]; subst. apply Hc3. apply built_inv. exact Hb.
Qed.

Lemma Even_add_two n : Nat.Even n -> Nat.Even (n + 2).
Proof. intros [m ->]. exists (m + 1)%nat. lia. Qed.

Lemma pairsOf_paired cs : forall result components result' components',
  Forall (fun c => forall a, buildNode' c = Ret (Some a) -> paired a) cs ->
  Nat.Even (length components) -> Forall paired components ->
  pairsOf mapClosest buildNode' cs result components = Ret (result', components') ->
  Nat.Even (length components') /\ Forall paired components'.
Proof.
  induction cs as [|c cs IH]; intros result components result' components'
    Hcs Hev Hall Hpairs; simpl in Hpairs.
  - injection Hpairs as <- <-. split; assumption.
  - inversion Hcs as [|? ? Hc Hrest]; subst.
    apply bind_Ret_inv in Hpairs as ([[result1 key] value] & Hfound & Hpairs).
    assert (paired key /\ paired value) as [Hk Hv].
    { destruct (String.eqb (type c) "ERROR").
      - injection Hfound as <- <- <-. split; [apply paired_leaf|apply paired_empty].
      - destruct (String.eqb (type c) "block_mapping_pair") eqn:Hty;
          [|discriminate]. simpl in Hfound.
        apply bind_Ret_inv in Hfound as ([k v] & Hkv & Hfound).
        injection Hfound as <- <- <-. simpl.
        specialize (Hc (annotate' c (pairResult k v) [k; v])).
        rewrite buildNode_unfold in Hc. cbv zeta in Hc.
        apply String.eqb_eq in Hty. rewrite Hty in Hc.
        change (isSingleton "block_mapping_pair") with false in Hc.
        cbv iota in Hc. simpl String.eqb in Hc. cbv iota in Hc.
        rewrite Hkv in Hc. specialize (Hc eq_refl).
        apply paired_iff in Hc as [_ Hc].
        inversion Hc as [|? ? Hk Hc']; subst. inversion Hc' as [|? ? Hv _]; subst.
        split; assumption. }
    apply IH in Hpairs; [exact Hpairs|exact Hrest| |].
    + rewrite length_app. simpl. apply Even_add_two. exact Hev.
    + apply Forall_app. split; [exact Hall|]. repeat constructor; assumption.
Qed.

Lemma buildNode_paired : forall node a,
  buildNode' node = Ret (Some a) -> paired a.
Proof.
  induction node as [ty txt s e cs IH] using Node_induction. intros a.
  rewrite buildNode_unfold. cbv zeta. simpl type. simpl children.
  simpl text. simpl endIndex.
  destruct (isSingleton ty).
  { destruct cs as [|c cs]; [discriminate|].
    inversion IH as [|? ? Hc _]; subst. apply Hc. }
  destruct (String.eqb ty "block_sequence") eqn:Hseq.
  { intros H. apply bind_Ret_inv in H as (items & Hitems & H).
    injection H as <-. apply paired_iff. split.
    - apply String.eqb_eq in Hseq. subst ty. discriminate.
    - eapply itemsOf_paired; eassumption. }
  destruct (String.eqb ty "block_sequence_item").
  { destruct cs as [|c1 [|c2 cs]];
      try (intros H; injection H as <-; apply paired_empty).
    inversion IH as [|? ? _ IH2]; subst. inversion IH2 as [|? ? Hc _]; subst.
    apply Hc. }
  destruct (String.eqb ty "double_quote_scalar").
  { intros H. apply bind_Ret_inv in H as (v & _ & H). injection H as <-.
    apply paired_leaf. }
  destruct (String.eqb ty "plain_scalar").
  { intros H. injection H as <-. apply paired_leaf. }
  destruct (String.eqb ty "flow_sequence") eqn:Hseq2.
  { intros H. apply bind_Ret_inv in H as (items & Hitems & H).
    injection H as <-. apply paired_iff. split.
    - apply String.eqb_eq in Hseq2. subst ty. discriminate.
    - eapply itemsOf_paired; eassumption. }
  destruct (String.eqb ty "block_mapping").
  { intros H. apply bind_Ret_inv in H as ([result components] & Hpairs & H).
    injection H as <-.
    apply pairsOf_paired in Hpairs as [Hev Hall];
      [|exact IH|exists 0%nat; reflexivity|constructor].
    apply paired_iff. split; [intros _; exact Hev|exact Hall]. }
  destruct (String.eqb ty "block_mapping_pair") eqn:Hpair; [|discriminate].
  intros H. apply bind_Ret_inv in H as ([k v] & Hkv & H). injection H as <-.
  apply pairOf_paired in Hkv as [Hk Hv]; [|exact IH].
  apply paired_iff. split.
  - apply String.eqb_eq in Hpair. subst ty. discriminate.
  - repeat constructor; assumption.
Qed.

Lemma itemsOf_items itemType cs : forall items,
  itemsOf buildNode' itemType cs = Ret items ->
  Forall2 (fun child c => buildNode' child = Ret (Some c))
          (List.filter (fun c => String.eqb (type c) itemType) cs) items.
Proof.
  induction cs as [|c cs IH]; intros items Hitems; simpl in Hitems.
  - injection Hitems as <-. constructor.
  - simpl. destruct (String.eqb (type c) itemType); simpl in Hitems.
    + apply bind_Ret_inv in Hitems as (component & Hb & Hitems).
      apply bind_Ret_inv in Hitems as (others & Ho & Hitems).
      injection Hitems as <-. constructor; [|apply IH; exact Ho].
      apply built_inv. exact Hb.
    + apply IH. exact Hitems.
Qed.

(** X7: a sequence node that is built gives a node of its own type,
    spanning the mapped offsets of the node, whose components are the
    builds of its item children, in order (children of any other type,
    such as the dashes, are skipped), and whose result is the array of
    the results of its components. *)
Theorem build_sequence_items node itemType a :
  (type node = "block_sequence" /\ itemType = "block_sequence_item") \/
  (type node = "flow_sequence" /\ itemType = "flow_node") ->
  buildNode' node = Ret (Some a) ->
  kind a = type node /\
  start a = mapClosest (startIndex node) /\
  end_ a = mapClosest (endIndex node) /\
  result a = JArr (map result (components a)) /\
  Forall2 (fun child c => buildNode' child = Ret (Some c))
          (List.filter (fun c => String.eqb (type c) itemType) (children node))
          (components a).
Proof.
  intros Hty. rewrite buildNode_unfold. cbv zeta.
  destruct Hty as [[Hty ->]|[Hty ->]]; rewrite Hty;
    match goal with
    | |- context [isSingleton ?t] =>
        let v := eval vm_compute in (isSingleton t) in
        change (isSingleton t) with v
    end; cbv iota; simpl String.eqb; cbv iota;
    intros H; apply bind_Ret_inv in H as (items & Hitems & H);
    injection H as <-; simpl; rewrite Hty;
    (repeat split; [apply itemsOf_items; exact Hitems]).
Qed.

(** What a child of a [block_mapping] contributes: an ERROR child its
    own text as the key and an empty value, a pair its key and value. *)
Lemma pairsOf_components cs : forall result components result' components',
  pairsOf mapClosest buildNode' cs result components = Ret (result', components') ->
  exists kvs,
    components' = components ++ flat_map (fun kv => [kv.1; kv.2]) kvs /\
    Forall2 (fun child (kv : Annotated * Annotated) =>
               if String.eqb (type child) "ERROR"
               then kv = (annotate' child (JStr (text child)) [],
                          annotateEmpty' (endIndex child))
               else type child = "block_mapping_pair" /\ pairOf' child = Ret kv)
            cs kvs.
Proof.
  induction cs as [|c cs IH]; intros result components result' components' Hpairs;
    simpl in Hpairs.
  - injection Hpairs as <- <-. exists []. simpl. rewrite app_nil_r.
    split; [reflexivity|constructor].
  - apply bind_Ret_inv in Hpairs as ([[result1 key] value] & Hfound & Hpairs).
    apply IH in Hpairs as (kvs & -> & Hall).
    exists ((key, value) :: kvs). split.
    + simpl. rewrite <- app_assoc. reflexivity.
    + constructor; [|exact Hall].
      destruct (String.eqb (type c) "ERROR").
      * injection Hfound as _ <- <-. reflexivity.
      * destruct (String.eqb (type c) "block_mapping_pair") eqn:Hty;
          [|discriminate]. simpl in Hfound.
        apply bind_Ret_inv in Hfound as ([k v] & Hkv & Hfound).
        injection Hfound as _ <- <-. split; [|exact Hkv].
        apply String.eqb_eq. exact Hty.
Qed.

(** X8: a [block_mapping] node that is built holds two components for
    each of its children, in order: for an ERROR child (an entry the
    parser could not read) the child's text as the key and an empty
    value at the child's end; for any other child, which then is a
    [block_mapping_pair], the key and the value of the pair. *)
Theorem build_mapping_components node a :
  type node = "block_mapping" ->
  buildNode' node = Ret (Some a) ->
  kind a = "block_mapping" /\
  exists kvs,
    components a = flat_map (fun kv => [kv.1; kv.2]) kvs /\
    Forall2 (fun child (kv : Annotated * Annotated) =>
               if String.eqb (type child) "ERROR"
               then kv = (annotate' child (JStr (text child)) [],
                          annotateEmpty' (endIndex child))
               else type child = "block_mapping_pair" /\ pairOf' child = Ret kv)
            (children node) kvs.
Proof.
  intros Hty. rewrite buildNode_unfold. cbv zeta. rewrite Hty.
  change (isSingleton "block_mapping") with false. cbv iota.
  simpl String.eqb. cbv iota.
  intros H. apply bind_Ret_inv in H as ([result components] & Hpairs & H).
  injection H as <-. simpl. split; [exact Hty|].
  apply pairsOf_components in Hpairs as (kvs & -> & Hall).
  exists kvs. split; [reflexivity|exact Hall].
Qed.

End BuildFacts.

(** X6: on an annotation built by [buildAnnotated], [locateCursor]
    returns a path or raises the out-of-bounds error of a sequence: the
    builder puts the components of a mapping in key and value pairs, so
    the locator never reads a value that is missing. *)
Theorem locateCursor_on_built mapClosest jsonParse root mappedSource doc position :
  buildAnnotated mapClosest jsonParse root mappedSource = Ret (Some doc) ->
  (exists located, locateCursor doc position = Ret located) \/
  locateCursor doc position = Throw outsideBounds.
Proof.
  intros Hbuild. apply buildNode_paired in Hbuild.
  unfold locateCursor.
  destruct (locate_paired position doc Hbuild [] false) as [[[nested flag] ->]| ->].
  - left. eexists. reflexivity.
  - right. reflexivity.
Qed.

End AnnotateFacts.

Lemma locate_in_mapping_witness :
  locate 3 DemoTree.mappingBuilt [] false
  = locate 3 (MkAnnotated 3 4 (JNum 1) "plain_scalar" []) [JStr "a"; JArr []] false.
Proof.
  pose proof (locate_in_mapping 3 DemoTree.mappingBuilt [] false eq_refl)
    as (_ & Hvalue & _).
  apply (Hvalue 0%nat (MkAnnotated 0 1 (JStr "a") "flow_node" [])
                (MkAnnotated 3 4 (JNum 1) "plain_scalar" []) eq_refl eq_refl);
    [|reflexivity].
  intros [|j] c Hj Hc; [|simpl in Hj; lia]. injection Hc as <-. reflexivity.
Defined.

Lemma locateCursor_on_built_witness :
  (exists located, locateCursor DemoTree.mappingBuilt 3 = Ret located) \/
  locateCursor DemoTree.mappingBuilt 3 = Throw outsideBounds.
Proof.
  apply (locateCursor_on_built DemoTree.mapClosest DemoTree.jsonParse
           DemoTree.root (MappedText.Original "a: 1")).
  vm_compute. reflexivity.
Defined.

Lemma build_sequence_items_witness :
  kind DemoTree.itemsBuilt = Annotate.type DemoTree.items /\
  start DemoTree.itemsBuilt = 0 /\
  end_ DemoTree.itemsBuilt = 5 /\
  result DemoTree.itemsBuilt = JArr (map result (components DemoTree.itemsBuilt)) /\
  Forall2 (fun child c =>
             Annotate.buildNode (fun z => z) DemoTree.jsonParse child = Ret (Some c))
          (List.filter (fun c => String.eqb (Annotate.type c) "block_sequence_item")
                       (Annotate.children DemoTree.items))
          (components DemoTree.itemsBuilt).
Proof.
  apply (build_sequence_items (fun z => z) DemoTree.jsonParse DemoTree.items
           "block_sequence_item" DemoTree.itemsBuilt).
  - left. split; reflexivity.
  - vm_compute. reflexivity.
Defined.

Lemma build_mapping_components_witness :
  kind DemoTree.mappingBuilt = "block_mapping" /\
  exists kvs,
    components DemoTree.mappingBuilt = flat_map (fun kv => [kv.1; kv.2]) kvs /\
    Forall2 (fun child (kv : Annotated * Annotated) =>
               if String.eqb (Annotate.type child) "ERROR"
               then kv = (Annotate.annotate (fun z => z) child
                            (JStr (Annotate.text child)) [],
                          Annotate.annotateEmpty (fun z => z) (Annotate.endIndex child))
               else Annotate.type child = "block_mapping_pair" /\
                    Annotate.pairOf (fun z => z)
                      (Annotate.buildNode (fun z => z) DemoTree.jsonParse) child
                    = Ret kv)
            (Annotate.children DemoTree.mapping) kvs.
Proof.
  apply (build_mapping_components (fun z => z) DemoTree.jsonParse DemoTree.mapping
           DemoTree.mappingBuilt).
  - reflexivity.
  - vm_compute. reflexivity.
Defined.

(** ** Navigation along a path, step by step *)

Section NavigateSteps.

Variable schemaType : Schema -> string.

Lemma mapBranches_ext (visit1 visit2 : Refs -> Schema -> outcome Found)
    (branches : list Schema) :
  (forall refs ss, visit1 refs ss = visit2 refs ss) ->
  forall refs, mapBranches visit1 refs branches = mapBranches visit2 refs branches.
Proof.
  intros Hext. induction branches as [|b rest IH]; intros refs; [reflexivity|].
  simpl. rewrite Hext. destruct (visit2 refs b) as [[r refs1]| |]; simpl;
    [|reflexivity|reflexivity].
  rewrite IH. reflexivity.
Qed.

(** [inner] reads the path from [index] on only. *)
Lemma inner_shift (pre post : list JsVal) : forall fuel refs s index,
  inner schemaType (pre ++ post) fuel refs s (length pre + index)
  = inner schemaType post fuel refs s index.
Proof.
  induction fuel as [|fuel IH]; intros refs s index; [reflexivity|].
  rewrite !inner_unfold. cbv zeta.
  destruct (resolve s (register s refs)) as [s'| |]; simpl; [|reflexivity|reflexivity].
  rewrite length_app.
  assert (Nat.eqb (length pre + index) (length pre + length post)
          = Nat.eqb index (length post)) as ->.
  { destruct (Nat.eqb_spec index (length post)) as [->|Hne].
    - apply Nat.eqb_refl.
    - apply Nat.eqb_neq. lia. }
  destruct (Nat.eqb index (length post)); [reflexivity|].
  assert (keyAt (pre ++ post) (length pre + index) = keyAt post index) as ->.
  { unfold keyAt. rewrite lookup_app_r by lia.
    replace (length pre + index - length pre)%nat with index by lia. reflexivity. }
  assert ((Z.of_nat (length pre + index)
           =? Z.of_nat (length pre + length post) - 1)
          = (Z.of_nat index =? Z.of_nat (length post) - 1)) as ->.
  { destruct (Z.eqb_spec (Z.of_nat index) (Z.of_nat (length post) - 1)).
    - apply Z.eqb_eq. lia.
    - apply Z.eqb_neq. lia. }
  replace (length pre + index + 1)%nat with (length pre + (index + 1))%nat by lia.
  assert (forall refs branches,
            mapBranches (fun r ss => inner schemaType (pre ++ post) fuel r ss
                                           (length pre + index)) refs branches
            = mapBranches (fun r ss => inner schemaType post fuel r ss index)
                          refs branches) as Hmap.
  { intros refs' branches. apply mapBranches_ext. intros. apply IH. }
  destruct (String.eqb (schemaType s') "object").
  { destruct (properties s') as [props|]; [|reflexivity].
    destruct (props !! keyAt post index); [apply IH|].
    destruct (inherited (keyAt post index)); [apply IH|reflexivity]. }
  destruct (String.eqb (schemaType s') "array").
  { destruct (items s'); [apply IH|reflexivity]. }
  destruct (String.eqb (schemaType s') "anyOf").
  { destruct (anyOf s'); [|reflexivity]. rewrite Hmap. reflexivity. }
  destruct (String.eqb (schemaType s') "allOf"); [reflexivity|].
  destruct (String.eqb (schemaType s') "oneOf"); [|reflexivity].
  destruct (oneOf s'); [|reflexivity]. rewrite Hmap. reflexivity.
Qed.

(** X9: from an object schema that has neither [$id] nor [$ref], a
    path whose first element names a property is navigated as the rest
    of the path from that property. *)
Theorem navigate_property fuel s props k rest sub :
  schemaType s = "object" ->
  id_ s = None -> ref_ s = None ->
  properties s = Some props ->
  props !! toString k = Some sub ->
  navigateSchema schemaType (k :: rest) (S fuel) s
  = navigateSchema schemaType rest fuel sub.
Proof.
  intros Hty Hid Href Hprops Hsub. unfold navigateSchema.
  rewrite inner_unfold. cbv zeta.
  unfold register, resolve. rewrite Hid, Href. rewrite bind_Ret. cbv beta.
  simpl Nat.eqb. cbv iota. rewrite Hty. simpl String.eqb. cbv iota.
  rewrite Hprops. unfold keyAt. simpl lookup. rewrite Hsub.
  rewrite (inner_shift [k] rest fuel ∅ sub 0). reflexivity.
Qed.

(** X10: from an array schema that has neither [$id] nor [$ref], a
    path is navigated as its rest from the [items] schema, whatever its
    first element is; without [items] nothing matches. *)
Theorem navigate_items fuel s k rest :
  schemaType s = "array" ->
  id_ s = None -> ref_ s = None ->
  navigateSchema schemaType (k :: rest) (S fuel) s
  = match items s with
    | Some it => navigateSchema schemaType rest fuel it
    | None => Ret []
    end.
Proof.
  intros Hty Hid Href. unfold navigateSchema.
  rewrite inner_unfold. cbv zeta.
  unfold register, resolve. rewrite Hid, Href. rewrite bind_Ret. cbv beta.
  simpl Nat.eqb. cbv iota. rewrite Hty. simpl String.eqb. cbv iota.
  destruct (items s) as [it|]; [|reflexivity].
  rewrite (inner_shift [k] rest fuel ∅ it 0). reflexivity.
Qed.

(** X11: from an object schema that has neither [$id] nor [$ref], a
    path whose first element names no property, neither one of the
    schema's own nor a member inherited from [Object.prototype],
    matches nothing, unless it is the last element of the path and a
    prefix of some own property name: then the object schema itself is
    the match. *)
Theorem navigate_missing_key fuel s props k rest :
  schemaType s = "object" ->
  id_ s = None -> ref_ s = None ->
  properties s = Some props ->
  props !! toString k = None ->
  inherited (toString k) = false ->
  (rest <> [] -> navigateSchema schemaType (k :: rest) (S fuel) s = Ret []) /\
  ((exists name, is_Some (props !! name) /\ startsWith name (toString k) = true) ->
   navigateSchema schemaType [k] (S fuel) s = Ret [s]) /\
  ((forall name, is_Some (props !! name) -> startsWith name (toString k) = false) ->
   navigateSchema schemaType [k] (S fuel) s = Ret []).
Proof.
  intros Hty Hid Href Hprops Hnone Hown.
  assert (forall rest',
            navigateSchema schemaType (k :: rest') (S fuel) s
            = if negb (0 =? Z.of_nat (length (k :: rest')) - 1) then Ret []
              else if Nat.eqb (length (List.filter
                                         (fun name => startsWith name (toString k))
                                         (ownPropertyNames props))) 0
                   then Ret [] else Ret [s]) as Hnav.
  { intros rest'. unfold navigateSchema. rewrite inner_unfold. cbv zeta.
    unfold register, resolve. rewrite Hid, Href. rewrite bind_Ret. cbv beta.
    simpl Nat.eqb. cbv iota. rewrite Hty. simpl String.eqb. cbv iota.
    rewrite Hprops. unfold keyAt. simpl lookup. rewrite Hnone, Hown.
    change (Z.of_nat 0) with 0.
    destruct (negb (0 =? Z.of_nat (length (k :: rest')) - 1)); [reflexivity|].
    destruct (Nat.eqb _ 0); reflexivity. }
  assert (forall name, name ∈ ownPropertyNames props <-> is_Some (props !! name))
    as Hnames.
  { intros name. unfold ownPropertyNames. rewrite list_elem_of_fmap. split.
    - intros ([n v] & -> & Hin). apply elem_of_map_to_list in Hin. simpl. eauto.
    - intros [v Hv]. exists (name, v). split; [reflexivity|].
      apply elem_of_map_to_list. exact Hv. }
  split; [|split].
  - intros Hrest. rewrite Hnav. destruct rest as [|k' rest]; [congruence|].
    simpl length.
    assert ((0 =? Z.of_nat (S (S (length rest))) - 1) = false) as ->
      by (apply Z.eqb_neq; lia).
    reflexivity.
  - intros (name & Hname & Hstarts). rewrite Hnav. simpl.
    apply Hnames in Hname.
    destruct (List.filter _ (ownPropertyNames props)) as [|x l] eqn:Hf;
      [|reflexivity].
    exfalso. assert (In name []) as Hin; [|destruct Hin].
    rewrite <- Hf. apply filter_In. split; [|exact Hstarts].
    apply list_elem_of_In. exact Hname.
  - intros Hall. rewrite Hnav. simpl.
    destruct (List.filter _ (ownPropertyNames props)) as [|x l] eqn:Hf;
      [reflexivity|].
    exfalso. assert (In x (x :: l)) as Hin by (left; reflexivity).
    rewrite <- Hf in Hin. apply filter_In in Hin as [Hin Hstarts].
    apply list_elem_of_In in Hin. apply Hnames in Hin.
    rewrite (Hall x Hin) in Hstarts. discriminate.
Qed.

End NavigateSteps.


Lemma navigate_property_witness :
  navigateSchema schemaTypeOf [JStr "a"; JStr "b"] 3 DemoYaml.nested
  = navigateSchema schemaTypeOf [JStr "b"] 2
      (objectOf [("b", typed "number"); ("c", typed "string")]).
Proof.
  apply (navigate_property schemaTypeOf 2 DemoYaml.nested
           (list_to_map
              [("a", objectOf [("b", typed "number"); ("c", typed "string")])])
           (JStr "a") [JStr "b"]);
    reflexivity.
Defined.

Lemma navigate_items_witness :
  navigateSchema schemaTypeOf [JNum 7; JStr "b"] 3
                 (arrayOf (objectOf [("b", typed "number")]))
  = navigateSchema schemaTypeOf [JStr "b"] 2 (objectOf [("b", typed "number")]).
Proof.
  apply (navigate_items schemaTypeOf 2
           (arrayOf (objectOf [("b", typed "number")])) (JNum 7) [JStr "b"]);
    reflexivity.
Defined.

Lemma navigate_missing_key_witness :
  navigateSchema schemaTypeOf [JStr "he"] 1 Demo.sizes = Ret [Demo.sizes].
Proof.
  pose proof (navigate_missing_key schemaTypeOf 0 Demo.sizes
                (list_to_map [("width", typed "number"); ("weight", typed "number");
                              ("height", typed "number")])
                (JStr "he") [] eq_refl eq_refl eq_refl eq_refl eq_refl eq_refl)
    as (_ & Hprefix & _).
  apply Hprefix. exists "height". split; [|reflexivity].
  exists (typed "number"). reflexivity.
Defined.

(** ** The reparse search at the edges *)

Section ReparseEdges.

Variable Tree : Type.
Variable parse : string -> Tree.

(** X12: when the cursor row is not a line of the text, the reparse
    search parses the untouched text only and then raises a
    [TypeError], at the read of the cursor's line. *)
Theorem reparse_row_outside code position :
  row position < 0 \/
  Z.of_nat (length (Text.lines (MappedText.value (asMapped code)))) <= row position ->
  attemptParsesAtLine Tree parse code position
  = MkRun Tree
      [MkCandidate (parse (MappedText.value (asMapped code))) (asMapped code) 0]
      (Raised TypeError).
Proof.
  intros Hrow. pose proof (run_attempts Tree parse code position) as Hrun.
  cbv zeta in Hrun.
  assert (at_ (Text.lines (MappedText.value (asMapped code))) (row position) = None)
    as Hnone.
  { unfold at_. destruct (Z.ltb_spec (row position) 0); [reflexivity|].
    apply lookup_ge_None. lia. }
  rewrite Hnone in Hrun. exact Hrun.
Qed.

Lemma substring_past_end line b : Text.strlen line <= b -> Text.substring line 0 b = line.
Proof.
  intros Hb. unfold Text.substring, Text.clampIndex.
  pose proof (strlen_nonneg line) as Hlen.
  rewrite (Z.max_l 0 0) by lia. rewrite (Z.min_l 0) by lia.
  rewrite (Z.max_l b 0) by lia. rewrite (Z.min_r b) by lia.
  simpl Z.to_nat. rewrite Nat.min_0_l, Nat.max_0_l, Nat.sub_0_r.
  apply substring_whole. unfold Text.strlen. lia.
Qed.

(** X13: with the cursor past the end of its line, the first attempts
    parse the very same text: as long as the number of deletions does
    not exceed the distance from the end of the line to the cursor,
    the text of the attempt is the original text. *)
Theorem reparse_past_end_of_line code position line :
  at_ (Text.lines (MappedText.value (asMapped code))) (row position) = Some line ->
  Forall (fun c =>
            deletions c <= column position - Text.strlen line ->
            MappedText.value (Reparse.code c) = MappedText.value (asMapped code))
         (attempts (attemptParsesAtLine Tree parse code position)).
Proof.
  intros Hline. pose proof (run_attempts Tree parse code position) as Hrun.
  cbv zeta in Hrun. rewrite Hline in Hrun. rewrite Hrun. simpl attempts.
  constructor; [intros _; reflexivity|].
  apply Forall_fmap, Forall_forall. intros k Hk Hdel. unfold compose in *.
  rewrite (attemptAt_value Tree parse (asMapped code) position line _ _ _ Hline).
  assert (deletions (attemptAt Tree parse (asMapped code)
                       (Ranged.rangedLines (MappedText.value (asMapped code)))
                       position line (column position) 0 k) = k) as Hk'
      by (simpl; lia).
  rewrite Hk' in Hdel.
  rewrite substring_past_end by lia.
  apply at_inv in Hline as [_ Hline].
  rewrite list_insert_id by exact Hline. apply joinLines_lines.
Qed.

End ReparseEdges.

Lemma reparse_row_outside_witness :
  attemptParsesAtLine string DemoParser.parse (MappedText.Plain "a: b")
                      (MkPosition 1 2)
  = MkRun string [MkCandidate "a: b" (MappedText.Original "a: b") 0]
          (Raised TypeError).
Proof.
  apply (reparse_row_outside string DemoParser.parse (MappedText.Plain "a: b")
           (MkPosition 1 2)).
  right. vm_compute. discriminate.
Defined.

Lemma reparse_past_end_of_line_witness :
  Forall (fun c =>
            deletions c <= 6 - 4 ->
            MappedText.value (Reparse.code c) = "a: b")
         (attempts (attemptParsesAtLine string DemoParser.parse
                      (MappedText.Plain "a: b") (MkPosition 0 6))).
Proof.
  apply (reparse_past_end_of_line string DemoParser.parse (MappedText.Plain "a: b")
           (MkPosition 0 6) "a: b").
  reflexivity.
Defined.

(** ** What the generator does to a candidate *)

Section ExpandFacts.

Import Completion.

Variable schemaType : Schema -> string.
Variable schemaTypeOfUndefined : outcome string.
Variable schemaCompletions : Schema -> list Item.

Local Abbreviation expand' := (expand schemaType schemaTypeOfUndefined).

Lemma mapM_Forall2 {A B : Type} (f : A -> outcome B) (l : list A) : forall l',
  mapM f l = Ret l' -> Forall2 (fun a b => f a = Ret b) l l'.
Proof.
  induction l as [|a l IH]; intros l' H; simpl in H.
  - injection H as <-. constructor.
  - apply bind_Ret_inv in H as (b & Hb & H).
    apply bind_Ret_inv in H as (bs & Hbs & H).
    injection H as <-. constructor; [exact Hb|apply IH; exact Hbs].
Qed.

(** The rewrite of one candidate keeps everything but the value, and
    the value it only ever extends. *)
Lemma expand_extends commentPrefix indent raw c :
  expand' commentPrefix indent raw = Ret c ->
  type c = type raw /\ schema c = schema raw /\
  suggest_on_accept c = suggest_on_accept raw /\
  (value c = value raw \/
   suggest_on_accept raw = true /\ type raw <> "value" /\
   (value c = value raw +:+ Text.LF +:+ commentPrefix
                        +:+ Str.spaces (Z.to_nat (indent + 2)) \/
    value c = value raw +:+ Text.LF +:+ commentPrefix
                        +:+ Str.spaces (Z.to_nat (indent + 2)) +:+ "- ")).
Proof.
  unfold expand.
  destruct (suggest_on_accept raw) eqn:Hsug; simpl;
    [|intros [= <-]; auto].
  destruct (String.eqb (type raw) "value") eqn:Hty; simpl;
    [intros [= <-]; auto|].
  apply String.eqb_neq in Hty.
  destruct (negb (String.eqb (schemaType (schema raw)) "object"));
    [intros [= <-]; auto|].
  destruct (properties (schema raw)) as [props|]; [|discriminate].
  intros H. apply bind_Ret_inv in H as (st & _ & H).
  unfold indentation in H.
  destruct (String.eqb st "object").
  { destruct (indent + 2 <? 0); [discriminate|]. simpl in H. injection H as <-.
    simpl. rewrite Hsug. auto 10. }
  destruct (String.eqb st "array").
  { destruct (indent + 2 <? 0); [discriminate|]. simpl in H. injection H as <-.
    simpl. rewrite Hsug. auto 10. }
  injection H as <-. auto.
Qed.

(** X14: the candidates the generator works with are those the library
    returns for the matching schemas, one for one and in the same
    order; each keeps its type, its schema and its flag, and its value
    is the library's, either unchanged or (only for a key marked
    [suggest_on_accept]) followed by a line feed, the comment prefix
    and two spaces more than the indentation, and possibly a dash and a
    space. *)
Theorem candidates_extend commentPrefix indent matching expanded :
  candidates schemaType schemaTypeOfUndefined schemaCompletions
             commentPrefix indent matching = Ret expanded ->
  Forall2 (fun raw c =>
             type c = type raw /\ schema c = schema raw /\
             suggest_on_accept c = suggest_on_accept raw /\
             (value c = value raw \/
              suggest_on_accept raw = true /\ type raw <> "value" /\
              (value c = value raw +:+ Text.LF +:+ commentPrefix
                                   +:+ Str.spaces (Z.to_nat (indent + 2)) \/
               value c = value raw +:+ Text.LF +:+ commentPrefix
                                   +:+ Str.spaces (Z.to_nat (indent + 2)) +:+ "- ")))
          (concat (map schemaCompletions matching)) expanded.
Proof.
  unfold candidates. intros H.
  apply bind_Ret_inv in H as (perSchema & Hper & H). injection H as <-.
  revert perSchema Hper.
  induction matching as [|s matching IH]; intros perSchema Hper; simpl in Hper.
  - injection Hper as <-. constructor.
  - apply bind_Ret_inv in Hper as (cs & Hcs & Hper).
    apply bind_Ret_inv in Hper as (others & Hothers & Hper).
    injection Hper as <-. simpl. apply Forall2_app; [|apply IH; exact Hothers].
    apply mapM_Forall2 in Hcs.
    eapply Forall2_impl; [exact Hcs|].
    intros raw c Hc. apply (expand_extends _ _ _ _ Hc).
Qed.

End ExpandFacts.

Lemma candidates_extend_witness :
  Forall2 (fun raw c =>
             Completion.type c = Completion.type raw /\
             Completion.schema c = Completion.schema raw /\
             Completion.suggest_on_accept c = Completion.suggest_on_accept raw /\
             (Completion.value c = Completion.value raw \/
              Completion.suggest_on_accept raw = true /\
              Completion.type raw <> "value" /\
              (Completion.value c
               = Completion.value raw +:+ Text.LF +:+ "" +:+ Str.spaces (Z.to_nat (0 + 2)) \/
               Completion.value c
               = Completion.value raw +:+ Text.LF +:+ "" +:+ Str.spaces (Z.to_nat (0 + 2))
                                      +:+ "- ")))
          (concat (map (fun s => [Completion.MkItem "a: " "key" s true]) [DemoYaml.nested]))
          [Completion.MkItem ("a: " +:+ Text.LF +:+ "  ") "key" DemoYaml.nested true].
Proof.
  apply (candidates_extend schemaTypeOf (Throw TypeError)
           (fun s => [Completion.MkItem "a: " "key" s true]) "" 0
           [DemoYaml.nested]).
  vm_compute. reflexivity.
Defined.

(** ** Reversal, prefixes and suffixes of strings *)

Section SuffixFacts.

Lemma rev_app_sapp (s t : string) : String.rev_app s t = String.rev s +:+ t.
Proof.
  unfold String.rev. revert t.
  induction s as [|c s IH]; intros t; simpl; [reflexivity|].
  rewrite IH, (IH (String c "")), sapp_assoc. reflexivity.
Qed.

Lemma rev_cons (c : ascii) (s : string) :
  String.rev (String c s) = String.rev s +:+ String c "".
Proof. unfold String.rev at 1. simpl. apply rev_app_sapp. Qed.

Lemma rev_sapp (a b : string) :
  String.rev (a +:+ b) = String.rev b +:+ String.rev a.
Proof.
  induction a as [|c a IH]; simpl.
  - rewrite sapp_nil_r. reflexivity.
  - rewrite sapp_cons, !rev_cons, IH, sapp_assoc. reflexivity.
Qed.

Lemma rev_involutive (s : string) : String.rev (String.rev s) = s.
Proof.
  induction s as [|c s IH]; [reflexivity|].
  rewrite rev_cons, rev_sapp, IH. reflexivity.
Qed.

Lemma strlen_rev (s : string) : Text.strlen (String.rev s) = Text.strlen s.
Proof.
  induction s as [|c s IH]; [reflexivity|].
  rewrite rev_cons, strlen_app, IH. unfold Text.strlen. simpl. lia.
Qed.

Lemma prefix_sapp (p t : string) : String.prefix p (p +:+ t) = true.
Proof.
  induction p as [|c p IH]; [destruct t; reflexivity|].
  rewrite sapp_cons. simpl.
  destruct (ascii_dec c c) as [_|Hne]; [exact IH|congruence].
Qed.

Lemma prefix_inv (p s : string) :
  String.prefix p s = true -> exists t, s = p +:+ t.
Proof.
  revert s. induction p as [|c p IH]; intros s H.
  - exists s. reflexivity.
  - destruct s as [|c' s]; simpl in H; [discriminate|].
    destruct (ascii_dec c c') as [->|_]; [|discriminate].
    destruct (IH s H) as [t ->]. exists t. rewrite sapp_cons. reflexivity.
Qed.

Lemma endsWith_inv (s suffix : string) :
  Str.endsWith s suffix = true -> exists pre, s = pre +:+ suffix.
Proof.
  unfold Str.endsWith. intros H. apply prefix_inv in H as [t Ht].
  exists (String.rev t).
  rewrite <- (rev_involutive s), Ht, rev_sapp, rev_involutive. reflexivity.
Qed.

Lemma endsWith_sapp (pre suffix : string) : Str.endsWith (pre +:+ suffix) suffix = true.
Proof. unfold Str.endsWith. rewrite rev_sapp. apply prefix_sapp. Qed.

End SuffixFacts.

(** ** The entry point at the edges *)

Section WordFacts.

Lemma contains_sapp (c : ascii) (a b : string) :
  Str.contains c (a +:+ b) = Str.contains c a || Str.contains c b.
Proof.
  induction a as [|x a IH]; [reflexivity|].
  rewrite sapp_cons. simpl. rewrite IH, orb_assoc. reflexivity.
Qed.

Lemma contains_rev (c : ascii) (s : string) :
  Str.contains c (String.rev s) = Str.contains c s.
Proof.
  induction s as [|x s IH]; [reflexivity|].
  rewrite rev_cons, contains_sapp, IH. simpl.
  rewrite orb_false_r. apply orb_comm.
Qed.

Lemma beforeFirst_split (c : ascii) (s : string) :
  exists rest,
    s = Str.beforeFirst c s +:+ rest /\
    Str.contains c (Str.beforeFirst c s) = false /\
    (rest = "" \/ exists after, rest = String c after).
Proof.
  induction s as [|x s (rest & Hs & Hc & Hrest)]; simpl.
  - exists "". auto.
  - destruct (Ascii.eqb x c) eqn:Hx.
    + apply Ascii.eqb_eq in Hx as ->. exists (String c s). eauto.
    + exists rest. rewrite sapp_cons, <- Hs. simpl. rewrite Hx, Hc. auto.
Qed.

Lemma lastChar_endsWith (s : string) (c : ascii) :
  Str.lastChar s = String c "" -> Str.endsWith s (String c "") = true.
Proof.
  unfold Str.lastChar, Str.endsWith. change (String.rev (String c "")) with (String c "").
  destruct (String.rev s) as [|x r]; [discriminate|].
  intros [= ->]. simpl. destruct (ascii_dec c c); [|congruence].
  destruct r; reflexivity.
Qed.

Lemma endsWith_lastChar (s : string) (c : ascii) :
  Str.endsWith s (String c "") = true -> Str.lastChar s = String c "".
Proof.
  unfold Str.lastChar, Str.endsWith. change (String.rev (String c "")) with (String c "").
  destruct (String.rev s) as [|x r]; [discriminate|].
  simpl. destruct (ascii_dec c x) as [->|_]; [reflexivity|discriminate].
Qed.

(** X15: the in-progress word is empty when the line ends with a dash
    or a colon; on any other line it is the end of the line that
    follows the last space, the whole line when there is no space, and
    holds no space itself. *)
Theorem wordOf_suffix line :
  (Str.endsWith line "-" = true \/ Str.endsWith line ":" = true ->
   Yaml.wordOf line = "") /\
  (Str.endsWith line "-" = false -> Str.endsWith line ":" = false ->
   exists pre,
     line = pre +:+ Yaml.wordOf line /\
     Str.contains " "%char (Yaml.wordOf line) = false /\
     (pre = "" \/ Str.endsWith pre " " = true)).
Proof.
  unfold Yaml.wordOf. split.
  - intros [H|H]; apply endsWith_lastChar in H; rewrite H; reflexivity.
  - intros Hdash Hcolon.
    destruct (String.eqb_spec (Str.lastChar line) "-") as [H|_].
    { apply lastChar_endsWith in H. congruence. }
    destruct (String.eqb_spec (Str.lastChar line) ":") as [H|_].
    { apply lastChar_endsWith in H. congruence. }
    simpl. unfold Str.afterLast.
    destruct (beforeFirst_split " "%char (String.rev line))
      as (rest & Hs & Hc & Hrest).
    exists (String.rev rest). split; [|split].
    + rewrite <- rev_sapp, <- Hs, rev_involutive. reflexivity.
    + rewrite contains_rev. exact Hc.
    + destruct Hrest as [->|[after ->]]; [left; reflexivity|].
      right. rewrite rev_cons. apply endsWith_sapp.
Qed.

End WordFacts.

Lemma wordOf_suffix_witness :
  Yaml.wordOf "title:" = "" /\
  exists pre,
    "format: ht" = pre +:+ Yaml.wordOf "format: ht" /\
    Str.contains " "%char (Yaml.wordOf "format: ht") = false /\
    (pre = "" \/ Str.endsWith pre " " = true).
Proof.
  split.
  - apply (proj1 (wordOf_suffix "title:")). right. reflexivity.
  - apply (proj2 (wordOf_suffix "format: ht")); reflexivity.
Defined.

Section EntryEdges.

Import Yaml.

Variable Tree : Type.
Variable parse : string -> Tree.
Variable rootType : Tree -> string.
Variable buildAnnotated :
  Tree -> MappedText.MappedString -> outcome (option Annotated).
Variable rowColToIndex : string -> Position -> Z.
Variable schemaType : Schema -> string.
Variable schemaTypeOfUndefined : outcome string.
Variable schemaCompletions : Schema -> list Completion.Item.
Variable localeCompare : string -> string -> Z.
Variable fuel : nat.

Local Abbreviation entry' :=
  (completionsFromGoodParseYAML Tree parse rootType buildAnnotated rowColToIndex
     schemaType schemaTypeOfUndefined schemaCompletions localeCompare fuel).

(** X16: a text that does not open with a fence but ends with one: with
    the cursor on the last row the request is answered with [false];
    otherwise the text handed on is the text without its last three
    characters. *)
Theorem trailing_fence_cut m position :
  startsWith (MappedText.value m) "---" = false ->
  Str.endsWith (MappedText.value m) "---" = true ->
  (row position = Z.of_nat (length (Text.lines (MappedText.value m))) - 1 ->
   stripFences true (MappedText.Mapped m) position = Ret None) /\
  (row position <> Z.of_nat (length (Text.lines (MappedText.value m))) - 1 ->
   exists stripped,
     stripFences true (MappedText.Mapped m) position = Ret (Some stripped) /\
     MappedText.value stripped +:+ "---" = MappedText.value m).
Proof.
  intros Hopen Hclose. unfold stripFences, stripLeading. rewrite Hopen. simpl.
  unfold stripTrailing, mappedLines. rewrite Hclose. split.
  - intros ->. rewrite Z.eqb_refl. reflexivity.
  - intros Hrow. apply Z.eqb_neq in Hrow. rewrite Hrow. eexists.
    split; [reflexivity|]. simpl.
    apply endsWith_inv in Hclose as [pre Hpre]. rewrite Hpre.
    rewrite strlen_app. change (Text.strlen "---") with 3.
    replace (Text.strlen pre + 3 - 3) with (Text.strlen pre) by lia.
    rewrite substring_head, sapp_nil_r. reflexivity.
Qed.

(** X17: on a line that is not blank, in a text whose row the cursor is
    on, when none of the attempts of the reparse search parses cleanly
    the request is answered with [false]: no candidate, no error. *)
Theorem nothing_parses_false context m l :
  stripFences true (code context) (position context) = Ret (Some m) ->
  Indent.isBlank (line context) = false ->
  at_ (Text.lines (MappedText.value m)) (row (position context)) = Some l ->
  Forall (fun c => clean Tree rootType c = false)
         (attempts (attemptParsesAtLine Tree parse (MappedText.Mapped m)
                                        (position context))) ->
  entry' context = Ret AFalse.
Proof.
  intros Hstrip Hblank Hrow Hnone. unfold completionsFromGoodParseYAML.
  rewrite Hstrip. rewrite bind_Ret. cbv beta iota zeta.
  unfold Indent.isBlank in Hblank. rewrite Hblank.
  assert (yielded Tree rootType
            (attemptParsesAtLine Tree parse (MappedText.Mapped m) (position context))
          = []) as ->.
  { unfold yielded. induction Hnone as [|c cs Hc _ IH]; [reflexivity|].
    simpl. rewrite Hc. exact IH. }
  pose proof (run_attempts Tree parse (MappedText.Mapped m) (position context))
    as Hrun. cbv zeta in Hrun. simpl asMapped in Hrun. rewrite Hrow in Hrun.
  rewrite Hrun. reflexivity.
Qed.

(** X18: on a blank line for which the indentation gives no path
    ([locateFromIndentation] returns [undefined], an ancestor line
    being neither a key nor a sequence item), the request fails with a
    [TypeError]: the schema navigator reads the length of the path. *)
Theorem undefined_path_raises context m :
  fuel <> 0%nat ->
  ref_ (schema context) = None ->
  stripFences true (code context) (position context) = Ret (Some m) ->
  Indent.isBlank (line context) = true ->
  Indent.locateFromIndentation (line context) (MappedText.value m)
                               (position context) = Ret None ->
  entry' context = Throw TypeError.
Proof.
  intros Hfuel Href Hstrip Hblank Hpath. unfold completionsFromGoodParseYAML.
  rewrite Hstrip. rewrite bind_Ret. cbv beta iota zeta.
  unfold Indent.isBlank in Hblank. rewrite Hblank, Hpath. rewrite bind_Ret.
  unfold complete, Completion.completions, Completion.navigate.
  destruct fuel as [|f]; [congruence|].
  unfold resolve. rewrite Href. reflexivity.
Qed.

End EntryEdges.

Lemma trailing_fence_cut_witness :
  (row (MkPosition 0 3) = Z.of_nat (length (Text.lines (Text.joinLines ["title: x"; "---"]))) - 1 ->
   Yaml.stripFences true
     (MappedText.Mapped (MappedText.Original (Text.joinLines ["title: x"; "---"])))
     (MkPosition 0 3) = Ret None) /\
  (row (MkPosition 0 3) <> Z.of_nat (length (Text.lines (Text.joinLines ["title: x"; "---"]))) - 1 ->
   exists stripped,
     Yaml.stripFences true
       (MappedText.Mapped (MappedText.Original (Text.joinLines ["title: x"; "---"])))
       (MkPosition 0 3) = Ret (Some stripped) /\
     MappedText.value stripped +:+ "---" = Text.joinLines ["title: x"; "---"]).
Proof.
  apply (trailing_fence_cut
           (MappedText.Original (Text.joinLines ["title: x"; "---"]))
           (MkPosition 0 3)); reflexivity.
Defined.

Lemma nothing_parses_false_witness :
  DemoYaml.completionsFromGoodParseYAML
    (Yaml.MkContext "a"
       (MappedText.Mapped (MappedText.Original (Text.joinLines ["@"; "a"])))
       (MkPosition 1 1) DemoYaml.nested None)
  = Ret Yaml.AFalse.
Proof.
  apply (nothing_parses_false string DemoParser.parse DemoParser.rootType
           DemoYaml.noBuilder DemoYaml.noIndex schemaTypeOf (Throw TypeError)
           DemoYaml.propertyCompletions Demo.codeUnitCompare 10%nat
           (Yaml.MkContext "a"
              (MappedText.Mapped (MappedText.Original (Text.joinLines ["@"; "a"])))
              (MkPosition 1 1) DemoYaml.nested None)
           (MappedText.Original (Text.joinLines ["@"; "a"])) "a");
    [reflexivity|reflexivity|reflexivity|].
  vm_compute. repeat constructor.
Defined.

Lemma undefined_path_raises_witness :
  DemoYaml.completionsFromGoodParseYAML
    (Yaml.MkContext "  "
       (MappedText.Mapped (MappedText.Original (Text.joinLines ["a: 1"; "  "])))
       (MkPosition 1 2) DemoYaml.nested None)
  = Throw TypeError.
Proof.
  apply (undefined_path_raises string DemoParser.parse DemoParser.rootType
           DemoYaml.noBuilder DemoYaml.noIndex schemaTypeOf (Throw TypeError)
           DemoYaml.propertyCompletions Demo.codeUnitCompare 10%nat
           (Yaml.MkContext "  "
              (MappedText.Mapped (MappedText.Original (Text.joinLines ["a: 1"; "  "])))
              (MkPosition 1 2) DemoYaml.nested None)
           (MappedText.Original (Text.joinLines ["a: 1"; "  "])));
    [discriminate|reflexivity|reflexivity|reflexivity|vm_compute; reflexivity].
Defined.

(** ** Cell options *)

Section CellOptionsFacts.

Import CellOptions.

Lemma sapp_cancel (a x y : string) : a +:+ x = a +:+ y -> x = y.
Proof.
  induction a as [|c a IH]; [auto|]. rewrite !sapp_cons. intros [= H]. auto.
Qed.

Variable table : gmap string CommentChars.

(** X19: the prefix the editor bundle strips from a line of a code cell
    is the option prefix of [optionCommentPrefixFromLanguage] exactly
    for the languages whose entry in the table is a single, non-empty
    comment string, and for the names that are no entry but a member of
    [Object.prototype], which both read as that member: for an entry
    that is a pair the bundle joins the pair with a comma, for the
    empty string it writes nothing and for any other language that is
    not in the table it writes [undefined], where the library falls
    back to [#]. *)
Theorem script_prefix_agrees language :
  scriptCommentPrefix table language = optionCommentPrefixFromLanguage table language
  <-> (exists comment,
         table !! language = Some (Single comment) /\ truthy comment = true)
      \/ (table !! language = None /\ inherited language = true).
Proof.
  unfold scriptCommentPrefix, optionCommentPrefixFromLanguage, optionCommentPrefix,
    langCommentChars.
  destruct (table !! language) as [[comment|opening closing]|]; simpl.
  - destruct comment as [|c comment]; simpl.
    + split; [discriminate|].
      intros [(c' & [= <-] & H)|[H _]]; discriminate.
    + split; [eauto|reflexivity].
  - split.
    + rewrite sapp_assoc. intros H. apply sapp_cancel in H. discriminate.
    + intros [(c & H & _)|[H _]]; discriminate.
  - destruct (inherited language); simpl.
    + split; [auto|reflexivity].
    + split; [discriminate|].
      intros [(c & H & _)|[_ H]]; discriminate.
Qed.

Variable guessChunkOptionsFormat : string -> string.
Variable readYaml : string -> outcome JsVal.

Local Abbreviation partition' :=
  (partitionCellOptions table guessChunkOptionsFormat readYaml).

Lemma optionLines_split optionPrefix optionSuffix lines :
  let found := optionLines optionPrefix optionSuffix lines in
  found.*2 ++ drop (length found.*1) lines = lines /\
  Forall (fun l => isOptionLine optionPrefix optionSuffix l = true) found.*2 /\
  (forall l rest, drop (length found.*1) lines = l :: rest ->
                  isOptionLine optionPrefix optionSuffix l = false).
Proof.
  induction lines as [|line lines (Hsplit & Hall & Hnext)]; simpl.
  - split; [reflexivity|]. split; [constructor|]. intros l rest H. discriminate.
  - destruct (isOptionLine optionPrefix optionSuffix line) eqn:Hline; simpl.
    + split; [f_equal; exact Hsplit|]. split; [constructor; assumption|exact Hnext].
    + split; [reflexivity|]. split; [constructor|].
      intros l rest [= <- _]. exact Hline.
Qed.

Lemma partition_fields language lines p :
  partition' language lines = Ret p ->
  let found :=
    optionLines (optionCommentPrefixFromLanguage table language)
                (secondOf (langCommentChars table language)) lines in
  optionsSource p = found.*2 /\
  source p = drop (length found.*1) lines /\
  sourceStartLine p = Z.of_nat (length found.*1) /\
  (forall parsed, yaml p = Some parsed ->
                  readYaml (Text.joinLines found.*1) = Ret parsed).
Proof.
  unfold partitionCellOptions, optionCommentPrefixFromLanguage. cbv zeta.
  destruct (String.eqb _ "knitr").
  { intros [= <-]. simpl. repeat split. discriminate. }
  destruct (0 <? _).
  - intros H. apply bind_Ret_inv in H as (parsed & Hread & H). injection H as <-.
    simpl. repeat split. intros parsed' [= <-]. exact Hread.
  - intros [= <-]. simpl. repeat split. discriminate.
Qed.

(** X20: [partitionCellOptions] splits the lines of a cell in two: the
    option lines, which are the longest run of lines from the top that
    start with the option prefix of the language (and, when the
    language has a closing comment string, end with it once trailing
    white space is set aside), and the source, which is all the rest;
    [sourceStartLine] is the number of option lines. *)
Theorem partition_splits_lines language lines p :
  partition' language lines = Ret p ->
  let optionPrefix := optionCommentPrefixFromLanguage table language in
  let optionSuffix := secondOf (langCommentChars table language) in
  optionsSource p ++ source p = lines /\
  sourceStartLine p = Z.of_nat (length (optionsSource p)) /\
  Forall (fun l => isOptionLine optionPrefix optionSuffix l = true)
         (optionsSource p) /\
  (forall l rest, source p = l :: rest ->
                  isOptionLine optionPrefix optionSuffix l = false).
Proof.
  intros Hp. cbv zeta.
  destruct (partition_fields language lines p Hp) as (-> & -> & -> & _).
  destruct (optionLines_split (optionCommentPrefixFromLanguage table language)
              (secondOf (langCommentChars table language)) lines)
    as (Hsplit & Hall & Hnext).
  split; [exact Hsplit|]. split; [|split; [exact Hall|exact Hnext]].
  rewrite !length_fmap. reflexivity.
Qed.

Lemma optionLines_restore optionPrefix lines :
  (optionLines optionPrefix "" lines).*2
  = (fun y => optionPrefix +:+ y) <$> (optionLines optionPrefix "" lines).*1.
Proof.
  induction lines as [|line lines IH]; [reflexivity|]. cbn [optionLines].
  destruct (isOptionLine optionPrefix "" line) eqn:Hline; [|reflexivity].
  rewrite !fmap_cons. cbn [fst snd]. f_equal; [|exact IH].
  unfold isOptionLine in Hline. apply andb_true_iff in Hline as [Hstart _].
  apply prefix_inv in Hstart as [t ->].
  unfold yamlOptionOf, substringFrom. simpl truthy. cbv iota.
  rewrite substring_tail. reflexivity.
Qed.

(** X21: for a language without a closing comment string, the YAML that
    [partitionCellOptions] reads is the option lines with the option
    prefix taken off: when a parsed value is returned, it was read from
    a text whose lines, each with the prefix put back, are the option
    lines. *)
Theorem partition_reads_options language lines p parsed :
  secondOf (langCommentChars table language) = "" ->
  partition' language lines = Ret p ->
  yaml p = Some parsed ->
  exists yamlLines,
    readYaml (Text.joinLines yamlLines) = Ret parsed /\
    optionsSource p
    = (fun y => optionCommentPrefixFromLanguage table language +:+ y) <$> yamlLines.
Proof.
  intros Hsuffix Hp Hyaml.
  destruct (partition_fields language lines p Hp) as (-> & _ & _ & Hread).
  rewrite Hsuffix in *. eexists. split; [apply Hread; exact Hyaml|].
  apply optionLines_restore.
Qed.

End CellOptionsFacts.

Lemma partition_splits_lines_witness :
  CellOptions.optionsSource DemoCell.partitioned
    ++ CellOptions.source DemoCell.partitioned = DemoCell.lines /\
  CellOptions.sourceStartLine DemoCell.partitioned
  = Z.of_nat (length (CellOptions.optionsSource DemoCell.partitioned)) /\
  Forall (fun l =>
            CellOptions.isOptionLine
              (CellOptions.optionCommentPrefixFromLanguage
                 CellOptions.kLangCommentChars "python")
              (CellOptions.secondOf
                 (CellOptions.langCommentChars CellOptions.kLangCommentChars "python"))
              l = true)
         (CellOptions.optionsSource DemoCell.partitioned) /\
  (forall l rest,
      CellOptions.source DemoCell.partitioned = l :: rest ->
      CellOptions.isOptionLine
        (CellOptions.optionCommentPrefixFromLanguage
           CellOptions.kLangCommentChars "python")
        (CellOptions.secondOf
           (CellOptions.langCommentChars CellOptions.kLangCommentChars "python"))
        l = false).
Proof.
  apply (partition_splits_lines CellOptions.kLangCommentChars
           DemoCell.guessChunkOptionsFormat DemoCell.readYaml
           "python" DemoCell.lines DemoCell.partitioned).
  vm_compute. reflexivity.
Defined.

Lemma partition_reads_options_witness :
  exists yamlLines,
    DemoCell.readYaml (Text.joinLines yamlLines) = Ret JNull /\
    CellOptions.optionsSource DemoCell.partitioned
    = (fun y => CellOptions.optionCommentPrefixFromLanguage
                  CellOptions.kLangCommentChars "python" +:+ y) <$> yamlLines.
Proof.
  apply (partition_reads_options CellOptions.kLangCommentChars
           DemoCell.guessChunkOptionsFormat DemoCell.readYaml
           "python" DemoCell.lines DemoCell.partitioned JNull).
  - vm_compute. reflexivity.
  - vm_compute. reflexivity.
  - reflexivity.
Defined.

(** The table's languages with a closing comment string, where the
    bundle's prefix is not the option prefix. *)
Example script_prefix_of_c :
  CellOptions.scriptCommentPrefix CellOptions.kLangCommentChars "c" = "/*,*/| " /\
  CellOptions.optionCommentPrefixFromLanguage CellOptions.kLangCommentChars "c"
  = "/*| ".
Proof. split; vm_compute; reflexivity. Qed.

(** ** The markdown dispatcher *)

Section MarkdownFacts.

Import Markdown.

Lemma findCell_from cells row : forall linesSoFar,
  linesSoFar <= row ->
  match findCell cells row linesSoFar with
  | Some (cell, found) =>
      exists before after,
        cells = before ++ cell :: after /\
        found = linesSoFar + linesOf before /\
        found <= row < found + sizeOf cell
  | None => linesSoFar + linesOf cells <= row
  end.
Proof.
  induction cells as [|cell cells IH]; intros linesSoFar Hle; simpl.
  - lia.
  - destruct (Z.gtb_spec (sizeOf cell + linesSoFar) row) as [Hgt|Hnot].
    + exists [], cells. simpl. split; [reflexivity|]. lia.
    + specialize (IH (linesSoFar + sizeOf cell) ltac:(lia)).
      destruct (findCell cells row (linesSoFar + sizeOf cell)) as [[c found]|].
      * destruct IH as (before & after & -> & -> & Hrow).
        exists (cell :: before), after. simpl. split; [reflexivity|]. lia.
      * lia.
Qed.

(** X22: for a cursor row that is not negative, the cell the dispatcher
    picks is the one whose lines contain the row, the cells being laid
    out one after the other, each with the lines of its source and, for
    a cell that is neither raw nor markdown, two fence lines; no cell
    is picked exactly when the row lies past the lines of all cells. *)
Theorem cell_of_row cells row :
  0 <= row ->
  match findCell cells row 0 with
  | Some (cell, linesSoFar) =>
      exists before after,
        cells = before ++ cell :: after /\
        linesSoFar = linesOf before /\
        linesSoFar <= row < linesSoFar + sizeOf cell
  | None => linesOf cells <= row
  end.
Proof.
  intros Hrow. pose proof (findCell_from cells row 0 Hrow) as H.
  destruct (findCell cells row 0) as [[cell found]|]; [|lia].
  destruct H as (before & after & Hcells & Hfound & Hspan).
  exists before, after. split; [exact Hcells|]. split; lia.
Qed.

Variable frontMatter : Schema.
Variable yamlHandler : Yaml.Context -> outcome Yaml.Answer.
Variable scriptHandler : ScriptContext -> outcome Yaml.Answer.

(** X23: when the cell of the cursor row is a code cell, the request is
    handed on to the script handler with the source of the cell, the
    line and the column unchanged, and a row counted from the first
    line of the source: [-1] on the opening fence, and the number of
    lines of the source on the closing fence. *)
Theorem script_row_in_cell cells position line cell linesSoFar language :
  0 <= row position ->
  findCell cells (row position) 0 = Some (cell, linesSoFar) ->
  cell_type cell = Code language ->
  truthy language = true ->
  automationFromGoodParseMarkdown frontMatter yamlHandler scriptHandler
                                  cells position line
  = scriptHandler (MkScriptContext language (source cell)
                     (MkPosition (row position - (linesSoFar + 1))
                                 (column position))
                     line) /\
  -1 <= row position - (linesSoFar + 1)
     <= Z.of_nat (length (Text.lines (MappedText.value (source cell)))).
Proof.
  intros Hrow Hfound Hty Hlang. split.
  - unfold automationFromGoodParseMarkdown. rewrite Hfound, Hty, Hlang. reflexivity.
  - pose proof (findCell_from cells (row position) 0 Hrow) as Hspan.
    rewrite Hfound in Hspan.
    destruct Hspan as (before & after & _ & _ & Hspan).
    unfold sizeOf in Hspan. rewrite Hty in Hspan. simpl in Hspan. lia.
Qed.

End MarkdownFacts.

Lemma cell_of_row_witness :
  match Markdown.findCell DemoMarkdown.cells 5 0 with
  | Some (cell, linesSoFar) =>
      exists before after,
        DemoMarkdown.cells = before ++ cell :: after /\
        linesSoFar = Markdown.linesOf before /\
        linesSoFar <= 5 < linesSoFar + Markdown.sizeOf cell
  | None => Markdown.linesOf DemoMarkdown.cells <= 5
  end.
Proof. apply (cell_of_row DemoMarkdown.cells 5). lia. Defined.

Lemma script_row_in_cell_witness :
  Markdown.automationFromGoodParseMarkdown DemoYaml.nested
    DemoMarkdown.yamlHandler DemoMarkdown.scriptHandler
    DemoMarkdown.cells (MkPosition 5 3) "#| "
  = DemoMarkdown.scriptHandler
      (Markdown.MkScriptContext "python"
         (MappedText.Original (Text.joinLines ["#| echo: false"; "x = 1"]))
         (MkPosition (5 - (4 + 1)) 3) "#| ") /\
  -1 <= 5 - (4 + 1)
     <= Z.of_nat (length (Text.lines (Text.joinLines ["#| echo: false"; "x = 1"]))).
Proof.
  apply (script_row_in_cell DemoYaml.nested DemoMarkdown.yamlHandler
           DemoMarkdown.scriptHandler DemoMarkdown.cells (MkPosition 5 3) "#| "
           (Markdown.MkCell (Markdown.Code "python")
              (MappedText.Original (Text.joinLines ["#| echo: false"; "x = 1"])))
           4 "python");
    [simpl; lia|reflexivity|reflexivity|reflexivity].
Defined.

(** ** The object of a built mapping *)

Section MappingResultFacts.

Import Annotate ObjectRead.

Variable mapClosest : Z -> Z.
Variable jsonParse : string -> outcome JsVal.

Local Abbreviation buildNode' := (buildNode mapClosest jsonParse).

Lemma getProp_setOwn obj key v x :
  getProp (setOwn obj key v) x
  = if String.eqb key x then Some v else getProp obj x.
Proof.
  induction obj as [|[k old] obj IH]; simpl.
  - destruct (String.eqb key x); reflexivity.
  - destruct (String.eqb_spec k key) as [->|Hne]; simpl.
    + destruct (String.eqb key x); reflexivity.
    + rewrite IH. destruct (String.eqb_spec k x) as [->|Hkx].
      * destruct (String.eqb_spec key x) as [->|_]; [congruence|reflexivity].
      * reflexivity.
Qed.

Lemma getProp_setProp obj key v x :
  getProp (setProp obj key v) x
  = if String.eqb key x && negb (String.eqb key "__proto__")
    then Some v else getProp obj x.
Proof.
  unfold setProp. destruct (String.eqb key "__proto__"); simpl.
  - rewrite andb_false_r. reflexivity.
  - rewrite andb_true_r. apply getProp_setOwn.
Qed.

Lemma pairsOf_result cs : forall result components result' components',
  pairsOf mapClosest buildNode' cs result components = Ret (result', components') ->
  exists kvs,
    components' = components ++ flat_map (fun kv => [kv.1; kv.2]) kvs /\
    (forall key v,
        getProp result' key = Some v ->
        getProp result key = Some v \/
        key <> "__proto__" /\
        exists kv, kv ∈ kvs /\ keyName kv.1 = key /\ v = Locate.result kv.2) /\
    (forall i kv,
        kvs !! i = Some kv ->
        keyName kv.1 <> "__proto__" ->
        (forall j kv', (i < j)%nat -> kvs !! j = Some kv' ->
                       keyName kv'.1 <> keyName kv.1) ->
        getProp result' (keyName kv.1) = Some (Locate.result kv.2)) /\
    (forall key,
        (forall kv, kv ∈ kvs -> keyName kv.1 <> key) ->
        getProp result' key = getProp result key).
Proof.
  induction cs as [|c cs IH]; intros result components result' components' Hpairs;
    simpl in Hpairs.
  - injection Hpairs as <- <-. exists []. simpl. rewrite app_nil_r.
    split; [reflexivity|]. split; [auto|]. split; [|reflexivity].
    intros i kv Hi. rewrite lookup_nil in Hi. discriminate.
  - apply bind_Ret_inv in Hpairs as ([[result0 key] value] & Hfound & Hpairs).
    assert (forall x, getProp (setProp result0 (keyName key) (Locate.result value)) x
                      = if String.eqb (keyName key) x
                           && negb (String.eqb (keyName key) "__proto__")
                        then Some (Locate.result value) else getProp result x)
      as Hstep.
    { intros x. rewrite getProp_setProp.
      destruct (String.eqb (type c) "ERROR").
      - injection Hfound as <- <- _. rewrite getProp_setProp.
        unfold keyName. simpl.
        destruct (String.eqb (text c) x && negb (String.eqb (text c) "__proto__"));
          reflexivity.
      - destruct (negb (String.eqb (type c) "block_mapping_pair")); [discriminate|].
        apply bind_Ret_inv in Hfound as (kv & _ & Hfound).
        injection Hfound as <- _ _. reflexivity. }
    apply IH in Hpairs as (kvs & -> & Hfrom & Hlast & Hother).
    exists ((key, value) :: kvs). split; [|split; [|split]].
    + simpl. rewrite <- app_assoc. reflexivity.
    + intros x v Hx.
      destruct (Hfrom x v Hx) as [Hprev|(Hproto & kv & Hin & Hk & Hv)].
      * fold (keyName key) in Hprev. rewrite Hstep in Hprev.
        destruct (String.eqb_spec (keyName key) x) as [He|_];
          [|left; exact Hprev].
        destruct (String.eqb_spec (keyName key) "__proto__") as [_|Hproto];
          [left; exact Hprev|].
        simpl in Hprev. right. split; [congruence|].
        exists (key, value). injection Hprev as <-.
        split; [apply list_elem_of_here|]. split; [exact He|reflexivity].
      * right. split; [exact Hproto|]. exists kv.
        split; [by apply list_elem_of_further|]. auto.
    + intros [|i] kv Hi Hproto Hlater; simpl in Hi.
      * injection Hi as <-. simpl in *.
        rewrite Hother.
        -- fold (keyName key). rewrite Hstep, String.eqb_refl.
           apply String.eqb_neq in Hproto. rewrite Hproto. reflexivity.
        -- intros kv' Hin. apply list_elem_of_lookup in Hin as [j Hj].
           apply (Hlater (S j) kv'); [lia|exact Hj].
      * apply (Hlast i kv Hi Hproto). intros j kv' Hj Hkv'.
        apply (Hlater (S j) kv'); [lia|exact Hkv'].
    + intros x Hnone. rewrite Hother.
      * fold (keyName key). rewrite Hstep.
        destruct (String.eqb_spec (keyName key) x) as [He|_]; [|reflexivity].
        exfalso. apply (Hnone (key, value)); [apply list_elem_of_here|exact He].
      * intros kv Hin. apply Hnone. by apply list_elem_of_further.
Qed.

(** X24: the result of a built [block_mapping] is an object whose own
    properties, the name "__proto__" apart, are these: under the name
    of each key among its components, the result of the value that
    follows the last occurrence of that key, and nothing else; for an
    ERROR child this is [null] under the child's text, the marker
    stored first being overwritten at once. *)
Theorem build_mapping_result node a :
  type node = "block_mapping" ->
  buildNode' node = Ret (Some a) ->
  exists obj kvs,
    Locate.result a = JObj obj /\
    components a = flat_map (fun kv => [kv.1; kv.2]) kvs /\
    (forall key v,
        key <> "__proto__" ->
        getProp obj key = Some v ->
        exists kv, kv ∈ kvs /\ keyName kv.1 = key /\ v = Locate.result kv.2) /\
    (forall i kv,
        kvs !! i = Some kv ->
        keyName kv.1 <> "__proto__" ->
        (forall j kv', (i < j)%nat -> kvs !! j = Some kv' ->
                       keyName kv'.1 <> keyName kv.1) ->
        getProp obj (keyName kv.1) = Some (Locate.result kv.2)).
Proof.
  intros Hty. rewrite buildNode_unfold. cbv zeta. rewrite Hty.
  change (isSingleton "block_mapping") with false. cbv iota.
  simpl String.eqb. cbv iota.
  intros H. apply bind_Ret_inv in H as ([obj components] & Hpairs & H).
  injection H as <-. simpl.
  apply pairsOf_result in Hpairs as (kvs & -> & Hfrom & Hlast & _).
  exists obj, kvs. split; [reflexivity|]. split; [reflexivity|].
  split; [|exact Hlast].
  intros key v _ Hkey.
  destruct (Hfrom key v Hkey) as [Hnone|[_ Hkv]]; [discriminate|exact Hkv].
Qed.

End MappingResultFacts.

Lemma build_mapping_result_witness :
  exists obj kvs,
    result DemoTree.mappingBuilt = JObj obj /\
    components DemoTree.mappingBuilt = flat_map (fun kv => [kv.1; kv.2]) kvs /\
    (forall key v,
        key <> "__proto__" ->
        ObjectRead.getProp obj key = Some v ->
        exists kv, kv ∈ kvs /\ ObjectRead.keyName kv.1 = key /\ v = result kv.2) /\
    (forall i kv,
        kvs !! i = Some kv ->
        ObjectRead.keyName kv.1 <> "__proto__" ->
        (forall j kv', (i < j)%nat -> kvs !! j = Some kv' ->
                       ObjectRead.keyName kv'.1 <> ObjectRead.keyName kv.1) ->
        ObjectRead.getProp obj (ObjectRead.keyName kv.1) = Some (result kv.2)).
Proof.
  apply (build_mapping_result (fun z => z) DemoTree.jsonParse DemoTree.mapping
           DemoTree.mappingBuilt).
  - reflexivity.
  - vm_compute. reflexivity.
Defined.

(** ** References to an enclosing schema *)

Section NavigateReference.

Variable schemaType : Schema -> string.

(** A reference to a schema that is registered under its own [$id] is
    navigated like that schema. *)
Lemma inner_reference path fuel s r i index :
  id_ s = Some i -> truthy i = true -> ref_ s = None ->
  id_ r = None -> ref_ r = Some i ->
  inner schemaType path (S fuel) (<[i := s]> ∅) r index
  = inner schemaType path (S fuel) ∅ s index.
Proof.
  intros Hid Hi Href Hrid Hrref. rewrite !inner_unfold. cbv zeta.
  unfold register, resolve. rewrite Hid, Hi, Href, Hrid, Hrref, Hi.
  rewrite lookup_insert_eq. reflexivity.
Qed.

(** X25: a schema can refer to itself: from an object schema that
    carries an [$id], a path whose first element names a property that
    is a reference to that [$id] is navigated as the rest of the path
    from the object schema itself. *)
Theorem navigate_self_reference fuel s props i k rest r :
  schemaType s = "object" ->
  id_ s = Some i -> truthy i = true -> ref_ s = None ->
  properties s = Some props ->
  props !! toString k = Some r ->
  id_ r = None -> ref_ r = Some i ->
  navigateSchema schemaType (k :: rest) (S (S fuel)) s
  = navigateSchema schemaType rest (S fuel) s.
Proof.
  intros Hty Hid Hi Href Hprops Hr Hrid Hrref. unfold navigateSchema.
  rewrite (inner_unfold schemaType (k :: rest) (S fuel)). cbv zeta.
  unfold register at 1, resolve at 1. rewrite Hid, Hi, Href. rewrite bind_Ret.
  cbv beta. simpl Nat.eqb. cbv iota. rewrite Hty. simpl String.eqb. cbv iota.
  rewrite Hprops. unfold keyAt. simpl lookup. rewrite Hr.
  rewrite (inner_shift schemaType [k] rest (S fuel) _ r 0).
  assert (register s ∅ = <[i := s]> ∅) as ->
    by (unfold register; rewrite Hid, Hi; reflexivity).
  rewrite (inner_reference rest fuel s r i 0 Hid Hi Href Hrid Hrref).
  reflexivity.
Qed.

End NavigateReference.

Lemma navigate_self_reference_witness :
  navigateSchema schemaTypeOf [JStr "next"; JStr "next"] 3
    (withId "node" (objectOf [("next", refTo "node"); ("v", typed "number")]))
  = navigateSchema schemaTypeOf [JStr "next"] 2
      (withId "node" (objectOf [("next", refTo "node"); ("v", typed "number")])).
Proof.
  apply (navigate_self_reference schemaTypeOf 1
           (withId "node" (objectOf [("next", refTo "node"); ("v", typed "number")]))
           (list_to_map [("next", refTo "node"); ("v", typed "number")])
           "node" (JStr "next") [JStr "next"] (refTo "node"));
    reflexivity.
Defined.

(** ** The indentation handed to the generator *)

Section IndentOfLine.

Import Yaml.

Lemma trimStart_split (l : string) : exists w, l = w +:+ Str.trimStart l.
Proof.
  induction l as [|c l [w Hw]]; [exists ""; reflexivity|]. simpl.
  destruct (Str.isWhite c).
  - exists (String c w). rewrite sapp_cons, <- Hw. reflexivity.
  - exists "". reflexivity.
Qed.

Lemma trimStart_sapp (a b : string) :
  Str.trimStart (a +:+ b)
  = match Str.trimStart a with
    | EmptyString => Str.trimStart b
    | _ => Str.trimStart a +:+ b
    end.
Proof.
  induction a as [|c a IH]; [reflexivity|]. rewrite sapp_cons. simpl.
  destruct (Str.isWhite c); [exact IH|]. rewrite sapp_cons. reflexivity.
Qed.

(** On a line that is not blank, the length of the line without its
    trailing white space exceeds the length of the trimmed line by the
    indentation of the line. *)
Lemma indent_of_line (line : string) :
  Indent.isBlank line = false ->
  Text.strlen (Str.trimEnd line) - Text.strlen (Str.trim line)
  = Indent.getIndent line.
Proof.
  unfold Indent.isBlank, Indent.getIndent, Str.trim. intros Hblank.
  destruct (trimStart_split line) as [w Hw].
  set (r := Str.trimStart line) in *. clearbody r.
  assert (Str.trimEnd line = w +:+ Str.trimEnd r) as ->.
  { unfold Str.trimEnd. rewrite Hw. rewrite rev_sapp, trimStart_sapp.
    destruct (Str.trimStart (String.rev r)) as [|c t] eqn:Hr.
    - unfold Str.trimEnd in Hblank. rewrite Hr in Hblank. discriminate.
    - rewrite rev_sapp, rev_involutive. reflexivity. }
  subst line. rewrite !strlen_app. lia.
Qed.

Variable Tree : Type.
Variable parse : string -> Tree.
Variable rootType : Tree -> string.
Variable buildAnnotated :
  Tree -> MappedText.MappedString -> outcome (option Annotated).
Variable rowColToIndex : string -> Position -> Z.
Variable schemaType : Schema -> string.
Variable schemaTypeOfUndefined : outcome string.
Variable schemaCompletions : Schema -> list Completion.Item.
Variable localeCompare : string -> string -> Z.
Variable fuel : nat.

(** X26: on a line that is not blank, the candidates of the reparse
    search are tried with the in-progress word of the line and with an
    indentation that is the number of white-space characters the line
    starts with. *)
Theorem entry_indent context m :
  stripFences true (code context) (position context) = Ret (Some m) ->
  Indent.isBlank (line context) = false ->
  completionsFromGoodParseYAML Tree parse rootType buildAnnotated rowColToIndex
    schemaType schemaTypeOfUndefined schemaCompletions localeCompare fuel context
  = let run := attemptParsesAtLine Tree parse (MappedText.Mapped m)
                                   (position context) in
    tryCandidates Tree buildAnnotated rowColToIndex schemaType
      schemaTypeOfUndefined schemaCompletions localeCompare fuel
      (line context) (position context) (schema context)
      (default "" (commentPrefix context)) (wordOf (line context))
      (Indent.getIndent (line context))
      (yielded Tree rootType run) (ending run).
Proof.
  intros Hstrip Hblank. unfold completionsFromGoodParseYAML.
  rewrite Hstrip, bind_Ret. cbv beta iota zeta.
  rewrite (indent_of_line _ Hblank).
  unfold Indent.isBlank in Hblank. rewrite Hblank. reflexivity.
Qed.

End IndentOfLine.

Lemma entry_indent_witness :
  DemoYaml.completionsFromGoodParseYAML
    (Yaml.MkContext "  b" (MappedText.Mapped (MappedText.Original "  b"))
                    (MkPosition 0 3) DemoYaml.nested None)
  = let run := attemptParsesAtLine string DemoParser.parse
                 (MappedText.Mapped (MappedText.Original "  b")) (MkPosition 0 3) in
    Yaml.tryCandidates string DemoYaml.noBuilder DemoYaml.noIndex schemaTypeOf
      (Throw TypeError) DemoYaml.propertyCompletions Demo.codeUnitCompare 10%nat
      "  b" (MkPosition 0 3) DemoYaml.nested "" (Yaml.wordOf "  b")
      (Indent.getIndent "  b")
      (yielded string DemoParser.rootType run) (ending run).
Proof.
  apply (entry_indent string DemoParser.parse DemoParser.rootType
           DemoYaml.noBuilder DemoYaml.noIndex schemaTypeOf (Throw TypeError)
           DemoYaml.propertyCompletions Demo.codeUnitCompare 10%nat
           (Yaml.MkContext "  b" (MappedText.Mapped (MappedText.Original "  b"))
                           (MkPosition 0 3) DemoYaml.nested None)
           (MappedText.Original "  b"));
    reflexivity.
Defined.
